(** * Real-time narrative system: playback client, narrative state,
      candidate sampler and orchestrator

    A shallow embedding of [src/realtime-narrative/] ([manifest_loader.py],
    [selector.py], [playback.py], [orchestrator.py]) together with the
    properties of its specification.

    Conventions of the embedding:
    - Python [str] is [string], holding the UTF-8 encoding of the text, so
      that [len] and slices count characters and not bytes; [bytes] is
      [list byte].
    - Python [float] is idealised as an exact rational [Q]; [int] is [Z].
    - [datetime.now().isoformat()] is read from a clock that is part of the
      modelled state.
    - External collaborators (the mpv peer behind the socket, the LLM client,
      [json.loads], [random.sample]) are oracles: every theorem quantifies
      over them. *)

From Stdlib Require Import ZArith QArith Qround Strings.Byte Ascii String List
  Sorted Lia Lqa.
From stdpp Require Import base option list gmap strings.

Open Scope string_scope.
Open Scope list_scope.

(** ** Python built-ins used by the sources *)

(** [l[-n:]] for a positive literal [n]: the last [n] elements. *)
Definition last_n {A : Type} (n : nat) (l : list A) : list A :=
  drop (length l - n) l.

(** A byte that continues a character begun by an earlier byte
    ([10xxxxxx]). *)
Definition is_continuation (c : ascii) : bool :=
  let n := nat_of_ascii c in (128 <=? n)%nat && (n <? 192)%nat.

(** [len(s)]: the number of characters. *)
Fixpoint str_len (s : string) : nat :=
  match s with
  | EmptyString => 0
  | String c r => if is_continuation c then str_len r else S (str_len r)
  end.

(** [s[:n]]: the first [n] characters. *)
Fixpoint str_prefix (n : nat) (s : string) : string :=
  match s with
  | EmptyString => EmptyString
  | String c r =>
      if is_continuation c then String c (str_prefix n r)
      else match n with
           | 0 => EmptyString
           | S n' => String c (str_prefix n' r)
           end
  end.

(** A text of ASCII characters only. *)
Fixpoint ascii_only (s : string) : bool :=
  match s with
  | EmptyString => true
  | String c r => (nat_of_ascii c <? 128)%nat && ascii_only r
  end.

(** [str.lower()] as it acts on ASCII text: the letters [A] to [Z] are
    mapped, every other byte is kept.  Python also maps the letters outside
    ASCII (the Kelvin sign to [k], for one), so the two agree on the texts
    for which [ascii_only] holds. *)
Definition lower_ascii (c : ascii) : ascii :=
  let n := nat_of_ascii c in
  if (65 <=? n)%nat && (n <=? 90)%nat then ascii_of_nat (n + 32) else c.

Fixpoint lower (s : string) : string :=
  match s with
  | EmptyString => EmptyString
  | String c r => String (lower_ascii c) (lower r)
  end.

(** Truth value of a [str]: the empty string is falsy. *)
Definition str_truthy (s : string) : bool :=
  match s with EmptyString => false | _ => true end.

(** [keyword] occurs in [s]: some part of [s] is [keyword]. *)
Definition occurs_in (keyword s : string) : Prop :=
  exists before after,
    s = String.append before (String.append keyword after).

(** ** manifest_loader.py *)

Module Manifest.

(** The fields of [Clip] that the selector and the orchestrator read. *)
Record Clip := {
  filename : string;
  duration : Q;
  description : string;
  subjects : list string;
  setting : string;
  mood : string;
  dominant_colors : list string;
  motion_intensity : string;
  has_speech : bool;
  speech_transcript : option string;
  suggested_tags : list string
}.

(** The dictionary returned by [Clip.to_selector_context]. *)
Record SelectorContext := {
  ctx_filename : string;
  ctx_duration : Q;
  ctx_description : string;
  ctx_mood : string;
  ctx_setting : string;
  ctx_subjects : list string;
  ctx_tags : list string;
  ctx_has_speech : bool;
  ctx_speech_preview : option string;
  ctx_motion : string;
  ctx_colors : list string
}.

Definition to_selector_context (c : Clip) : SelectorContext :=
  {| ctx_filename := filename c;
     ctx_duration := duration c;
     ctx_description := description c;
     ctx_mood := mood c;
     ctx_setting := setting c;
     ctx_subjects := take 5 (subjects c);
     ctx_tags := take 8 (suggested_tags c);
     ctx_has_speech := has_speech c;
     ctx_speech_preview :=
       match speech_transcript c with
       | Some t =>
           if str_truthy t && (100 <? str_len t)%nat
           then Some (String.append (str_prefix 100 t) "...")
           else Some t
       | None => None
       end;
     ctx_motion := motion_intensity c;
     ctx_colors := take 4 (dominant_colors c) |}.

(** [{c.filename: c for c in clips}]: a later clip with the same filename
    overwrites an earlier one. *)
Definition index_clips (cs : list Clip) : gmap string Clip :=
  foldl (fun m c => <[filename c := c]> m) ∅ cs.

(** [ManifestLoader].  [load] is the only method that assigns [clips] and
    [clips_by_filename], and it assigns both, so the index is always the one
    of the clip list. *)
Record ManifestLoader := {
  clips : list Clip
}.

Definition clips_by_filename (m : ManifestLoader) : gmap string Clip :=
  index_clips (clips m).

Definition load (cs : list Clip) : ManifestLoader := {| clips := cs |}.

Definition get_clip (m : ManifestLoader) (name : string) : option Clip :=
  clips_by_filename m !! name.

(** Truth value of [get_clip(name)]: a [Clip] object is truthy, [None] is
    not. *)
Definition known (m : ManifestLoader) (name : string) : bool :=
  match get_clip m name with Some _ => true | None => false end.

End Manifest.

(** ** selector.py: NarrativeState *)

Module Narrative.
Import Manifest.

(** An entry of [recently_played]. *)
Record PlayedEntry := {
  pe_filename : string;
  pe_description : string;
  pe_mood : string;
  pe_played_at : string
}.

(** An entry of [feedback_history]. *)
Record FeedbackEntry := {
  fe_text : string;
  fe_at : string
}.

Record NarrativeState := {
  direction : string;
  coherence_level : Q;
  recently_played : list PlayedEntry;
  current_queue : list string;
  feedback_history : list FeedbackEntry;
  mood_trajectory : list string
}.

Definition initial_state : NarrativeState :=
  {| direction := "open exploration";
     coherence_level := 3 # 10;
     recently_played := [];
     current_queue := [];
     feedback_history := [];
     mood_trajectory := [] |}.

Definition played_entry (clip : Clip) (now : string) : PlayedEntry :=
  {| pe_filename := filename clip;
     pe_description := str_prefix 150 (description clip);
     pe_mood := mood clip;
     pe_played_at := now |}.

Definition add_played (clip : Clip) (now : string) (s : NarrativeState)
  : NarrativeState :=
  {| direction := direction s;
     coherence_level := coherence_level s;
     recently_played := last_n 10 (recently_played s ++ [played_entry clip now]);
     current_queue := current_queue s;
     feedback_history := feedback_history s;
     mood_trajectory := last_n 15 (mood_trajectory s ++ [mood clip]) |}.

Definition feedback_entry (feedback now : string) : FeedbackEntry :=
  {| fe_text := feedback; fe_at := now |}.

Definition add_feedback (feedback now : string) (s : NarrativeState)
  : NarrativeState :=
  {| direction := direction s;
     coherence_level := coherence_level s;
     recently_played := recently_played s;
     current_queue := current_queue s;
     feedback_history := last_n 10 (feedback_history s ++ [feedback_entry feedback now]);
     mood_trajectory := mood_trajectory s |}.

Definition get_recent_feedback (n : nat) (s : NarrativeState) : list string :=
  map fe_text (last_n n (feedback_history s)).

(** The dictionary returned by [to_context]. *)
Record Context := {
  cx_direction : string;
  cx_coherence_level : Q;
  cx_recently_played : list PlayedEntry;
  cx_recent_feedback : list string;
  cx_mood_trajectory : list string;
  cx_queued_count : nat
}.

Definition to_context (s : NarrativeState) : Context :=
  {| cx_direction := direction s;
     cx_coherence_level := coherence_level s;
     cx_recently_played := last_n 5 (recently_played s);
     cx_recent_feedback := get_recent_feedback 5 s;
     cx_mood_trajectory := last_n 5 (mood_trajectory s);
     cx_queued_count := length (current_queue s) |}.

(** A call on the state store, with the clock reading it sees. *)
Inductive store_call :=
| AddPlayed (clip : Clip) (now : string)
| AddFeedback (feedback : string) (now : string).

Definition run_call (s : NarrativeState) (c : store_call) : NarrativeState :=
  match c with
  | AddPlayed clip now => add_played clip now s
  | AddFeedback fb now => add_feedback fb now s
  end.

Definition run_calls (cs : list store_call) (s : NarrativeState) : NarrativeState :=
  foldl run_call s cs.

(** What a call sequence appends to each of the three sequences. *)
Definition played_of (cs : list store_call) : list PlayedEntry :=
  omap (fun c => match c with
                 | AddPlayed clip now => Some (played_entry clip now)
                 | _ => None end) cs.

Definition moods_of (cs : list store_call) : list string :=
  omap (fun c => match c with
                 | AddPlayed clip _ => Some (mood clip)
                 | _ => None end) cs.

Definition feedback_of (cs : list store_call) : list FeedbackEntry :=
  omap (fun c => match c with
                 | AddFeedback fb now => Some (feedback_entry fb now)
                 | _ => None end) cs.

End Narrative.


(** ** Dynamically typed values: the data mpv sends back over IPC *)

#[local] Unset Elimination Schemes.
Inductive pyval :=
| PNone
| PBool (b : bool)
| PInt (z : Z)
| PFloat (q : Q)
| PStr (s : string)
| PList (l : list pyval)
| PDict (d : list (string * pyval)).
#[local] Set Elimination Schemes.

(** Python truth value. *)
Definition truthy (v : pyval) : bool :=
  match v with
  | PNone => false
  | PBool b => b
  | PInt z => negb (z =? 0)%Z
  | PFloat q => negb (Qeq_bool q 0%Q)
  | PStr s => str_truthy s
  | PList l => match l with [] => false | _ => true end
  | PDict d => match d with [] => false | _ => true end
  end.

(** [x or default]. *)
Definition py_or (x default : pyval) : pyval :=
  if truthy x then x else default.

(** A Python operation either yields a value or raises [TypeError]. *)
Inductive pyres (A : Type) :=
| Value (a : A)
| TypeError.
Arguments Value {A} a.
Arguments TypeError {A}.

Definition pyres_bind {A B} (r : pyres A) (f : A -> pyres B) : pyres B :=
  match r with Value a => f a | TypeError => TypeError end.

(** The number a value denotes in arithmetic and comparisons. *)
Definition py_num (v : pyval) : pyres Q :=
  match v with
  | PBool b => Value (if b then 1%Q else 0%Q)
  | PInt z => Value (inject_Z z)
  | PFloat q => Value q
  | _ => TypeError
  end.

(** [len(v)]. *)
Definition py_len (v : pyval) : pyres Q :=
  match v with
  | PStr s => Value (inject_Z (Z.of_nat (str_len s)))
  | PList l => Value (inject_Z (Z.of_nat (length l)))
  | PDict d => Value (inject_Z (Z.of_nat (length d)))
  | _ => TypeError
  end.

(** [q > 0] on numbers. *)
Definition Qpositive (q : Q) : bool := negb (Qle_bool q 0%Q).

(** [dict.get(key)] on a JSON object; a missing key gives [None]. *)
Fixpoint dict_get (d : list (string * pyval)) (key : string) : pyval :=
  match d with
  | [] => PNone
  | (k, v) :: r => if String.eqb k key then v else dict_get r key
  end.

Definition is_success (v : pyval) : bool :=
  match v with PStr s => String.eqb s "success" | _ => false end.

(** ** playback.py *)

Module Playback.

Record PlaybackStatus := {
  playing : bool;
  filename : pyval;
  position : pyval;
  duration : pyval;
  playlist_count : pyval;
  playlist_pos : pyval;
  paused : pyval
}.

(** *** The socket and the peer behind it *)

(** One [recv(4096)]: a chunk of bytes (empty once the peer has closed the
    connection), or [socket.error] (which includes [socket.timeout], raised
    when nothing arrives within the 2 second timeout set on the socket). *)
Inductive recv_event :=
| Chunk (data : list byte)
| SocketError.

(** What the peer does during one command: whether a connection attempt and
    the [send] succeed, and what each successive [recv] yields. *)
Record exchange := {
  connect_ok : bool;
  send_ok : bool;
  recv : nat -> recv_event
}.

(** [PlaybackController]: whether [_socket] is set, the configured base path,
    and how many commands have been issued so far (the index into the peer's
    behaviour). *)
Record controller := {
  _socket : bool;
  clips_base_path : option string;
  issued : nat
}.

Definition set_socket (b : bool) (c : controller) : controller :=
  {| _socket := b; clips_base_path := clips_base_path c; issued := issued c |}.

Definition next_command (c : controller) : controller :=
  {| _socket := _socket c; clips_base_path := clips_base_path c;
     issued := S (issued c) |}.

Definition fresh_controller (base : option string) : controller :=
  {| _socket := false; clips_base_path := base; issued := 0 |}.

(** [b"\n" in response] *)
Definition has_newline (response : list byte) : bool :=
  existsb (Byte.eqb x0a) response.

(** Result of the read loop of [_send_command]. *)
Inductive read_result :=
| Line (response : list byte)
| ReadRaised
| StillReading.

(** The [while True] loop: [fuel] bounds the number of [recv] calls that are
    followed; [StillReading] means the loop has not exited within them. *)
Fixpoint read_response (fuel : nat) (rcv : nat -> recv_event) (i : nat)
    (response : list byte) : read_result :=
  match fuel with
  | O => StillReading
  | S fuel' =>
      match rcv i with
      | SocketError => ReadRaised
      | Chunk chunk =>
          let response := response ++ chunk in
          if has_newline response then Line response
          else read_response fuel' rcv (S i) response
      end
  end.

Section Controller.
(** [json.loads(response.decode().strip())] on a reply line that the wire
    protocol allows: the decoded JSON object, or [None] when [json.loads]
    raises [JSONDecodeError].  A line that is not UTF-8 (where [decode]
    raises, which [_send_command] does not catch) or that holds a JSON value
    other than an object ([null], a number, a list) is not a reply of the
    protocol and has no counterpart here. *)
Variable json_loads : list byte -> option (list (string * pyval)).
(** The peer: its behaviour during the [k]-th command, given the command. *)
Variable peer : nat -> list pyval -> exchange.
(** Bound on the [recv] calls followed per command. *)
Variable fuel : nat.

(** A method of the controller: [None] when the call has not returned
    within the fuel. *)
Definition IPC (A : Type) : Type := controller -> option (A * controller).

Definition ipc_ret {A} (a : A) : IPC A := fun c => Some (a, c).

Definition ipc_bind {A B} (m : IPC A) (f : A -> IPC B) : IPC B :=
  fun c => match m c with
           | Some (a, c') => f a c'
           | None => None
           end.

Definition connect (x : exchange) (c : controller) : bool * controller :=
  if _socket c then (true, c)
  else if connect_ok x then (true, set_socket true c)
  else (false, set_socket false c).

Definition _send_command (command : list pyval)
  : IPC (option (list (string * pyval))) :=
  fun c =>
    let x := peer (issued c) command in
    let c := next_command c in
    let '(connected, c) :=
      if _socket c then (true, c) else connect x c in
    if negb connected then Some (None, c)
    else if negb (send_ok x) then Some (None, set_socket false c)
    else
      match read_response fuel (recv x) 0 [] with
      | StillReading => None
      | ReadRaised => Some (None, set_socket false c)
      | Line response =>
          match json_loads response with
          | Some result => Some (Some result, c)
          | None => Some (None, set_socket false c)
          end
      end.

Definition _get_property (name : string) : IPC pyval :=
  ipc_bind (_send_command [PStr "get_property"; PStr name]) (fun result =>
  ipc_ret match result with
          | Some d =>
              if truthy (PDict d) && is_success (dict_get d "error")
              then dict_get d "data"
              else PNone
          | None => PNone
          end).

(** [get_full_path], for a base path in normal form and a relative file
    name, where joining the two paths puts a [/] between them. *)
Definition get_full_path (name : string) (c : controller) : string :=
  match clips_base_path c with
  | Some base => if str_truthy base
                 then String.append base (String.append "/" name)
                 else name
  | None => name
  end.

Definition add_to_playlist (name : string) (play_now : bool) : IPC bool :=
  fun c =>
    let path := get_full_path name c in
    ipc_bind
      (_send_command
         [PStr "loadfile"; PStr path;
          PStr (if play_now then "replace" else "append")])
      (fun result =>
         ipc_ret match result with
                 | Some d => is_success (dict_get d "error")
                 | None => false
                 end) c.

(** The status assembled from the seven property values. *)
Definition status_of (idle_active pause name time_pos dur count pos : pyval)
  : PlaybackStatus :=
  {| playing := negb (truthy (py_or idle_active (PBool false)));
     paused := py_or pause (PBool false);
     filename := name;
     position := py_or time_pos (PFloat 0%Q);
     duration := py_or dur (PFloat 0%Q);
     playlist_count := py_or count (PInt 0);
     playlist_pos := py_or pos (PInt 0) |}.

Definition get_status : IPC PlaybackStatus :=
  ipc_bind (_get_property "idle-active") (fun idle_active =>
  ipc_bind (_get_property "pause") (fun pause =>
  ipc_bind (_get_property "filename") (fun name =>
  ipc_bind (_get_property "time-pos") (fun time_pos =>
  ipc_bind (_get_property "duration") (fun dur =>
  ipc_bind (_get_property "playlist-count") (fun count =>
  ipc_bind (_get_property "playlist-pos") (fun pos =>
  ipc_ret (status_of idle_active pause name time_pos dur count pos)))))))).

Definition get_playlist : IPC pyval :=
  ipc_bind (_get_property "playlist") (fun playlist =>
  ipc_ret (py_or playlist (PList []))).

(** Body of [get_remaining_time] on the status it has just read. *)
Definition remaining_time_of (status : PlaybackStatus) : pyres Q :=
  pyres_bind (py_num (duration status)) (fun d =>
  if Qpositive d
  then pyres_bind (py_num (position status)) (fun p => Value (d - p)%Q)
  else Value 0%Q).

Definition get_remaining_time : IPC (pyres Q) :=
  ipc_bind get_status (fun status => ipc_ret (remaining_time_of status)).

(** Body of [get_queue_duration] after its three reads. *)
Definition queue_duration_of (status : PlaybackStatus) (playlist : pyval)
    (remaining : pyres Q) : pyres Q :=
  pyres_bind remaining (fun remaining =>
  pyres_bind (py_len playlist) (fun len_playlist =>
  pyres_bind (py_num (playlist_pos status)) (fun pos =>
  let remaining_files := (len_playlist - pos - 1)%Q in
  Value (remaining + remaining_files * 8)%Q))).

Definition get_queue_duration : IPC (pyres Q) :=
  ipc_bind get_status (fun status =>
  ipc_bind get_playlist (fun playlist =>
  ipc_bind get_remaining_time (fun remaining =>
  ipc_ret (queue_duration_of status playlist remaining)))).

End Controller.

(** The estimate when the three reads of [get_queue_duration] see the same
    engine state: one status and its playlist. *)
Definition queue_estimate (status : PlaybackStatus) (playlist : pyval) : pyres Q :=
  queue_duration_of status playlist (remaining_time_of status).

(** The status of an engine playing an item of duration [d] at position [p],
    at index [k] of its playlist. *)
Definition playing_status (name : string) (p d : Q) (k : Z) (count : Z)
  : PlaybackStatus :=
  {| playing := true; filename := PStr name; position := PFloat p;
     duration := PFloat d; playlist_count := PInt count;
     playlist_pos := PInt k; paused := PBool false |}.

(** A peer that refuses every connection attempt. *)
Definition unreachable_peer : nat -> list pyval -> exchange :=
  fun _ _ => {| connect_ok := false; send_ok := false;
                recv := fun _ => SocketError |}.

(** A peer that accepts the connection and the request and then closes its
    end: every [recv] returns the empty byte string. *)
Definition closed_peer : nat -> list pyval -> exchange :=
  fun _ _ => {| connect_ok := true; send_ok := true;
                recv := fun _ => Chunk [] |}.

(** *** DummyPlaybackController *)

(** The fields of the dummy and [d_now], the reading of [time.time()].  The
    dummy keeps [current_pos] inside a non-empty playlist. *)
Record Dummy := {
  d_playlist : list string;
  d_current_pos : nat;
  d_playing : bool;
  d_start_time : Q;
  d_clip_duration : Q;
  d_now : Q
}.

Definition fresh_dummy (now : Q) : Dummy :=
  {| d_playlist := []; d_current_pos := 0; d_playing := false;
     d_start_time := 0%Q; d_clip_duration := 8%Q; d_now := now |}.

(** Float [x % m] for positive [m]. *)
Definition Qmod (x m : Q) : Q := (x - inject_Z (Qfloor (x / m)) * m)%Q.

Definition Qmax (a b : Q) : Q := if Qle_bool a b then b else a.

Definition dummy_add_to_playlist (name : string) (play_now : bool) (d : Dummy)
  : bool * Dummy :=
  if play_now then
    (true, {| d_playlist := [name]; d_current_pos := 0; d_playing := true;
              d_start_time := d_now d; d_clip_duration := d_clip_duration d;
              d_now := d_now d |})
  else
    (true, {| d_playlist := d_playlist d ++ [name];
              d_current_pos := d_current_pos d; d_playing := d_playing d;
              d_start_time := d_start_time d;
              d_clip_duration := d_clip_duration d; d_now := d_now d |}).

Definition dummy_play (d : Dummy) : bool * Dummy :=
  (true, {| d_playlist := d_playlist d; d_current_pos := d_current_pos d;
            d_playing := true; d_start_time := d_now d;
            d_clip_duration := d_clip_duration d; d_now := d_now d |}).

Definition dummy_get_status (d : Dummy) : PlaybackStatus :=
  let elapsed := if d_playing d then (d_now d - d_start_time d)%Q else 0%Q in
  {| playing := d_playing d;
     filename := match d_playlist d with
                 | [] => PNone
                 | _ => match d_playlist d !! d_current_pos d with
                        | Some f => PStr f
                        | None => PNone
                        end
                 end;
     position := PFloat (Qmod elapsed (d_clip_duration d));
     duration := PFloat (d_clip_duration d);
     playlist_count := PInt (Z.of_nat (length (d_playlist d)));
     playlist_pos := PInt (Z.of_nat (d_current_pos d));
     paused := PBool (negb (d_playing d)) |}.

Definition dummy_get_remaining_time (d : Dummy) : Q :=
  if negb (d_playing d) then 0%Q
  else
    let elapsed := (d_now d - d_start_time d)%Q in
    Qmax 0%Q (d_clip_duration d - Qmod elapsed (d_clip_duration d))%Q.

Definition dummy_get_queue_duration (d : Dummy) : Q :=
  let remaining := dummy_get_remaining_time d in
  let remaining_files :=
    (inject_Z (Z.of_nat (length (d_playlist d)))
     - inject_Z (Z.of_nat (d_current_pos d)) - 1)%Q in
  (remaining + remaining_files * d_clip_duration d)%Q.

End Playback.

(** ** Effects: state, exceptions and the observable trace *)

(** A line printed on standard output. *)
Inductive log_line :=
| WarnNonexistentClip (name : string)
| DirectionUpdated (d : string)
| StartingOrchestrator
| FailedToStartMpv
| FailedToConnect
| MakingInitialSelection
| OrchestratorStarted
| BufferLow
| SelectionError (msg : string)
| NoClipsSelected
| Queued (name : string)
| Reason (text : string)
| FailedToQueue (name : string)
| NarrativeNote (text : string)
| SuggestedDirection (text : string)
| BufferLoopError (e : string).

(** What a run does that an observer can see: printed lines, and the
    [add_to_playlist] calls made on the playback client with their result. *)
Inductive event :=
| Printed (line : log_line)
| Enqueue (name : string) (ack : bool).

Inductive outcome (A : Type) :=
| Returned (a : A)
| Raised (e : string).
Arguments Returned {A} a.
Arguments Raised {A} e.

(** A method on an object of type [S]: its outcome, the object afterwards and
    the events it produced. *)
Definition M (S A : Type) : Type := S -> outcome A * S * list event.

Definition ret {S A} (a : A) : M S A := fun s => (Returned a, s, []).

Definition bind {S A B} (m : M S A) (f : A -> M S B) : M S B :=
  fun s =>
    match m s with
    | (Returned a, s', w) =>
        let '(r, s'', w') := f a s' in (r, s'', w ++ w')
    | (Raised e, s', w) => (Raised e, s', w)
    end.

Notation "x <- m ;; k" := (bind m (fun x => k))
  (at level 100, m at next level, right associativity).
Notation "m ;; k" := (bind m (fun _ => k))
  (at level 100, right associativity).

Definition get {S} : M S S := fun s => (Returned s, s, []).
Definition modify {S} (f : S -> S) : M S unit := fun s => (Returned tt, f s, []).
Definition raise {S A} (e : string) : M S A := fun s => (Raised e, s, []).
Definition emit {S} (ev : event) : M S unit := fun s => (Returned tt, s, [ev]).
Definition print {S} (line : log_line) : M S unit := emit (Printed line).

Definition when {S} (b : bool) (m : M S unit) : M S unit :=
  if b then m else ret tt.

(** [for x in l: body x] *)
Fixpoint for_each {S A} (l : list A) (body : A -> M S unit) : M S unit :=
  match l with
  | [] => ret tt
  | x :: r => body x ;; for_each r body
  end.

(** [try: m except Exception as e: handler e] *)
Definition try_except {S A} (m : M S A) (handler : string -> M S A) : M S A :=
  fun s =>
    match m s with
    | (Raised e, s', w) => let '(r, s'', w') := handler e s' in (r, s'', w ++ w')
    | fine => fine
    end.

(** Run a method of a component held in a field. *)
Definition zoom {S T A} (proj : S -> T) (upd : T -> S -> S) (m : M T A) : M S A :=
  fun s => let '(r, t, w) := m (proj s) in (r, upd t s, w).

(** Call a function of an external collaborator held in a field. *)
Definition call {S T A} (proj : S -> T) (upd : T -> S -> S) (f : T -> A * T) : M S A :=
  fun s => let '(a, t) := f (proj s) in (Returned a, upd t s, []).

Definition outcome_of {S A} (x : outcome A * S * list event) : outcome A := x.1.1.
Definition state_of {S A} (x : outcome A * S * list event) : S := x.1.2.
Definition events_of {S A} (x : outcome A * S * list event) : list event := x.2.

(** ** selector.py: Selector *)

Module Selector.
Import Manifest Narrative.

(** One element of ["selections"] in the reply. *)
Record Selection := {
  sel_filename : string;
  sel_reasoning : option string
}.

(** The dictionary [select] works on and returns.  [error] is [Some] when the
    dictionary has an ["error"] key. *)
Record SelectResult := {
  error : option string;
  raw : option string;
  selections : list Selection;
  narrative_note : option string;
  suggested_direction : option string
}.

(** The variable parts of the prompt text built by [build_prompt]. *)
Record Prompt := {
  p_coherence_level : Q;
  p_coherence_desc : string;
  p_direction : string;
  p_recently_played : list PlayedEntry;
  p_mood_trajectory : list string;
  p_recent_feedback : list string;
  p_available_clips : list SelectorContext;
  p_num_selections : nat
}.

(** What comes back from [client.messages.create] followed by the JSON
    extraction: an exception (API failure, or [json.loads] failing on the text
    matched by the regular expression), a text with no JSON object in it, the
    decoded object, or decoded JSON of another shape.  In the last case the
    validation loop of [select] raises [e] ([AttributeError] on a value that
    is not an object, [TypeError] on selections that cannot be iterated,
    [KeyError] or [TypeError] on an element without a usable ["filename"])
    after it has handled the well-formed selections [checked] that come
    before the offending element. *)
Inductive llm_reply :=
| ReplyRaises (e : string)
| ReplyUnparseable (text : string)
| ReplyJson (result : SelectResult)
| ReplyMisshapen (checked : list Selection) (e : string).

(** [k] positions of a population of size [n], all different: what
    [random.sample] may draw. *)
Definition valid_draw (n k : nat) (idxs : list nat) : Prop :=
  length idxs = k /\ NoDup idxs /\ Forall (fun i => i < n) idxs.

(** The selector's sources of non-determinism: the wall clock
    ([datetime.now().isoformat()]), the random generator (the positions
    [random.sample] draws from a population of size [n] when asked for [k]) and
    the LLM behind the API client. *)
Class Environment (E : Type) := {
  now : E -> string * E;
  sample_indices : nat -> nat -> E -> list nat * E;
  messages_create : Prompt -> E -> llm_reply * E
}.

(** The random generator behaves as [random.sample] does: asked for [k]
    elements of a population of at least [k], it draws [k] different
    positions. *)
Definition sampler_ok (E : Type) `{Environment E} : Prop :=
  forall n k (e : E), k <= n -> valid_draw n k (sample_indices n k e).1.

Definition _coherence_description (level : Q) : string :=
  if negb (Qle_bool (2 # 10) level) then
    "PURE DREAM LOGIC: Connections can be abstract, emotional, symbolic. Visual/thematic rhymes are valid. No need for literal continuity."
  else if negb (Qle_bool (4 # 10) level) then
    "LOOSE ASSOCIATIONS: Prioritize mood and visual flow. Thematic threads can be suggestive. Surreal juxtapositions welcome."
  else if negb (Qle_bool (6 # 10) level) then
    "BALANCED: Mix of associative and narrative logic. Some continuity expected but creative leaps allowed."
  else if negb (Qle_bool (8 # 10) level) then
    "NARRATIVE FORWARD: Prefer clips that build on previous content. Maintain recognizable threads and themes."
  else
    "STRICT NARRATIVE: Strong continuity required. Clips should clearly relate to and advance the established story.".

Definition build_prompt (s : NarrativeState)
    (available_clips : list SelectorContext) (num_selections : nat) : Prompt :=
  let state_ctx := to_context s in
  {| p_coherence_level := cx_coherence_level state_ctx;
     p_coherence_desc := _coherence_description (cx_coherence_level state_ctx);
     p_direction := cx_direction state_ctx;
     p_recently_played := cx_recently_played state_ctx;
     p_mood_trajectory := cx_mood_trajectory state_ctx;
     p_recent_feedback := cx_recent_feedback state_ctx;
     p_available_clips := available_clips;
     p_num_selections := num_selections |}.

(** Equality of two lists, element by element. *)
Definition list_eqb {A} (eqb : A -> A -> bool) : list A -> list A -> bool :=
  fix go l1 l2 :=
    match l1, l2 with
    | [], [] => true
    | x :: r1, y :: r2 => eqb x y && go r1 r2
    | _, _ => false
    end.

(** [Clip.__eq__] as generated for the dataclass, field by field, on the
    fields of the record.  The dataclass compares its other fields too, so
    two clips that differ only there are equal here; clips with different
    file names are different in both. *)
Definition Clip_eqb (a b : Clip) : bool :=
  String.eqb (filename a) (filename b)
  && Qeq_bool (Manifest.duration a) (Manifest.duration b)
  && String.eqb (description a) (description b)
  && list_eqb String.eqb (subjects a) (subjects b)
  && String.eqb (setting a) (setting b)
  && String.eqb (mood a) (mood b)
  && list_eqb String.eqb (dominant_colors a) (dominant_colors b)
  && String.eqb (motion_intensity a) (motion_intensity b)
  && Bool.eqb (has_speech a) (has_speech b)
  && match speech_transcript a, speech_transcript b with
     | Some x, Some y => String.eqb x y
     | None, None => true
     | _, _ => false
     end
  && list_eqb String.eqb (suggested_tags a) (suggested_tags b).

(** The key of [by_motion] a clip is appended under. *)
Definition motion_key (c : Clip) : string :=
  let motion := lower (motion_intensity c) in
  if existsb (String.eqb motion) ["low"; "medium"; "high"]
  then motion else "medium".

(** [by_motion[key]] after the grouping loop. *)
Definition by_motion (key : string) (clips : list Clip) : list Clip :=
  List.filter (fun c => String.eqb (motion_key c) key) clips.

(** The elements of [population] at the drawn positions. *)
Definition pick {A} (population : list A) (idxs : list nat) : list A :=
  omap (fun i => population !! i) idxs.

Section WithEnvironment.
Context {E : Type} `{Environment E}.

(** [random.sample(population, k)] *)
Definition random_sample {A} (population : list A) (k : nat) (e : E)
  : list A * E :=
  let '(idxs, e') := sample_indices (length population) k e in
  (pick population idxs, e').

(** The list [result] of [_smart_sample] before it is projected. *)
Definition _smart_sample_clips (clips : list Clip) (n : nat) (e : E)
  : list Clip * E :=
  let per_group := n / 3 in
  let low := by_motion "low" clips in
  let '(s1, e) := random_sample low (Nat.min per_group (length low)) e in
  let medium := by_motion "medium" clips in
  let '(s2, e) := random_sample medium (Nat.min per_group (length medium)) e in
  let high := by_motion "high" clips in
  let '(s3, e) := random_sample high (Nat.min per_group (length high)) e in
  let result := s1 ++ s2 ++ s3 in
  let remaining := n - length result in
  if (0 <? remaining)%nat then
    let unused :=
      List.filter (fun c => negb (existsb (Clip_eqb c) result)) clips in
    let '(extra, e) :=
      random_sample unused (Nat.min remaining (length unused)) e in
    (result ++ extra, e)
  else (result, e).

Definition _smart_sample (clips : list Clip) (n : nat) (e : E)
  : list SelectorContext * E :=
  let '(result, e') := _smart_sample_clips clips n e in
  (map to_selector_context result, e').

Record Selector := {
  manifest : ManifestLoader;
  env : E;
  state : NarrativeState
}.

Definition set_env (e : E) (s : Selector) : Selector :=
  {| manifest := manifest s; env := e; state := state s |}.

Definition set_state (st : NarrativeState) (s : Selector) : Selector :=
  {| manifest := manifest s; env := env s; state := st |}.

Definition new_selector (m : ManifestLoader) (e : E) : Selector :=
  {| manifest := m; env := e; state := initial_state |}.

(** The dictionaries [select] returns. *)
Definition no_available_clips : SelectResult :=
  {| error := Some "No available clips"; raw := None; selections := [];
     narrative_note := None; suggested_direction := None |}.

Definition failed_to_parse (text : string) : SelectResult :=
  {| error := Some "Failed to parse LLM response"; raw := Some text;
     selections := []; narrative_note := None; suggested_direction := None |}.

Definition with_selections (valid_selections : list Selection)
    (result : SelectResult) : SelectResult :=
  {| error := error result; raw := raw result;
     selections := valid_selections;
     narrative_note := narrative_note result;
     suggested_direction := suggested_direction result |}.

(** The validation loop of [select]. *)
Definition validate (m : ManifestLoader) (sels : list Selection)
  : list Selection * list event :=
  foldl (fun '(valid, w) sel =>
           match get_clip m (sel_filename sel) with
           | Some _ => (valid ++ [sel], w)
           | None => (valid, w ++ [Printed (WarnNonexistentClip (sel_filename sel))])
           end) ([], []) sels.

(** [available] of [select]: the manifest's clips not excluded. *)
Definition available_clips (s : Selector) (exclude_filenames : list string)
  : list Clip :=
  List.filter
    (fun c => negb (existsb (String.eqb (filename c)) exclude_filenames))
    (clips (manifest s)).

(** [select] from the conversion of the available clips up to
    [prompt = self.build_prompt(...)], sampling when there are more than 50. *)
Definition prepare_prompt (available : list Clip) (num_selections : nat)
  : M Selector Prompt :=
  s <- get ;;
  available_context <-
    (if (50 <? length available)%nat
     then call env set_env (_smart_sample available 50)
     else ret (map to_selector_context available)) ;;
  ret (build_prompt (state s) available_context num_selections).

Definition select (num_selections : nat) (exclude_filenames : list string)
  : M Selector SelectResult :=
  s <- get ;;
  match available_clips s exclude_filenames with
  | [] => ret no_available_clips
  | available =>
      prompt <- prepare_prompt available num_selections ;;
      reply <- call env set_env (messages_create prompt) ;;
      match reply with
      | ReplyRaises e => raise e
      | ReplyUnparseable text => ret (failed_to_parse text)
      | ReplyJson result =>
          let '(valid_selections, warnings) :=
            validate (manifest s) (selections result) in
          for_each warnings emit ;;
          ret (with_selections valid_selections result)
      | ReplyMisshapen checked e =>
          let '(_, warnings) := validate (manifest s) checked in
          for_each warnings emit ;;
          raise e
      end
  end.

(** The reply the LLM gives during [select], if [select] gets as far as
    asking. *)
Definition reply_received (num_selections : nat)
    (exclude_filenames : list string) (s : Selector) : option llm_reply :=
  match available_clips s exclude_filenames with
  | [] => None
  | available =>
      match prepare_prompt available num_selections s with
      | (Returned prompt, s', _) => Some (messages_create prompt (env s')).1
      | (Raised _, _, _) => None
      end
  end.

(** [keyword in feedback_lower] *)
Fixpoint contains (keyword s : string) : bool :=
  String.prefix keyword s
  || match s with
     | EmptyString => false
     | String _ r => contains keyword r
     end.

Definition direction_keywords : list (string * string) :=
  [ ("darker", "exploring darker themes");
    ("lighter", "moving toward lighter, brighter content");
    ("faster", "increasing energy and pace");
    ("slower", "slowing down, contemplative");
    ("abstract", "embracing abstraction and surrealism");
    ("narrative", "building toward clearer narrative");
    ("emotional", "focusing on emotional resonance");
    ("violent", "exploring conflict and tension");
    ("peaceful", "seeking calm and serenity");
    ("weird", "leaning into the strange and surreal");
    ("funny", "looking for humor and levity") ].

Definition set_direction_field (d : string) (st : NarrativeState)
  : NarrativeState :=
  {| direction := d;
     coherence_level := coherence_level st;
     recently_played := recently_played st;
     current_queue := current_queue st;
     feedback_history := feedback_history st;
     mood_trajectory := mood_trajectory st |}.

Definition process_feedback (feedback : string) : M Selector unit :=
  t <- call env set_env now ;;
  modify (fun s => set_state (add_feedback feedback t (state s)) s) ;;
  let feedback_lower := lower feedback in
  match List.find (fun kd => contains kd.1 feedback_lower) direction_keywords with
  | Some (_, d) =>
      modify (fun s => set_state (set_direction_field d (state s)) s) ;;
      print (DirectionUpdated d)
  | None => ret tt
  end.

Definition mark_played (name : string) : M Selector unit :=
  s <- get ;;
  match get_clip (manifest s) name with
  | Some clip =>
      t <- call env set_env now ;;
      modify (fun s => set_state (add_played clip t (state s)) s)
  | None => ret tt
  end.

End WithEnvironment.

Arguments Selector E : clear implicits.

End Selector.

(** ** orchestrator.py *)

Module Orchestrator.
Import Manifest Narrative Selector.

Record OrchestratorConfig := {
  min_buffer_seconds : Q;
  target_buffer_seconds : Q;
  clips_per_selection : nat;
  poll_interval : Q;
  use_dummy_playback : bool;
  fullscreen : bool
}.

Definition default_config : OrchestratorConfig :=
  {| min_buffer_seconds := 15; target_buffer_seconds := 30;
     clips_per_selection := 3; poll_interval := 1;
     use_dummy_playback := false; fullscreen := false |}.

(** The methods of [self.playback] the orchestrator calls; both
    [PlaybackController] and [DummyPlaybackController] offer them.  A call
    returns its result and the client afterwards.  The class describes a
    client whose calls return: every call of the dummy client does, while a
    call on the real client can also raise (a subprocess or socket error
    that the client does not catch, an undecodable reply) or wait forever
    in its read loop, studied in [Playback].  What is proved of the
    orchestrator over this class therefore speaks of the runs in which the
    calls on the client return; only [get_queue_duration] has a raising
    outcome of its own, the [TypeError] of its arithmetic. *)
Class PlaybackEngine (P : Type) := {
  start_mpv : bool -> P -> bool * P;
  connect : P -> bool * P;
  add_to_playlist : string -> P -> bool * P;
  play : P -> bool * P;
  get_status : P -> Playback.PlaybackStatus * P;
  get_queue_duration : P -> pyres Q * P
}.

(** [list.remove(x)]: drops the first occurrence. *)
Fixpoint list_remove (x : string) (l : list string) : list string :=
  match l with
  | [] => []
  | y :: r => if String.eqb y x then r else y :: list_remove x r
  end.

(** [x in l] *)
Definition list_in (x : string) (l : list string) : bool :=
  existsb (String.eqb x) l.

(** Truth value of an optional text, as in [if result.get("narrative_note")]. *)
Definition text_truthy (t : option string) : bool :=
  match t with Some s => str_truthy s | None => false end.

Section WithCollaborators.
Context {E : Type} `{Environment E} {P : Type} `{PlaybackEngine P}.

Record Orchestrator := {
  config : OrchestratorConfig;
  selector : Selector E;
  playback : P;
  running : bool;
  queued_filenames : list string;
  _feedback_queue : list string;
  clips_played : Z;
  selections_made : Z
}.

Definition set_selector (x : Selector E) (o : Orchestrator) : Orchestrator :=
  {| config := config o; selector := x; playback := playback o;
     running := running o; queued_filenames := queued_filenames o;
     _feedback_queue := _feedback_queue o; clips_played := clips_played o;
     selections_made := selections_made o |}.

Definition set_playback (x : P) (o : Orchestrator) : Orchestrator :=
  {| config := config o; selector := selector o; playback := x;
     running := running o; queued_filenames := queued_filenames o;
     _feedback_queue := _feedback_queue o; clips_played := clips_played o;
     selections_made := selections_made o |}.

Definition set_running (x : bool) (o : Orchestrator) : Orchestrator :=
  {| config := config o; selector := selector o; playback := playback o;
     running := x; queued_filenames := queued_filenames o;
     _feedback_queue := _feedback_queue o; clips_played := clips_played o;
     selections_made := selections_made o |}.

Definition set_queued_filenames (x : list string) (o : Orchestrator)
  : Orchestrator :=
  {| config := config o; selector := selector o; playback := playback o;
     running := running o; queued_filenames := x;
     _feedback_queue := _feedback_queue o; clips_played := clips_played o;
     selections_made := selections_made o |}.

Definition set_feedback_queue (x : list string) (o : Orchestrator)
  : Orchestrator :=
  {| config := config o; selector := selector o; playback := playback o;
     running := running o; queued_filenames := queued_filenames o;
     _feedback_queue := x; clips_played := clips_played o;
     selections_made := selections_made o |}.

Definition set_clips_played (x : Z) (o : Orchestrator) : Orchestrator :=
  {| config := config o; selector := selector o; playback := playback o;
     running := running o; queued_filenames := queued_filenames o;
     _feedback_queue := _feedback_queue o; clips_played := x;
     selections_made := selections_made o |}.

Definition set_selections_made (x : Z) (o : Orchestrator) : Orchestrator :=
  {| config := config o; selector := selector o; playback := playback o;
     running := running o; queued_filenames := queued_filenames o;
     _feedback_queue := _feedback_queue o; clips_played := clips_played o;
     selections_made := x |}.

(** [Orchestrator.__init__] *)
Definition new_orchestrator (cfg : OrchestratorConfig) (m : ManifestLoader)
    (e : E) (p : P) : Orchestrator :=
  {| config := cfg; selector := new_selector m e; playback := p;
     running := false; queued_filenames := []; _feedback_queue := [];
     clips_played := 0; selections_made := 0 |}.

(** One pass of the [for sel in selections] loop of [_fill_buffer]. *)
Definition queue_selection (sel : Selection) : M Orchestrator unit :=
  let name := sel_filename sel in
  ok <- call playback set_playback (add_to_playlist name) ;;
  emit (Enqueue name ok) ;;
  if ok then
    modify (fun o => set_queued_filenames (queued_filenames o ++ [name]) o) ;;
    print (Queued name) ;;
    print (Reason (default "N/A" (sel_reasoning sel)))
  else
    print (FailedToQueue name).

(** The exclusion list of [_fill_buffer]: recently played, then queued. *)
Definition exclusion (o : Orchestrator) : list string :=
  map pe_filename (recently_played (state (selector o)))
  ++ queued_filenames o.

Definition _fill_buffer : M Orchestrator unit :=
  o <- get ;;
  let exclude := exclusion o in
  result <- zoom selector set_selector
              (select (clips_per_selection (config o)) exclude) ;;
  match error result with
  | Some e => print (SelectionError e)
  | None =>
      match selections result with
      | [] => print NoClipsSelected
      | sels =>
          for_each sels queue_selection ;;
          modify (fun o => set_selections_made (selections_made o + 1) o) ;;
          when (text_truthy (narrative_note result))
               (print (NarrativeNote (default "" (narrative_note result)))) ;;
          when (text_truthy (suggested_direction result))
               (print (SuggestedDirection
                         (default "" (suggested_direction result))))
      end
  end.

Definition _mark_current_as_played (name : string) : M Orchestrator unit :=
  o <- get ;;
  if list_in name (queued_filenames o) then
    modify (fun o => set_queued_filenames (list_remove name (queued_filenames o)) o) ;;
    zoom selector set_selector (mark_played name) ;;
    modify (fun o => set_clips_played (clips_played o + 1) o)
  else ret tt.

(** Lines 144-147 of [_buffer_loop], "Update played clips tracking".  A
    [filename] that is not a string is never [in] the list of queued
    names. *)
Definition update_played_tracking : M Orchestrator unit :=
  status <- call playback set_playback get_status ;;
  if truthy (Playback.filename status) then
    match Playback.filename status with
    | PStr name => _mark_current_as_played name
    | _ => ret tt
    end
  else ret tt.

(** The [try] block of [_buffer_loop] up to the played-clips tracking: the
    buffer check, with a fill cycle when the buffer is low, and the pending
    feedback. *)
Definition check_buffer_and_feedback : M Orchestrator unit :=
  buffer_time <- call playback set_playback get_queue_duration ;;
  match buffer_time with
  | TypeError => raise "TypeError"
  | Value buffer_time =>
      o <- get ;;
      when (negb (Qle_bool (min_buffer_seconds (config o)) buffer_time))
           (print BufferLow ;; _fill_buffer) ;;
      o <- get ;;
      let feedback_to_process := _feedback_queue o in
      modify (set_feedback_queue []) ;;
      for_each feedback_to_process
        (fun feedback =>
           zoom selector set_selector (process_feedback feedback))
  end.

(** The body of the [while self.running] loop of [_buffer_loop], one poll
    cycle, without the final [sleep]. *)
Definition buffer_loop_body : M Orchestrator unit :=
  try_except
    (check_buffer_and_feedback ;; update_played_tracking)
    (fun e => print (BufferLoopError e)).

(** [start]; the background thread it launches is not part of the model. *)
Definition start : M Orchestrator bool :=
  print StartingOrchestrator ;;
  o <- get ;;
  started <- call playback set_playback (start_mpv (fullscreen (config o))) ;;
  if negb started then
    print FailedToStartMpv ;; ret false
  else
    connected <-
      (if negb (use_dummy_playback (config o))
       then call playback set_playback connect
       else ret true) ;;
    if negb connected then
      print FailedToConnect ;; ret false
    else
      print MakingInitialSelection ;;
      _fill_buffer ;;
      call playback set_playback play ;;
      modify (set_running true) ;;
      print OrchestratorStarted ;;
      ret true.

(** *** Observations used to state the properties *)

(** The LLM's reply during a fill cycle started in [o], if it is asked. *)
Definition fill_reply (o : Orchestrator) : option llm_reply :=
  reply_received (clips_per_selection (config o)) (exclusion o) (selector o).

(** The names the reply of that fill cycle proposes, as listed. *)
Definition proposed_names (o : Orchestrator) : list string :=
  match fill_reply o with
  | Some (ReplyJson r) => map sel_filename (selections r)
  | _ => []
  end.

(** Those of them that the manifest knows. *)
Definition valid_names (o : Orchestrator) : list string :=
  List.filter (known (manifest (selector o))) (proposed_names o).




(** The events of one pass of the enqueue loop. *)
Definition queue_events (sel : Selection) (ok : bool) : list event :=
  Enqueue (sel_filename sel) ok
  :: (if ok then [Printed (Queued (sel_filename sel));
                  Printed (Reason (default "N/A" (sel_reasoning sel)))]
      else [Printed (FailedToQueue (sel_filename sel))]).

(** What changes the queue: a fill cycle, or the played-clips tracking of
    a poll. *)
Inductive activity := FillCycle | TrackPlayed.

Definition perform (a : activity) : M Orchestrator unit :=
  match a with
  | FillCycle => _fill_buffer
  | TrackPlayed => update_played_tracking
  end.

Fixpoint run_activities (l : list activity) (o : Orchestrator) : Orchestrator :=
  match l with
  | [] => o
  | a :: rest => run_activities rest (state_of (perform a o))
  end.

Definition is_enqueue (ev : event) : bool :=
  match ev with Enqueue _ _ => true | _ => false end.

Definition is_dropped_warning (ev : event) : bool :=
  match ev with Printed (WarnNonexistentClip _) => true | _ => false end.

End WithCollaborators.

Arguments Orchestrator E P : clear implicits.

End Orchestrator.

(** ** Concrete collaborators *)

(** [DummyPlaybackController] as the orchestrator's playback client. *)
#[export] Instance dummy_engine : Orchestrator.PlaybackEngine Playback.Dummy := {|
  Orchestrator.start_mpv := fun _ d => (true, d);
  Orchestrator.connect := fun d => (true, d);
  Orchestrator.add_to_playlist := fun name d => Playback.dummy_add_to_playlist name false d;
  Orchestrator.play := Playback.dummy_play;
  Orchestrator.get_status := fun d => (Playback.dummy_get_status d, d);
  Orchestrator.get_queue_duration := fun d => (Value (Playback.dummy_get_queue_duration d), d)
|}.

(** A playback client whose engine cannot be started. *)
Inductive NoEngine := no_engine.

#[export] Instance no_engine_engine : Orchestrator.PlaybackEngine NoEngine := {|
  Orchestrator.start_mpv := fun _ p => (false, p);
  Orchestrator.connect := fun p => (false, p);
  Orchestrator.add_to_playlist := fun _ p => (false, p);
  Orchestrator.play := fun p => (false, p);
  Orchestrator.get_status := fun p =>
    (Playback.status_of PNone PNone PNone PNone PNone PNone PNone, p);
  Orchestrator.get_queue_duration := fun p => (Value 0%Q, p)
|}.

(** An environment that follows a script: the listed replies are given to
    the successive [messages_create] calls (an exhausted script raises), the
    clock always reads the same instant and [random.sample] draws the first
    [k] positions. *)
Record Script := { replies : list Selector.llm_reply }.

Definition script_messages_create (p : Selector.Prompt) (s : Script)
  : Selector.llm_reply * Script :=
  match replies s with
  | [] => (Selector.ReplyRaises "APIConnectionError", s)
  | r :: rest => (r, {| replies := rest |})
  end.

#[export] Instance script_env : Selector.Environment Script := {|
  Selector.now := fun s => ("2024-01-01T00:00:00", s);
  Selector.sample_indices := fun n k s => (seq 0 k, s);
  Selector.messages_create := script_messages_create
|}.

(** ** Example data *)

Definition example_clip (name motion : string) : Manifest.Clip :=
  {| Manifest.filename := name;
     Manifest.duration := 8;
     Manifest.description := "a clip";
     Manifest.subjects := [];
     Manifest.setting := "studio";
     Manifest.mood := "calm";
     Manifest.dominant_colors := [];
     Manifest.motion_intensity := motion;
     Manifest.has_speech := false;
     Manifest.speech_transcript := None;
     Manifest.suggested_tags := [] |}.

Definition clip_a := example_clip "a.mp4" "low".
Definition clip_b := example_clip "b.mp4" "high".
Definition clip_c := example_clip "c.mp4" "medium".

Definition example_manifest : Manifest.ManifestLoader :=
  Manifest.load [clip_a; clip_b; clip_c].

Definition pick_clip (name : string) : Selector.Selection :=
  {| Selector.sel_filename := name; Selector.sel_reasoning := Some "fits" |}.

Definition reply_with (names : list string) : Selector.llm_reply :=
  Selector.ReplyJson
    {| Selector.error := None; Selector.raw := None;
       Selector.selections := map pick_clip names;
       Selector.narrative_note := None;
       Selector.suggested_direction := None |}.

Definition dummy_config : Orchestrator.OrchestratorConfig :=
  {| Orchestrator.min_buffer_seconds := 15;
     Orchestrator.target_buffer_seconds := 30;
     Orchestrator.clips_per_selection := 3;
     Orchestrator.poll_interval := 1;
     Orchestrator.use_dummy_playback := true;
     Orchestrator.fullscreen := false |}.

(** A dummy-playback session over the example manifest whose LLM gives the
    listed replies. *)
Definition example_session (script : list Selector.llm_reply)
  : Orchestrator.Orchestrator Script Playback.Dummy :=
  Orchestrator.new_orchestrator dummy_config example_manifest
    {| replies := script |} (Playback.fresh_dummy 0).

(** A pool of 100 clips with distinct names: 40 of low motion, 30 of medium
    motion (10 of them with an intensity that is not recognised) and 30 of
    high motion. *)
Definition pool_clip (i : nat) : Manifest.Clip :=
  example_clip (String (ascii_of_nat (33 + i)) ".mp4")
    (if (i <? 40)%nat then "Low"
     else if (i <? 60)%nat then "medium"
     else if (i <? 70)%nat then "frantic"
     else "HIGH").

Definition pool_100 : list Manifest.Clip := map pool_clip (seq 0 100).

(** ** manifest_loader.py: queries *)

Module ManifestQueries.
Import Manifest.

(** [x in s] for a set of strings. *)
Definition str_in (x : string) (l : list string) : bool :=
  existsb (String.eqb x) l.

Definition filter_by_motion (m : ManifestLoader) (intensity : string)
  : list Clip :=
  List.filter
    (fun c => String.eqb (lower (motion_intensity c)) (lower intensity))
    (clips m).

Definition filter_has_speech (m : ManifestLoader) (has : bool) : list Clip :=
  List.filter (fun c => Bool.eqb (has_speech c) has) (clips m).

(** [clip_matches] of [filter_by_tags]: [tags_lower.issubset(clip_tags)] when
    all tags must match, [bool(tags_lower & clip_tags)] otherwise. *)
Definition clip_matches (tags_lower : list string) (match_all : bool)
    (clip : Clip) : bool :=
  let clip_tags := map lower (suggested_tags clip) in
  if match_all
  then forallb (fun t => str_in t clip_tags) tags_lower
  else existsb (fun t => str_in t clip_tags) tags_lower.

Definition filter_by_tags (m : ManifestLoader) (tags : list string)
    (match_all : bool) : list Clip :=
  let tags_lower := map lower tags in
  List.filter (clip_matches tags_lower match_all) (clips m).

Definition filter_by_mood (m : ManifestLoader) (mood_keywords : list string)
  : list Clip :=
  let mood_keywords_lower := map lower mood_keywords in
  List.filter
    (fun c => existsb (fun kw => Selector.contains kw (lower (mood c)))
                      mood_keywords_lower)
    (clips m).

Definition get_selector_batch (cs : list Clip) (max_clips : nat)
  : list SelectorContext :=
  map to_selector_context (take max_clips cs).

(** A [dict[str, int]] of counts, in insertion order. *)
Definition counts := list (string * Z).

(** [d.get(key, 0)] *)
Fixpoint count_get (d : counts) (key : string) : Z :=
  match d with
  | [] => 0
  | (k, n) :: r => if String.eqb k key then n else count_get r key
  end.

(** [d[key] = n]: an existing key keeps its place, a new one goes last. *)
Fixpoint count_set (d : counts) (key : string) (n : Z) : counts :=
  match d with
  | [] => [(key, n)]
  | (k, v) :: r =>
      if String.eqb k key then (k, n) :: r else (k, v) :: count_set r key n
  end.

(** The counting loop: [d[key] = d.get(key, 0) + 1] for each key. *)
Definition tally (keys : list string) : counts :=
  foldl (fun d key => count_set d key (count_get d key + 1)) [] keys.

(** [sorted(items, key=lambda x: -x[1])]: a stable sort, larger counts
    first. *)
Fixpoint insert_by_count (x : string * Z) (l : counts) : counts :=
  match l with
  | [] => [x]
  | y :: r => if (x.2 <? y.2)%Z then y :: insert_by_count x r else x :: y :: r
  end.

Definition sort_by_count (d : counts) : counts :=
  foldr insert_by_count [] d.

(** Order of the result of the sort: the earlier entry has the count that
    is at least as large. *)
Definition count_ge (a b : string * Z) : Prop := (b.2 <= a.2)%Z.

(** How often [key] occurs in a list of keys. *)
Definition occurrences (key : string) (keys : list string) : Z :=
  Z.of_nat (length (List.filter (String.eqb key) keys)).

Definition get_all_moods (m : ManifestLoader) : counts :=
  sort_by_count (tally (map mood (clips m))).

Definition get_all_tags (m : ManifestLoader) : counts :=
  sort_by_count (tally (concat (map suggested_tags (clips m)))).

End ManifestQueries.

(** ** selector.py: controls *)

Module SelectorControls.
Import Manifest Narrative Selector.

(** Lines printed by the control methods.  [set_coherence] prints the
    stored level formatted with one decimal ([.1f]); [CoherenceSetTo]
    carries the level that is formatted, not the digits printed. *)
Inductive control_line :=
| CoherenceSetTo (level : Q)
| DirectionSetTo (d : string)
| FeedbackQueued (feedback : string).

(** [min(a, b)] and [max(a, b)] of two numbers: the first argument is kept
    unless the second is strictly smaller (larger). *)
Definition py_min (a b : Q) : Q := if negb (Qle_bool a b) then b else a.
Definition py_max (a b : Q) : Q := if negb (Qle_bool b a) then b else a.

Definition set_coherence_level (level : Q) (st : NarrativeState)
  : NarrativeState :=
  {| direction := direction st;
     coherence_level := level;
     recently_played := recently_played st;
     current_queue := current_queue st;
     feedback_history := feedback_history st;
     mood_trajectory := mood_trajectory st |}.

Section WithEnvironment.
Context {E : Type} `{Environment E}.

(** [Selector.set_coherence]: the selector afterwards and the line printed. *)
Definition set_coherence (level : Q) (s : Selector E)
  : Selector E * list control_line :=
  let s' := set_state (set_coherence_level (py_max 0 (py_min 1 level)) (state s)) s in
  (s', [CoherenceSetTo (coherence_level (state s'))]).

(** [Selector.set_direction] *)
Definition set_direction (d : string) (s : Selector E)
  : Selector E * list control_line :=
  (set_state (set_direction_field d (state s)) s, [DirectionSetTo d]).

(** The prompt [select] hands to the LLM, if it gets as far as asking. *)
Definition prompt_sent (num_selections : nat)
    (exclude_filenames : list string) (s : Selector E) : option Prompt :=
  match available_clips s exclude_filenames with
  | [] => None
  | available =>
      match prepare_prompt available num_selections s with
      | (Returned prompt, _, _) => Some prompt
      | (Raised _, _, _) => None
      end
  end.

End WithEnvironment.

End SelectorControls.

(** ** orchestrator.py: controls *)

Module OrchestratorControls.
Import Manifest Narrative Selector Orchestrator SelectorControls.

Section WithCollaborators.
Context {E : Type} `{Environment E} {P : Type} `{PlaybackEngine P}.

(** [Orchestrator.add_feedback]: the orchestrator afterwards and the line
    printed. *)
Definition add_feedback (feedback : string) (o : Orchestrator E P)
  : Orchestrator E P * list control_line :=
  (set_feedback_queue (_feedback_queue o ++ [feedback]) o,
   [FeedbackQueued feedback]).

Definition add_feedbacks (feedbacks : list string) (o : Orchestrator E P)
  : Orchestrator E P :=
  foldl (fun o feedback => (add_feedback feedback o).1) o feedbacks.

(** [Orchestrator.set_coherence] *)
Definition set_coherence (level : Q) (o : Orchestrator E P)
  : Orchestrator E P * list control_line :=
  let '(s, w) := SelectorControls.set_coherence level (selector o) in
  (set_selector s o, w).

(** [Orchestrator.set_direction] *)
Definition set_direction (d : string) (o : Orchestrator E P)
  : Orchestrator E P * list control_line :=
  let '(s, w) := SelectorControls.set_direction d (selector o) in
  (set_selector s o, w).

(** The texts of the feedback history, oldest first. *)
Definition feedback_texts (o : Orchestrator E P) : list string :=
  map fe_text (feedback_history (state (selector o))).

(** The two optional lines a fill cycle prints after queueing. *)
Definition fill_notes (r : SelectResult) : list event :=
  (if text_truthy (narrative_note r)
   then [Printed (NarrativeNote (default "" (narrative_note r)))] else [])
  ++ (if text_truthy (suggested_direction r)
      then [Printed (SuggestedDirection (default "" (suggested_direction r)))]
      else []).

(** The name of an [add_to_playlist] call in the trace. *)
Definition enqueue_name (ev : event) : string :=
  match ev with Enqueue name _ => name | _ => "" end.

(** The names a run offered to the playback client, in order. *)
Definition enqueue_attempts (evs : list event) : list string :=
  map enqueue_name (List.filter is_enqueue evs).

(** The prompt the next fill cycle sends, if it gets as far as asking. *)
Definition fill_prompt (o : Orchestrator E P) : option Prompt :=
  prompt_sent (clips_per_selection (config o)) (exclusion o) (selector o).

Definition count_fill_cycles (l : list activity) : nat :=
  length (List.filter (fun a => match a with FillCycle => true | _ => false end) l).

End WithCollaborators.

End OrchestratorControls.

(** ** playback.py: transport controls and the dummy's operations *)

Module PlaybackControls.
Import Playback.

Section Controller.
Variable json_loads : list byte -> option (list (string * pyval)).
Variable peer : nat -> list pyval -> exchange.
Variable fuel : nat.

(** The body shared by [clear_playlist], [play], [pause], [next] and
    [previous]: send the command and [return result is not None]. *)
Definition acknowledged (command : list pyval) : IPC bool :=
  ipc_bind (_send_command json_loads peer fuel command) (fun result =>
  ipc_ret match result with Some _ => true | None => false end).

Definition play : IPC bool :=
  acknowledged [PStr "set_property"; PStr "pause"; PBool false].
Definition pause : IPC bool :=
  acknowledged [PStr "set_property"; PStr "pause"; PBool true].

(** The loop of [add_multiple], with [added] so far. *)
Fixpoint add_multiple_from (filenames : list string) (added : nat) : IPC nat :=
  match filenames with
  | [] => ipc_ret added
  | fn :: rest =>
      ipc_bind (add_to_playlist json_loads peer fuel fn false) (fun ok =>
      add_multiple_from rest (if ok then S added else added))
  end.

Definition add_multiple (filenames : list string) : IPC nat :=
  add_multiple_from filenames 0.

(** During its [k]-th command the peer is reachable and answers the query
    for property [name] with one line that decodes to a success envelope
    carrying [v]. *)
Definition answers (k : nat) (name : string) (v : pyval) : Prop :=
  let x := peer k [PStr "get_property"; PStr name] in
  connect_ok x = true
  /\ send_ok x = true
  /\ exists response d,
       read_response fuel (recv x) 0 [] = Line response
       /\ json_loads response = Some d
       /\ truthy (PDict d) = true
       /\ is_success (dict_get d "error") = true
       /\ dict_get d "data" = v.

End Controller.

(** The properties [get_status] and [get_playlist] ask for. *)
Definition engine_properties : list string :=
  ["idle-active"; "pause"; "filename"; "time-pos"; "duration";
   "playlist-count"; "playlist-pos"; "playlist"].

(** The status assembled from the engine's property values. *)
Definition status_from (values : string -> pyval) : PlaybackStatus :=
  status_of (values "idle-active") (values "pause") (values "filename")
            (values "time-pos") (values "duration") (values "playlist-count")
            (values "playlist-pos").

(** A connected controller that has issued [n] more commands. *)
Definition after (n : nat) (c : controller) : controller :=
  {| _socket := true; clips_base_path := clips_base_path c;
     issued := n + issued c |}.

(** *** DummyPlaybackController: the remaining operations *)

Definition dummy_clear_playlist (d : Dummy) : bool * Dummy :=
  (true, {| d_playlist := []; d_current_pos := 0; d_playing := d_playing d;
            d_start_time := d_start_time d;
            d_clip_duration := d_clip_duration d; d_now := d_now d |}).

Definition dummy_pause (d : Dummy) : bool * Dummy :=
  (true, {| d_playlist := d_playlist d; d_current_pos := d_current_pos d;
            d_playing := false; d_start_time := d_start_time d;
            d_clip_duration := d_clip_duration d; d_now := d_now d |}).

(** [next]: the comparison [current_pos < len(playlist) - 1] is on
    integers. *)
Definition dummy_next (d : Dummy) : bool * Dummy :=
  if (Z.of_nat (d_current_pos d) <? Z.of_nat (length (d_playlist d)) - 1)%Z
  then (true, {| d_playlist := d_playlist d;
                 d_current_pos := d_current_pos d + 1;
                 d_playing := d_playing d; d_start_time := d_now d;
                 d_clip_duration := d_clip_duration d; d_now := d_now d |})
  else (true, d).

Definition dummy_add_multiple (filenames : list string) (d : Dummy)
  : nat * Dummy :=
  (length filenames,
   foldl (fun d fn => (dummy_add_to_playlist fn false d).2) d filenames).

Definition dummy_get_playlist (d : Dummy) : pyval :=
  PList (map (fun f => PDict [("filename", PStr f)]) (d_playlist d)).

(** The clock moves on. *)
Definition dummy_tick (now : Q) (d : Dummy) : Dummy :=
  {| d_playlist := d_playlist d; d_current_pos := d_current_pos d;
     d_playing := d_playing d; d_start_time := d_start_time d;
     d_clip_duration := d_clip_duration d; d_now := now |}.

(** A call on the dummy, or the passing of time. *)
Inductive dummy_call :=
| AddToPlaylist (filename : string) (play_now : bool)
| AddMultiple (filenames : list string)
| ClearPlaylist
| Play
| Pause
| Next
| Tick (now : Q).

Definition dummy_do (call : dummy_call) (d : Dummy) : Dummy :=
  match call with
  | AddToPlaylist filename play_now =>
      (dummy_add_to_playlist filename play_now d).2
  | AddMultiple filenames => (dummy_add_multiple filenames d).2
  | ClearPlaylist => (dummy_clear_playlist d).2
  | Play => (dummy_play d).2
  | Pause => (dummy_pause d).2
  | Next => (dummy_next d).2
  | Tick now => dummy_tick now d
  end.

Definition dummy_run (calls : list dummy_call) (d : Dummy) : Dummy :=
  foldl (fun d call => dummy_do call d) d calls.

(** [current_pos] is 0 on an empty playlist and an index of the playlist
    otherwise. *)
Definition position_in_playlist (d : Dummy) : Prop :=
  d_current_pos d <= length (d_playlist d) - 1.

End PlaybackControls.

(** ** Example engine *)

(** The property values of an engine that plays the first of three
    playlist entries, 3 seconds into its 8. *)
Definition example_values (name : string) : pyval :=
  if String.eqb name "filename" then PStr "a.mp4"
  else if String.eqb name "time-pos" then PFloat 3
  else if String.eqb name "duration" then PFloat 8
  else if String.eqb name "playlist-count" then PInt 3
  else if String.eqb name "playlist-pos" then PInt 0
  else if String.eqb name "playlist"
       then PList [PDict [("filename", PStr "a.mp4")];
                   PDict [("filename", PStr "b.mp4")];
                   PDict [("filename", PStr "c.mp4")]]
  else PBool false.

(** A peer that answers a property query in two reads: the name of the
    property, then the end of the line. *)
Definition example_peer : nat -> list pyval -> Playback.exchange :=
  fun _ command =>
    {| Playback.connect_ok := true;
       Playback.send_ok := true;
       Playback.recv := fun i =>
         match i with
         | 0 => Playback.Chunk
                  (list_byte_of_string
                     (match command with
                      | [_; PStr name] => name
                      | _ => ""
                      end))
         | _ => Playback.Chunk [x0a]
         end |}.

(** The decoder that goes with it: the line names the property, and the
    reply is the success envelope with that property's value. *)
Definition example_loads (response : list byte)
  : option (list (string * pyval)) :=
  let name :=
    string_of_list_byte
      (List.filter (fun b => negb (Byte.eqb b x0a)) response) in
  Some [("data", example_values name); ("error", PStr "success")].

(** ** A session on the dummy playback controller *)

Module DummySession.
Import Manifest Narrative Selector Orchestrator Playback PlaybackControls.

Section WithEnvironment.
Context {E : Type} `{Environment E}.

(** The clock of the dummy reads [now]. *)
Definition set_clock (now : Q) (o : Orchestrator E Dummy) : Orchestrator E Dummy :=
  set_playback (dummy_tick now (playback o)) o.

(** Successive poll cycles of [_buffer_loop], the clock reading [now] during
    each: the orchestrator afterwards and everything printed or enqueued. *)
Fixpoint polls (clock : list Q) (o : Orchestrator E Dummy)
  : Orchestrator E Dummy * list event :=
  match clock with
  | [] => (o, [])
  | now :: rest =>
      let run := buffer_loop_body (set_clock now o) in
      let '(o', evs) := polls rest (state_of run) in
      (o', events_of run ++ evs)
  end.

(** The assumed duration of the playlist entries after the current one. *)
Definition later_seconds (d : Dummy) : Q :=
  ((inject_Z (Z.of_nat (length (d_playlist d)))
    - inject_Z (Z.of_nat (d_current_pos d)) - 1) * d_clip_duration d)%Q.

Definition is_buffer_low (ev : event) : bool :=
  match ev with Printed BufferLow => true | _ => false end.

(** An event that is neither an [add_to_playlist] call nor the report of a
    low buffer. *)
Definition quiet (ev : event) : bool :=
  negb (is_enqueue ev) && negb (is_buffer_low ev).

End WithEnvironment.

End DummySession.

(** * Properties *)

(** ** Python slices *)

Section LastN.
Context {A : Type}.
Implicit Types (l : list A) (n : nat).

Lemma last_n_length n l : length (last_n n l) = Nat.min n (length l).
Proof. unfold last_n. rewrite length_drop. lia. Qed.

Lemma last_n_all n l : length l <= n -> last_n n l = l.
Proof.
  intros Hle. unfold last_n.
  replace (length l - n) with 0 by lia. reflexivity.
Qed.

(** Trimming before an append is invisible after the next trim. *)
Lemma last_n_snoc n l x :
  0 < n -> last_n n (last_n n l ++ [x]) = last_n n (l ++ [x]).
Proof.
  intros Hn.
  destruct (decide (length l <= n)) as [Hle|Hgt].
  - by rewrite (last_n_all n l).
  - unfold last_n. rewrite !length_app, length_drop. simpl.
    rewrite !drop_app_le by (rewrite ?length_drop; lia).
    rewrite drop_drop. f_equal. f_equal. lia.
Qed.

Lemma last_n_last n l x : 0 < n -> last (last_n n (l ++ [x])) = Some x.
Proof.
  intros Hn. unfold last_n. rewrite length_app. simpl.
  rewrite drop_app_le by lia. apply last_snoc.
Qed.
End LastN.

(** ** Narrative state store *)

Module NarrativeFacts.
Import Manifest Narrative.

Lemma run_calls_snoc cs c s :
  run_calls (cs ++ [c]) s = run_call (run_calls cs s) c.
Proof. unfold run_calls. by rewrite foldl_app. Qed.

Lemma played_of_snoc cs c :
  played_of (cs ++ [c]) =
  played_of cs ++ match c with
                  | AddPlayed clip now => [played_entry clip now]
                  | AddFeedback _ _ => []
                  end.
Proof. unfold played_of. rewrite omap_app. by destruct c. Qed.

Lemma moods_of_snoc cs c :
  moods_of (cs ++ [c]) =
  moods_of cs ++ match c with
                 | AddPlayed clip _ => [mood clip]
                 | AddFeedback _ _ => []
                 end.
Proof. unfold moods_of. rewrite omap_app. by destruct c. Qed.

Lemma feedback_of_snoc cs c :
  feedback_of (cs ++ [c]) =
  feedback_of cs ++ match c with
                    | AddPlayed _ _ => []
                    | AddFeedback fb now => [feedback_entry fb now]
                    end.
Proof. unfold feedback_of. rewrite omap_app. by destruct c. Qed.

(** The three sequences are the trimmed logs of what was appended. *)
Lemma run_calls_logs cs :
  let s := run_calls cs initial_state in
  recently_played s = last_n 10 (played_of cs)
  /\ mood_trajectory s = last_n 15 (moods_of cs)
  /\ feedback_history s = last_n 10 (feedback_of cs).
Proof.
  induction cs as [|c cs IH] using rev_ind; [done|].
  cbn zeta in *. destruct IH as (IH1 & IH2 & IH3).
  rewrite run_calls_snoc, played_of_snoc, moods_of_snoc, feedback_of_snoc.
  destruct c as [clip now|fb now]; simpl; rewrite ?app_nil_r.
  - rewrite IH1, IH2, IH3, !last_n_snoc by lia. done.
  - rewrite IH1, IH2, IH3, !last_n_snoc by lia. done.
Qed.

(** C6.  After any sequence of [add_played] and [add_feedback] calls on a
    fresh state, [recently_played] holds 10 of the entries recorded by
    [add_played], or all of them when fewer were recorded, and they are the
    end of the recorded sequence, in call order; likewise [mood_trajectory]
    with 15 moods and [feedback_history] with 10 feedback entries.  Hence
    none exceeds its capacity (10, 15, 10), the oldest entries are the ones
    dropped and nothing is reordered. *)
Theorem bounded_sequences_hold_most_recent (cs : list store_call) :
  let s := run_calls cs initial_state in
  (length (recently_played s) = Nat.min 10 (length (played_of cs))
   /\ length (mood_trajectory s) = Nat.min 15 (length (moods_of cs))
   /\ length (feedback_history s) = Nat.min 10 (length (feedback_of cs)))
  /\ (length (recently_played s) <= 10
      /\ length (mood_trajectory s) <= 15
      /\ length (feedback_history s) <= 10)
  /\ (recently_played s `suffix_of` played_of cs
      /\ mood_trajectory s `suffix_of` moods_of cs
      /\ feedback_history s `suffix_of` feedback_of cs).
Proof.
  intros s. destruct (run_calls_logs cs) as (H1 & H2 & H3). fold s in H1, H2, H3.
  rewrite H1, H2, H3, !last_n_length. split_and!; try done; try lia;
    unfold last_n; apply suffix_drop.
Qed.

End NarrativeFacts.

(** ** Playback client *)

Module PlaybackFacts.
Import Playback.

(** *** The read loop of [_send_command] *)

(** As long as every [recv] returns data without a newline -- empty data
    after the peer has closed the connection, or bytes that keep trickling
    in -- the loop does not exit, however many reads are followed. *)
Lemma read_response_no_newline fuel rcv i response :
  (forall j, exists chunk, rcv j = Chunk chunk /\ has_newline chunk = false) ->
  has_newline response = false ->
  read_response fuel rcv i response = StillReading.
Proof.
  intros Hchunks. revert i response.
  induction fuel as [|fuel IH]; intros i response Hresp; [done|].
  simpl. destruct (Hchunks i) as (chunk & -> & Hnl).
  assert (Hnone : has_newline (response ++ chunk) = false).
  { unfold has_newline in *. by rewrite existsb_app, Hresp, Hnl. }
  rewrite Hnone. by apply IH.
Qed.

Lemma read_response_closed fuel i :
  read_response fuel (fun _ => Chunk []) i [] = StillReading.
Proof. apply read_response_no_newline; [|done]. intros j. by exists []. Qed.

(** Chunks without a newline followed by a timeout (or any socket error):
    the loop ends with the exception. *)
Lemma read_response_timeout k fuel rcv i response :
  (forall j, j < k -> exists chunk, rcv (i + j) = Chunk chunk
                                    /\ has_newline chunk = false) ->
  has_newline response = false ->
  rcv (i + k) = SocketError ->
  k < fuel ->
  read_response fuel rcv i response = ReadRaised.
Proof.
  revert fuel i response.
  induction k as [|k IH]; intros fuel i response Hchunks Hresp Herr Hfuel.
  - destruct fuel as [|fuel]; [lia|]. simpl.
    by rewrite Nat.add_0_r in Herr; rewrite Herr.
  - destruct fuel as [|fuel]; [lia|]. simpl.
    destruct (Hchunks 0) as (chunk & Hc & Hnl); [lia|].
    rewrite Nat.add_0_r in Hc. rewrite Hc.
    assert (Hnone : has_newline (response ++ chunk) = false).
    { unfold has_newline in *. by rewrite existsb_app, Hresp, Hnl. }
    rewrite Hnone. apply IH; [|done| |lia].
    + intros j Hj. destruct (Hchunks (S j)) as (c & Hcj & Hnlj); [lia|].
      exists c. split; [|done]. rewrite <- Hcj. f_equal. lia.
    + rewrite <- Herr. f_equal. lia.
Qed.

(** When the exchange goes through, the peer sends [k] chunks without a
    newline and the next read times out, [_send_command] returns "no
    response" and drops the socket. *)
Lemma send_command_timeout json_loads peer fuel command c k :
  let x := peer (issued c) command in
  (_socket c = true \/ connect_ok x = true) ->
  send_ok x = true ->
  (forall j, j < k -> exists chunk, recv x j = Chunk chunk
                                    /\ has_newline chunk = false) ->
  recv x k = SocketError ->
  k < fuel ->
  exists c', _send_command json_loads peer fuel command c = Some (None, c')
             /\ _socket c' = false.
Proof.
  intros x Hconn Hsend Hchunks Hrecv Hfuel.
  assert (Hread : read_response fuel (recv x) 0 [] = ReadRaised)
    by (by apply (read_response_timeout k)).
  unfold _send_command, connect. fold x.
  cbn [next_command _socket].
  destruct (_socket c) eqn:Hs.
  - cbn [negb]. rewrite Hsend. cbn [negb]. rewrite Hread. eauto.
  - destruct Hconn as [|Hc]; [done|]. rewrite Hc. cbn [negb].
    rewrite Hsend. cbn [negb]. rewrite Hread. eauto.
Qed.

(** C3.  When the peer accepts the request and then closes the connection,
    so that every [recv] yields empty data and no newline ever arrives,
    [_send_command] has not returned after any number of reads: for every
    bound on the reads followed the call is still inside its [while True]
    loop.  It neither returns "no response" nor invalidates the socket. *)
Theorem send_command_closed_peer_never_returns
    (json_loads : list byte -> option (list (string * pyval)))
    (fuel : nat) (command : list pyval) (c : controller) :
  _send_command json_loads closed_peer fuel command c = None.
Proof.
  unfold _send_command, connect, closed_peer.
  cbn [next_command _socket connect_ok send_ok recv].
  destruct (_socket c); cbn [negb]; by rewrite read_response_closed.
Qed.

(** *** Status *)

(** With no connection and a peer that cannot be reached, a property query
    returns [None] at once. *)
Lemma get_property_unreachable json_loads fuel name c :
  _socket c = false ->
  _get_property json_loads unreachable_peer fuel name c
  = Some (PNone, next_command c).
Proof.
  intros Hs. destruct c as [s base k]. simpl in Hs. subst s. reflexivity.
Qed.

(** All fields but [playing] fall back to the dataclass defaults when their
    query gives [None]. *)
Lemma status_of_none_defaults :
  let status := status_of PNone PNone PNone PNone PNone PNone PNone in
  paused status = PBool false
  /\ filename status = PNone
  /\ position status = PFloat 0
  /\ duration status = PFloat 0
  /\ playlist_count status = PInt 0
  /\ playlist_pos status = PInt 0.
Proof. by repeat split. Qed.

(** C1.  On a dead connection (no socket, peer unreachable) every property
    query returns [None] and [get_status] returns a snapshot without failing;
    [paused], [filename], [position], [duration], [playlist_count] and
    [playlist_pos] have their zero values, but [playing] is [True]:
    [not (None or False)]. *)
Theorem get_status_dead_connection_reports_playing
    (json_loads : list byte -> option (list (string * pyval)))
    (fuel : nat) (base : option string) (k : nat) :
  get_status json_loads unreachable_peer fuel
    {| _socket := false; clips_base_path := base; issued := k |}
  = Some ({| playing := true;
             filename := PNone;
             position := PFloat 0;
             duration := PFloat 0;
             playlist_count := PInt 0;
             playlist_pos := PInt 0;
             paused := PBool false |},
          {| _socket := false; clips_base_path := base; issued := 7 + k |}).
Proof.
  unfold get_status.
  do 7 (unfold ipc_bind at 1; rewrite get_property_unreachable by reflexivity;
        cbn [next_command _socket clips_base_path issued]).
  reflexivity.
Qed.

(** *** Buffer estimate *)

(** What the code computes for a status with a positive duration. *)
Lemma queue_estimate_playing name p d k count entries :
  (0 < d)%Q ->
  queue_estimate (playing_status name p d k count) (PList entries)
  = Value (d - p + (inject_Z (Z.of_nat (length entries)) - inject_Z k - 1) * 8)%Q.
Proof.
  intros Hd. unfold queue_estimate, queue_duration_of, remaining_time_of.
  cbn [playing_status duration position playlist_pos py_num py_len pyres_bind].
  replace (Qpositive d) with true; [done|].
  unfold Qpositive. symmetry. apply negb_true_iff, not_true_is_false.
  rewrite Qle_bool_iff. by apply Qlt_not_le.
Qed.

(** While the position has not passed the duration, that is the clamped
    remaining time plus 8 seconds for each later playlist entry. *)
Lemma queue_estimate_within_item name p d k count entries :
  (0 < d)%Q -> (p <= d)%Q ->
  exists q, queue_estimate (playing_status name p d k count) (PList entries) = Value q
            /\ (q == Qmax 0 (d - p)
                     + 8 * (inject_Z (Z.of_nat (length entries)) - inject_Z k - 1))%Q.
Proof.
  intros Hd Hp. eexists. split; [by apply queue_estimate_playing|].
  unfold Qmax. destruct (Qle_bool 0 (d - p)) eqn:Hle.
  - ring.
  - exfalso. apply not_true_iff_false in Hle. apply Hle.
    apply Qle_bool_iff. by apply (proj1 (Qle_minus_iff p d)).
Qed.

(** The scenario of the specification: position 3 of duration 8 and two
    further playlist entries give 21 seconds. *)
Lemma queue_estimate_scenario :
  queue_estimate (playing_status "a.mp4" 3 8 0 3)
                 (PList [PStr "a.mp4"; PStr "b.mp4"; PStr "c.mp4"])
  = Value 21%Q.
Proof. reflexivity. Qed.

(** C4.  Once the reported position has passed the reported duration
    (position 9 of duration 8, two further playlist entries) the estimate is
    [8 - 9 + 2 * 8 = 15] seconds: the remaining time of the current item
    enters as [-1], not clamped to [0], where the clamped estimate is 16. *)
Theorem queue_estimate_not_clamped :
  queue_estimate (playing_status "a.mp4" 9 8 0 3)
                 (PList [PStr "a.mp4"; PStr "b.mp4"; PStr "c.mp4"])
  = Value 15%Q
  /\ (Qmax 0 (8 - 9) + 8 * 2 == 16)%Q.
Proof. by split. Qed.

End PlaybackFacts.

(** ** Candidate sampler *)

Module SamplerFacts.
Import Manifest Narrative Selector.

Lemma filter_all {A} (f : A -> bool) (l : list A) :
  (forall x, x ∈ l -> f x = true) -> List.filter f l = l.
Proof.
  induction l as [|x l IH]; intros Hall; [done|]. simpl.
  rewrite (Hall x) by left. f_equal. apply IH. intros y Hy. apply Hall. by right.
Qed.

Lemma filter_none {A} (f : A -> bool) (l : list A) :
  (forall x, x ∈ l -> f x = false) -> List.filter f l = [].
Proof.
  induction l as [|x l IH]; intros Hall; [done|]. simpl.
  rewrite (Hall x) by left. apply IH. intros y Hy. apply Hall. by right.
Qed.

Lemma elem_of_by_motion key clips c :
  c ∈ by_motion key clips <-> c ∈ clips /\ motion_key c = key.
Proof.
  unfold by_motion. rewrite !list_elem_of_In, filter_In, String.eqb_eq. done.
Qed.

Lemma by_motion_app key a b :
  by_motion key (a ++ b) = by_motion key a ++ by_motion key b.
Proof. apply List.filter_app. Qed.

Section Pick.
Context {A : Type}.
Implicit Types (population : list A) (idxs : list nat).

Lemma elem_of_pick population idxs x :
  x ∈ pick population idxs -> exists i, i ∈ idxs /\ population !! i = Some x.
Proof. unfold pick. rewrite list_elem_of_omap. naive_solver. Qed.

Lemma pick_subseteq population idxs : pick population idxs ⊆ population.
Proof.
  intros x (i & _ & Hi)%elem_of_pick. by eapply list_elem_of_lookup_2.
Qed.

Lemma pick_length population idxs :
  Forall (fun i => i < length population) idxs ->
  length (pick population idxs) = length idxs.
Proof.
  induction 1 as [|i idxs Hi _ IH]; [done|]. unfold pick in *. simpl.
  destruct (lookup_lt_is_Some_2 population i Hi) as [x ->]. simpl. f_equal. exact IH.
Qed.

(** Different positions of a population without repeated keys hold
    elements with different keys. *)
Lemma pick_NoDup {B} (f : A -> B) population idxs :
  NoDup (map f population) -> NoDup idxs -> NoDup (map f (pick population idxs)).
Proof.
  intros Hpop. induction 1 as [|i idxs Hi Hnd IH]; [constructor|].
  unfold pick in *. simpl. destruct (population !! i) as [x|] eqn:Hx; [|done].
  simpl. constructor; [|done].
  intros (y & Hfy & Hy)%list_elem_of_fmap.
  apply elem_of_pick in Hy as (j & Hj & Hjy).
  assert (i = j) as ->; [|done].
  eapply (proj1 (NoDup_alt (map f population)) Hpop).
  - rewrite list_lookup_fmap, Hx. done.
  - rewrite list_lookup_fmap, Hjy. simpl. by rewrite Hfy.
Qed.
End Pick.

Section Sampler.
Context {E : Type} `{Environment E}.
Hypothesis Hsampler : sampler_ok E.

(** [random.sample] returns [k] elements of the population, taken at
    different positions. *)
Lemma random_sample_spec {A} (population : list A) (k : nat) (e : E) :
  k <= length population ->
  let sample := (random_sample population k e).1 in
  length sample = k
  /\ sample ⊆ population
  /\ forall B (f : A -> B), NoDup (map f population) -> NoDup (map f sample).
Proof.
  intros Hk. unfold random_sample.
  pose proof (Hsampler (length population) k e Hk) as (Hlen & Hnd & Hlt).
  destruct (sample_indices (length population) k e) as [idxs e']. simpl in *.
  split; [by rewrite pick_length|]. split; [apply pick_subseteq|].
  intros B f Hpop. by apply pick_NoDup.
Qed.

Lemma NoDup_map_by_motion key clips :
  NoDup (map filename clips) -> NoDup (map filename (by_motion key clips)).
Proof.
  unfold by_motion. induction clips as [|c clips IH]; [done|].
  simpl. rewrite !NoDup_cons. intros [Hc Hnd].
  destruct (String.eqb (motion_key c) key); simpl; [|by apply IH].
  rewrite NoDup_cons. split; [|by apply IH].
  intros (y & Hy & Hin)%list_elem_of_fmap. apply Hc.
  apply list_elem_of_fmap. exists y. split; [done|].
  apply list_elem_of_In. apply list_elem_of_In in Hin.
  by apply filter_In in Hin as [? _].
Qed.

(** Clips of a pool with distinct names that carry the same name are the
    same clip. *)
Lemma same_name_same_clip clips (a b : Clip) :
  NoDup (map filename clips) -> a ∈ clips -> b ∈ clips ->
  filename a = filename b -> a = b.
Proof.
  intros Hnd (i & Hi)%list_elem_of_lookup (j & Hj)%list_elem_of_lookup Hab.
  assert (i = j) as ->; [|congruence].
  eapply (proj1 (NoDup_alt (map filename clips)) Hnd).
  - rewrite list_lookup_fmap, Hi. done.
  - rewrite list_lookup_fmap, Hj. simpl. by rewrite Hab.
Qed.

(** C9.  With cap 30 and a pool of 100 clips with distinct names of which
    40, 30 and 30 fall in the low, medium and high motion buckets
    (unrecognised intensities counting as medium), whatever positions the
    random generator draws, [_smart_sample] returns exactly 30 contexts,
    none of them twice, all of clips of the pool, and each bucket
    contributes exactly [30 // 3 = 10] of them: the uniform fill adds
    nothing. *)
Theorem smart_sample_cap_30 (clips : list Clip) (e : E) :
  NoDup (map filename clips) ->
  length clips = 100 ->
  length (by_motion "low" clips) = 40 ->
  length (by_motion "medium" clips) = 30 ->
  length (by_motion "high" clips) = 30 ->
  let result := (_smart_sample_clips clips 30 e).1 in
  let sample := (_smart_sample clips 30 e).1 in
  sample = map to_selector_context result
  /\ length sample = 30
  /\ NoDup sample
  /\ result ⊆ clips
  /\ length (by_motion "low" result) = 10
  /\ length (by_motion "medium" result) = 10
  /\ length (by_motion "high" result) = 10.
Proof.
  intros Hnd _ Hlow Hmed Hhigh. unfold _smart_sample, _smart_sample_clips.
  rewrite Hlow, Hmed, Hhigh.
  change (30 `div` 3) with 10. change (10 `min` 40) with 10.
  change (10 `min` 30) with 10.
  pose proof (random_sample_spec (by_motion "low" clips) 10 e) as H1.
  destruct (random_sample (by_motion "low" clips) 10 e) as [s1 e1].
  pose proof (random_sample_spec (by_motion "medium" clips) 10 e1) as H2.
  destruct (random_sample (by_motion "medium" clips) 10 e1) as [s2 e2].
  pose proof (random_sample_spec (by_motion "high" clips) 10 e2) as H3.
  destruct (random_sample (by_motion "high" clips) 10 e2) as [s3 e3].
  cbn [fst] in H1, H2, H3.
  destruct H1 as (L1 & S1 & N1); [lia|].
  destruct H2 as (L2 & S2 & N2); [lia|].
  destruct H3 as (L3 & S3 & N3); [lia|].
  rewrite !length_app, L1, L2, L3. cbn [Nat.sub Nat.add Nat.ltb Nat.leb fst].
  assert (Hk1 : forall c, c ∈ s1 -> c ∈ clips /\ motion_key c = "low")
    by (intros c Hc; by apply elem_of_by_motion, S1).
  assert (Hk2 : forall c, c ∈ s2 -> c ∈ clips /\ motion_key c = "medium")
    by (intros c Hc; by apply elem_of_by_motion, S2).
  assert (Hk3 : forall c, c ∈ s3 -> c ∈ clips /\ motion_key c = "high")
    by (intros c Hc; by apply elem_of_by_motion, S3).
  assert (Hsub : s1 ++ s2 ++ s3 ⊆ clips).
  { intros c [?|[?|?]%elem_of_app]%elem_of_app;
      [by apply Hk1|by apply Hk2|by apply Hk3]. }
  assert (Hnames : NoDup (map filename (s1 ++ s2 ++ s3))).
  { rewrite !map_app. apply NoDup_app. split; [|split].
    - apply N1. by apply NoDup_map_by_motion.
    - intros x (a & Ha & Hin1)%list_elem_of_fmap Hx.
      apply elem_of_app in Hx as [(b & Hb & Hin)%list_elem_of_fmap
                                 |(b & Hb & Hin)%list_elem_of_fmap].
      + destruct (Hk1 _ Hin1) as [C1 K1]. destruct (Hk2 _ Hin) as [C2 K2].
        assert (a = b) as ->
          by (apply (same_name_same_clip clips); congruence).
        congruence.
      + destruct (Hk1 _ Hin1) as [C1 K1]. destruct (Hk3 _ Hin) as [C3 K3].
        assert (a = b) as ->
          by (apply (same_name_same_clip clips); congruence).
        congruence.
    - apply NoDup_app. split; [|split].
      + apply N2. by apply NoDup_map_by_motion.
      + intros x (a & Ha & Hin2)%list_elem_of_fmap
                 (b & Hb & Hin)%list_elem_of_fmap.
        destruct (Hk2 _ Hin2) as [C2 K2]. destruct (Hk3 _ Hin) as [C3 K3].
        assert (a = b) as ->
          by (apply (same_name_same_clip clips); congruence).
        congruence.
      + apply N3. by apply NoDup_map_by_motion. }
  split; [done|]. split; [by rewrite length_map, !length_app, L1, L2, L3|].
  split.
  { apply (NoDup_fmap_1 ctx_filename).
    change (NoDup (map ctx_filename (map to_selector_context (s1 ++ s2 ++ s3)))).
    by rewrite map_map. }
  split; [done|].
  assert (Hkeep : forall key s, (forall c, c ∈ s -> motion_key c = key) ->
                                by_motion key s = s).
  { intros key s Hs. apply filter_all. intros c Hc.
    apply String.eqb_eq. by apply Hs. }
  assert (Hdrop : forall key key' s, key <> key' ->
                    (forall c, c ∈ s -> motion_key c = key') ->
                    by_motion key s = []).
  { intros key key' s Hne Hs. apply filter_none. intros c Hc.
    apply String.eqb_neq. rewrite (Hs c Hc). congruence. }
  rewrite !by_motion_app.
  assert (K1 : forall c, c ∈ s1 -> motion_key c = "low")
    by (intros c Hc; by apply Hk1).
  assert (K2 : forall c, c ∈ s2 -> motion_key c = "medium")
    by (intros c Hc; by apply Hk2).
  assert (K3 : forall c, c ∈ s3 -> motion_key c = "high")
    by (intros c Hc; by apply Hk3).
  rewrite (Hkeep "low" s1), (Hkeep "medium" s2), (Hkeep "high" s3) by done.
  rewrite (Hdrop "low" "medium" s2), (Hdrop "low" "high" s3),
    (Hdrop "medium" "low" s1), (Hdrop "medium" "high" s3),
    (Hdrop "high" "low" s1), (Hdrop "high" "medium" s2) by done.
  rewrite !app_nil_r. simpl. done.
Qed.
End Sampler.

(** The scripted environment draws the first [k] positions. *)
Lemma script_sampler_ok : sampler_ok Script.
Proof.
  intros n k e Hk. simpl. repeat split.
  - apply length_seq.
  - apply NoDup_seq.
  - apply Forall_forall. intros i Hi%list_elem_of_In%in_seq. lia.
Qed.

Lemma smart_sample_cap_30_witness :
  let result := (_smart_sample_clips pool_100 30 {| replies := [] |}).1 in
  let sample := (_smart_sample pool_100 30 {| replies := [] |}).1 in
  sample = map to_selector_context result
  /\ length sample = 30
  /\ NoDup sample
  /\ result ⊆ pool_100
  /\ length (by_motion "low" result) = 10
  /\ length (by_motion "medium" result) = 10
  /\ length (by_motion "high" result) = 10.
Proof.
  apply (smart_sample_cap_30 script_sampler_ok pool_100 {| replies := [] |}).
  - apply (bool_decide_unpack _). vm_compute. reflexivity.
  - reflexivity.
  - vm_compute. reflexivity.
  - vm_compute. reflexivity.
  - vm_compute. reflexivity.
Defined.

End SamplerFacts.

(** ** Selector *)

Module SelectorFacts.
Import Manifest Narrative Selector.

Lemma for_each_emit {S} (w : list event) (s : S) :
  for_each w emit s = (Returned tt, s, w).
Proof.
  induction w as [|ev w IH]; [done|].
  simpl. unfold bind, emit at 1. by rewrite IH.
Qed.

(** The validation loop keeps, in order, the selections the manifest knows
    and prints one warning for each of the others. *)
Lemma validate_spec m sels :
  validate m sels
  = (List.filter (fun sel => known m (sel_filename sel)) sels,
     map (fun sel => Printed (WarnNonexistentClip (sel_filename sel)))
         (List.filter (fun sel => negb (known m (sel_filename sel))) sels)).
Proof.
  unfold validate.
  enough (Hgen : forall valid w,
    foldl (fun '(valid, w) sel =>
             match get_clip m (sel_filename sel) with
             | Some _ => (valid ++ [sel], w)
             | None => (valid, w ++ [Printed (WarnNonexistentClip (sel_filename sel))])
             end) (valid, w) sels
    = (valid ++ List.filter (fun sel => known m (sel_filename sel)) sels,
       w ++ map (fun sel => Printed (WarnNonexistentClip (sel_filename sel)))
              (List.filter (fun sel => negb (known m (sel_filename sel))) sels)))
    by apply (Hgen [] []).
  induction sels as [|sel sels IH]; intros valid w; simpl.
  - by rewrite !app_nil_r.
  - pose proof (eq_refl (known m (sel_filename sel))) as Hk.
    unfold known at 2 in Hk.
    destruct (get_clip m (sel_filename sel)); rewrite Hk; simpl;
      rewrite IH, <- app_assoc; done.
Qed.

Section WithEnvironment.
Context {E : Type} `{Environment E}.

Lemma prepare_prompt_spec available n (s : Selector E) :
  exists prompt e',
    prepare_prompt available n s = (Returned prompt, set_env e' s, []).
Proof.
  unfold prepare_prompt, bind, get, ret, call.
  destruct (50 <? length available)%nat.
  - destruct (_smart_sample available 50 (env s)) as [ctx e']. simpl. eauto.
  - simpl. exists (build_prompt (state s) (map to_selector_context available) n), (env s).
    by destruct s.
Qed.

(** What [select] returns and prints, by the reply it gets; it changes
    nothing of the selector but the environment. *)
Lemma select_spec n exclude (s : Selector E) :
  exists e',
    select n exclude s =
    match reply_received n exclude s with
    | None => (Returned no_available_clips, set_env e' s, [])
    | Some (ReplyRaises e) => (Raised e, set_env e' s, [])
    | Some (ReplyUnparseable text) =>
        (Returned (failed_to_parse text), set_env e' s, [])
    | Some (ReplyJson r) =>
        (Returned (with_selections
                     (List.filter (fun sel => known (manifest s) (sel_filename sel))
                                  (selections r)) r),
         set_env e' s,
         map (fun sel => Printed (WarnNonexistentClip (sel_filename sel)))
           (List.filter (fun sel => negb (known (manifest s) (sel_filename sel)))
                        (selections r)))
    | Some (ReplyMisshapen checked e) =>
        (Raised e, set_env e' s,
         map (fun sel => Printed (WarnNonexistentClip (sel_filename sel)))
           (List.filter (fun sel => negb (known (manifest s) (sel_filename sel)))
                        checked))
    end.
Proof.
  unfold reply_received.
  destruct (available_clips s exclude) as [|c available] eqn:Havail.
  { exists (env s). unfold select, bind, get. rewrite Havail. by destruct s. }
  destruct (prepare_prompt_spec (c :: available) n s) as (prompt & e1 & Hprep).
  rewrite Hprep. cbn [env set_env].
  destruct (messages_create prompt e1) as [reply e2] eqn:Hm. cbn [fst].
  exists e2.
  unfold select. unfold bind at 1. unfold get at 1. rewrite Havail.
  unfold bind at 1. rewrite Hprep.
  unfold bind at 1. unfold call at 1. cbn [env set_env]. rewrite Hm.
  destruct reply as [e|text|r|checked e]; [done|done| |].
  - rewrite validate_spec. unfold bind. rewrite for_each_emit.
    unfold ret. cbn. by rewrite app_nil_r.
  - rewrite validate_spec. unfold bind. rewrite for_each_emit.
    unfold raise. cbn. by rewrite app_nil_r.
Qed.

(** [mark_played] on a name the manifest knows. *)
Lemma mark_played_known name clip (s : Selector E) :
  get_clip (manifest s) name = Some clip ->
  mark_played name s
  = (Returned tt,
     set_state (add_played clip (now (env s)).1 (state s))
               (set_env (now (env s)).2 s),
     []).
Proof.
  intros Hclip. unfold mark_played, bind, get, call, modify. rewrite Hclip.
  destruct (now (env s)) as [t e']. done.
Qed.

Lemma mark_played_unknown name (s : Selector E) :
  get_clip (manifest s) name = None ->
  mark_played name s = (Returned tt, s, []).
Proof. intros Hclip. unfold mark_played, bind, get, ret. by rewrite Hclip. Qed.

End WithEnvironment.

(** The index maps a name to a clip of that name. *)
Lemma get_clip_filename m name clip :
  get_clip m name = Some clip -> filename clip = name.
Proof.
  unfold get_clip, clips_by_filename, index_clips.
  enough (Hgen : forall cs (acc : gmap string Clip),
             (forall k c, acc !! k = Some c -> filename c = k) ->
             forall k c, foldl (fun m c => <[filename c := c]> m) acc cs !! k = Some c ->
                         filename c = k)
    by (apply Hgen; intros k c; by rewrite lookup_empty).
  induction cs as [|c0 cs IH]; intros acc Hacc k c; simpl; [apply Hacc|].
  apply IH. intros k' c'. destruct (decide (filename c0 = k')) as [<-|Hne].
  - rewrite lookup_insert_eq. congruence.
  - rewrite lookup_insert_ne by done. apply Hacc.
Qed.

End SelectorFacts.

(** ** Orchestrator *)

Module OrchestratorFacts.
Import Manifest Narrative Selector Orchestrator SelectorFacts.

Lemma list_in_true name l : list_in name l = true <-> name ∈ l.
Proof.
  unfold list_in. rewrite existsb_exists. split.
  - intros (x & Hx%list_elem_of_In & ->%String.eqb_eq). done.
  - intros Hin. exists name. by rewrite <- list_elem_of_In, String.eqb_refl.
Qed.

Lemma list_remove_not_in name l : name ∉ l -> list_remove name l = l.
Proof.
  induction l as [|y l IH]; [done|]. intros Hnot. simpl.
  destruct (String.eqb_spec y name) as [->|Hne].
  - exfalso. apply Hnot. by left.
  - f_equal. apply IH. intros Hin. apply Hnot. by right.
Qed.

(** On a list without repetitions, [remove] leaves no occurrence behind. *)
Lemma list_remove_NoDup name l :
  NoDup l -> NoDup (list_remove name l) /\ name ∉ list_remove name l.
Proof.
  induction 1 as [|y l Hy Hnd IH]; simpl.
  - split; [constructor|]. by intros ?%elem_of_nil.
  - destruct (String.eqb_spec y name) as [->|Hne]; [done|].
    destruct IH as [IH1 IH2]. split.
    + constructor; [|done]. intros Hin. apply Hy.
      clear -Hin. induction l as [|z l IHl]; simpl in *; [done|].
      destruct (String.eqb z name); [by right|].
      apply elem_of_cons in Hin as [->|Hin]; [by left|right; by apply IHl].
    + intros [?|?]%elem_of_cons; [congruence|done].
Qed.


(** Closes a goal about a run that appended nothing to the queue. *)
Ltac queue_untouched :=
  subst; exists []; rewrite ?app_nil_r;
  split_and!; first [done | apply sublist_nil_l].

Section WithCollaborators.
Context {E : Type} `{Environment E} {P : Type} `{PlaybackEngine P}.
Implicit Types (o : Orchestrator E P).

Lemma queue_selection_spec sel o :
  queue_selection sel o =
  let r := add_to_playlist (sel_filename sel) (playback o) in
  (Returned tt,
   set_queued_filenames
     (queued_filenames o ++ (if r.1 then [sel_filename sel] else []))
     (set_playback r.2 o),
   queue_events sel r.1).
Proof.
  unfold queue_selection, queue_events, bind, call, emit, modify, print, emit.
  destruct (add_to_playlist (sel_filename sel) (playback o)) as [[|] p']; cbn.
  - done.
  - rewrite app_nil_r. by destruct o.
Qed.

Lemma queue_events_enqueue sel ok :
  List.filter is_enqueue (queue_events sel ok) = [Enqueue (sel_filename sel) ok]
  /\ List.filter is_dropped_warning (queue_events sel ok) = [].
Proof. by destruct ok. Qed.

(** The enqueue loop: every selection is offered to the playback client
    once, and the names it accepts are appended to the queue in order. *)
Lemma for_each_queue_selection sels o :
  exists added p' evs,
    for_each sels queue_selection o
    = (Returned tt,
       set_queued_filenames (queued_filenames o ++ added) (set_playback p' o),
       evs)
    /\ added `sublist_of` map sel_filename sels
    /\ List.filter is_dropped_warning evs = []
    /\ map (fun ev => match ev with Enqueue name _ => name | _ => "" end)
           (List.filter is_enqueue evs) = map sel_filename sels.
Proof.
  revert o. induction sels as [|sel sels IH]; intros o.
  - exists [], (playback o), []. rewrite app_nil_r. by destruct o.
  - cbn [for_each]. unfold bind. rewrite queue_selection_spec. cbn zeta.
    set (r := add_to_playlist (sel_filename sel) (playback o)).
    set (o1 := set_queued_filenames _ _).
    destruct (IH o1) as (added & p' & evs & Hrun & Hsub & Hwarn & Henq).
    rewrite Hrun.
    exists ((if r.1 then [sel_filename sel] else []) ++ added), p',
           (queue_events sel r.1 ++ evs).
    destruct (queue_events_enqueue sel r.1) as [Hq1 Hq2].
    rewrite !List.filter_app, Hq1, Hq2, Hwarn. cbn [map app].
    rewrite Henq. split_and!; try done.
    + subst o1. cbn. by rewrite <- app_assoc.
    + destruct r.1; [by apply sublist_skip|by apply sublist_cons].
Qed.

Lemma map_filter_known m (sels : list Selection) :
  map sel_filename (List.filter (fun sel => known m (sel_filename sel)) sels)
  = List.filter (known m) (map sel_filename sels).
Proof.
  induction sels as [|sel sels IH]; [done|]. simpl.
  destruct (known m (sel_filename sel)); simpl; by rewrite IH.
Qed.

(** A fill cycle appends to the queue some of the names of the reply that
    the manifest knows, in the order of the reply, and leaves the
    narrative state, the manifest, the configuration, the played counter
    and the running flag alone. *)
Lemma fill_buffer_spec o :
  exists added,
    queued_filenames (state_of (_fill_buffer o)) = queued_filenames o ++ added
    /\ added `sublist_of` valid_names o
    /\ state (selector (state_of (_fill_buffer o))) = state (selector o)
    /\ manifest (selector (state_of (_fill_buffer o))) = manifest (selector o)
    /\ config (state_of (_fill_buffer o)) = config o
    /\ clips_played (state_of (_fill_buffer o)) = clips_played o
    /\ running (state_of (_fill_buffer o)) = running o.
Proof.
  unfold valid_names, proposed_names, fill_reply.
  remember (_fill_buffer o) as run eqn:Hrun.
  unfold _fill_buffer in Hrun.
  unfold bind at 1 in Hrun. unfold get at 1 in Hrun.
  unfold bind at 1 in Hrun. unfold zoom at 1 in Hrun.
  destruct (select_spec (clips_per_selection (config o)) (exclusion o)
                        (selector o)) as [e' Hsel].
  rewrite Hsel in Hrun. clear Hsel.
  destruct (reply_received _ _ _) as [[e|text|r|checked e]|].
  - queue_untouched.
  - queue_untouched.
  - cbn [with_selections error selections narrative_note suggested_direction]
      in Hrun.
    destruct (error r) as [msg|].
    { queue_untouched. }
    rewrite <- map_filter_known.
    destruct (List.filter _ (selections r)) as [|sel sels] eqn:Hvalid.
    { queue_untouched. }
    set (o1 := set_selector _ o) in Hrun.
    destruct (for_each_queue_selection (sel :: sels) o1)
      as (added & p' & evs & Hloop & Hsub & _).
    unfold bind at 1 in Hrun. rewrite Hloop in Hrun. exists added.
    unfold bind, modify, when, print, emit, ret in Hrun.
    destruct (text_truthy (narrative_note r)),
             (text_truthy (suggested_direction r)); subst run; done.
  - queue_untouched.
  - queue_untouched.
Qed.

(** C10.  When the reply of a fill cycle has no ["error"] key and lists
    exactly one name the manifest knows and one it does not, in either
    order, the cycle calls [add_to_playlist] exactly once, for the known
    name, and prints exactly one warning, for the unknown name; the queue
    grows by the known name if the playback client accepted it and is
    otherwise unchanged, so the unknown name is neither enqueued nor
    queued.  The unknown name does not make the cycle fail: once the
    enqueue call has returned, the cycle returns normally and counts the
    selection round. *)
Theorem fill_cycle_one_valid_one_unknown o r (valid unknown : Selection) :
  fill_reply o = Some (ReplyJson r) ->
  error r = None ->
  selections r = [valid; unknown] \/ selections r = [unknown; valid] ->
  known (manifest (selector o)) (sel_filename valid) = true ->
  known (manifest (selector o)) (sel_filename unknown) = false ->
  let run := _fill_buffer o in
  let ack := (add_to_playlist (sel_filename valid) (playback o)).1 in
  outcome_of run = Returned tt
  /\ List.filter is_enqueue (events_of run)
     = [Enqueue (sel_filename valid) ack]
  /\ List.filter is_dropped_warning (events_of run)
     = [Printed (WarnNonexistentClip (sel_filename unknown))]
  /\ queued_filenames (state_of run)
     = queued_filenames o ++ (if ack then [sel_filename valid] else [])
  /\ selections_made (state_of run) = (selections_made o + 1)%Z.
Proof.
  intros Hreply Herr Hsels Hkv Hku run ack.
  assert (Hvalid : List.filter (fun sel => known (manifest (selector o)) (sel_filename sel))
                     (selections r) = [valid]).
  { destruct Hsels as [-> | ->]; cbn [List.filter]; by rewrite Hkv, Hku. }
  assert (Hwarn : List.filter (fun sel => negb (known (manifest (selector o)) (sel_filename sel)))
                    (selections r) = [unknown]).
  { destruct Hsels as [-> | ->]; cbn [List.filter]; by rewrite Hkv, Hku. }
  subst run. remember (_fill_buffer o) as run eqn:Hrun.
  unfold _fill_buffer in Hrun.
  unfold bind at 1 in Hrun. unfold get at 1 in Hrun.
  unfold bind at 1 in Hrun. unfold zoom at 1 in Hrun.
  destruct (select_spec (clips_per_selection (config o)) (exclusion o)
                        (selector o)) as [e' Hsel].
  unfold fill_reply in Hreply. rewrite Hreply, Hvalid, Hwarn in Hsel.
  rewrite Hsel in Hrun. clear Hsel.
  cbn [with_selections error selections narrative_note suggested_direction
       for_each map] in Hrun.
  rewrite Herr in Hrun.
  unfold bind at 1 in Hrun. unfold bind at 1 in Hrun.
  rewrite queue_selection_spec in Hrun. cbn zeta in Hrun.
  cbn [set_selector playback] in Hrun. fold ack in Hrun.
  unfold bind, modify, when, print, emit, ret in Hrun.
  destruct (text_truthy (narrative_note r)),
           (text_truthy (suggested_direction r)), ack; subst run; done.
Qed.

(** *** Reconciliation *)

Lemma mark_current_as_played_queued name o :
  name ∈ queued_filenames o ->
  _mark_current_as_played name o
  = (let r := mark_played name (selector o) in
     (Returned tt,
      set_clips_played (clips_played o + 1)
        (set_selector r.1.2
           (set_queued_filenames (list_remove name (queued_filenames o)) o)),
      r.2)).
Proof.
  intros Hin%list_in_true.
  unfold _mark_current_as_played, bind, get, modify, zoom. rewrite Hin.
  cbn [selector set_queued_filenames].
  destruct (get_clip (manifest (selector o)) name) as [clip|] eqn:Hclip.
  - rewrite (mark_played_known name clip) by done. cbn. by rewrite ?app_nil_r.
  - rewrite mark_played_unknown by done. done.
Qed.

Lemma mark_current_as_played_not_queued name o :
  name ∉ queued_filenames o ->
  _mark_current_as_played name o = (Returned tt, o, []).
Proof.
  intros Hnot. unfold _mark_current_as_played, bind, get, ret.
  destruct (list_in name (queued_filenames o)) eqn:Hin; [|done].
  by apply list_in_true in Hin.
Qed.

Lemma mark_current_as_played_queue name o :
  queued_filenames (state_of (_mark_current_as_played name o))
  = list_remove name (queued_filenames o).
Proof.
  destruct (decide (name ∈ queued_filenames o)) as [Hin|Hnot].
  - by rewrite mark_current_as_played_queued.
  - rewrite mark_current_as_played_not_queued by done.
    by rewrite list_remove_not_in.
Qed.

(** The tracking step removes at most the reported name from the queue. *)
Lemma update_played_tracking_queue o :
  queued_filenames (state_of (update_played_tracking o)) = queued_filenames o
  \/ exists name,
       queued_filenames (state_of (update_played_tracking o))
       = list_remove name (queued_filenames o).
Proof.
  unfold update_played_tracking, bind, call.
  destruct (get_status (playback o)) as [status p'].
  destruct (truthy (Playback.filename status)); [|by left].
  destruct (Playback.filename status) as [| | | |name| |]; try by left.
  right. exists name.
  pose proof (mark_current_as_played_queue name (set_playback p' o)) as Hq.
  destruct (_mark_current_as_played name (set_playback p' o)) as [[res o2] w].
  done.
Qed.

(** The played-clips tracking when the status it reads reports a queued
    name [A] that the manifest knows. *)
Lemma tracking_moves_current_to_history o (A : string) :
  A ∈ queued_filenames o ->
  is_Some (get_clip (manifest (selector o)) A) ->
  Playback.filename (get_status (playback o)).1 = PStr A ->
  A <> "" ->
  let run := update_played_tracking o in
  outcome_of run = Returned tt
  /\ queued_filenames (state_of run) = list_remove A (queued_filenames o)
  /\ (exists entry,
        last (recently_played (state (selector (state_of run)))) = Some entry
        /\ pe_filename entry = A)
  /\ clips_played (state_of run) = (clips_played o + 1)%Z.
Proof.
  intros Hq [clip Hclip] Hfile HA run. subst run.
  unfold update_played_tracking, bind, call.
  destruct (get_status (playback o)) as [status p']. cbn [fst] in Hfile.
  rewrite Hfile. cbn [truthy].
  replace (str_truthy A) with true by (by destruct A).
  assert (HinA : A ∈ queued_filenames (set_playback p' o)) by done.
  rewrite (mark_current_as_played_queued A (set_playback p' o) HinA).
  cbn [selector queued_filenames clips_played set_playback].
  rewrite (mark_played_known A clip) by done. cbn.
  split; [done|]. split; [done|]. split; [|done].
  exists (played_entry clip (now (env (selector o))).1). split.
  - apply last_n_last. lia.
  - cbn. by apply (get_clip_filename (manifest (selector o))).
Qed.

(** Removing [A] from a queue that holds exactly [A] and [B], followed by
    the names [added] behind them, leaves [B] and those names. *)
Lemma list_remove_pair (A B : string) (q added : list string) :
  q ≡ₚ [A; B] -> list_remove A (q ++ added) = B :: added.
Proof.
  intros Hq. symmetry in Hq.
  apply Permutation_length_2_inv in Hq as [-> | ->]; cbn.
  - by rewrite String.eqb_refl.
  - destruct (String.eqb_spec B A) as [->|]; [done|].
    by rewrite String.eqb_refl.
Qed.

Lemma update_played_tracking_returns o :
  outcome_of (update_played_tracking o) = Returned tt.
Proof.
  unfold update_played_tracking, bind, call.
  destruct (get_status (playback o)) as [status p'].
  destruct (truthy (Playback.filename status)); [|done].
  destruct (Playback.filename status) as [| | | |name| |]; try done.
  destruct (decide (name ∈ queued_filenames (set_playback p' o))) as [Hin|Hnot].
  - by rewrite mark_current_as_played_queued.
  - by rewrite mark_current_as_played_not_queued.
Qed.

(** Processing feedback touches neither the manifest nor the scheduler's
    own bookkeeping. *)
Lemma process_feedback_keeps fb (s : Selector E) :
  outcome_of (process_feedback fb s) = Returned tt
  /\ manifest (state_of (process_feedback fb s)) = manifest s.
Proof.
  unfold process_feedback, bind, call, modify, print, emit, ret.
  destruct (now (env s)) as [t e'].
  by destruct (List.find _ direction_keywords) as [[k d]|].
Qed.

Lemma for_each_feedback_keeps fbs o :
  exists o' w,
    for_each fbs (fun fb => zoom selector set_selector (process_feedback fb)) o
    = (Returned tt, o', w)
    /\ manifest (selector o') = manifest (selector o)
    /\ clips_played o' = clips_played o
    /\ queued_filenames o' = queued_filenames o.
Proof.
  revert o. induction fbs as [|fb fbs IH]; intros o; [by eexists _, _|].
  cbn [for_each]. unfold bind. unfold zoom at 1.
  destruct (process_feedback_keeps fb (selector o)) as [Hret Hman].
  destruct (process_feedback fb (selector o)) as [[res s1] w1].
  cbn in Hret, Hman. subst res.
  destruct (IH (set_selector s1 o)) as (o' & w' & -> & Hman' & Hcp & Hq).
  eexists _, _. split; [done|]. cbn in *. split_and!; congruence.
Qed.

(** The first part of a poll cycle changes neither the manifest nor the
    played counter. *)
Lemma check_buffer_and_feedback_keeps o :
  manifest (selector (state_of (check_buffer_and_feedback o)))
  = manifest (selector o)
  /\ clips_played (state_of (check_buffer_and_feedback o)) = clips_played o.
Proof.
  remember (check_buffer_and_feedback o) as run eqn:Hrun.
  unfold check_buffer_and_feedback in Hrun.
  unfold bind at 1 in Hrun. unfold call at 1 in Hrun.
  destruct (get_queue_duration (playback o)) as [[t|] p1]; [|by subst run].
  unfold bind at 1 in Hrun. unfold get at 1 in Hrun.
  unfold bind at 1 in Hrun.
  assert (Hwhen : forall b,
            exists res o1 w1,
              when b (print BufferLow ;; _fill_buffer) (set_playback p1 o)
              = (res, o1, w1)
              /\ manifest (selector o1) = manifest (selector o)
              /\ clips_played o1 = clips_played o).
  { intros [|]; cbn [when]; [|by eexists _, _, _].
    unfold bind, print, emit.
    destruct (fill_buffer_spec (set_playback p1 o))
      as (_ & _ & _ & _ & Hman & _ & Hcp & _).
    destruct (_fill_buffer (set_playback p1 o)) as [[res o1] w1].
    by eexists _, _, _. }
  destruct (Hwhen (negb (Qle_bool (min_buffer_seconds (config (set_playback p1 o))) t)))
    as (res & o1 & w1 & Hw & Hman & Hcp).
  rewrite Hw in Hrun. destruct res as [u|e]; [|by subst run].
  unfold bind at 1 in Hrun. unfold get at 1 in Hrun.
  unfold bind at 1 in Hrun. unfold modify at 1 in Hrun.
  destruct (for_each_feedback_keeps (_feedback_queue o1) (set_feedback_queue [] o1))
    as (o2 & w2 & Hloop & Hman2 & Hcp2 & _).
  rewrite Hloop in Hrun. subst run. cbn in *. split; congruence.
Qed.

(** The first part of a poll cycle appends to the queue what its fill
    cycle enqueued: known names of the reply, and nothing when the buffer
    estimate is not below the low-water mark. *)
Lemma check_buffer_and_feedback_queue o :
  exists added,
    queued_filenames (state_of (check_buffer_and_feedback o))
    = queued_filenames o ++ added
    /\ forall t p1,
         get_queue_duration (playback o) = (Value t, p1) ->
         added `sublist_of` valid_names (set_playback p1 o)
         /\ (Qle_bool (min_buffer_seconds (config o)) t = true -> added = []).
Proof.
  remember (check_buffer_and_feedback o) as run eqn:Hrun.
  unfold check_buffer_and_feedback in Hrun.
  unfold bind at 1 in Hrun. unfold call at 1 in Hrun.
  destruct (get_queue_duration (playback o)) as [[t|] p1].
  2: { subst run. exists []. rewrite app_nil_r. split; [done|].
       intros t0 p0 Hq. discriminate Hq. }
  unfold bind at 1 in Hrun. unfold get at 1 in Hrun.
  unfold bind at 1 in Hrun.
  change (config (set_playback p1 o)) with (config o) in Hrun.
  assert (Hwhen : exists added res o1 w1,
              when (negb (Qle_bool (min_buffer_seconds (config o)) t))
                   (print BufferLow ;; _fill_buffer) (set_playback p1 o)
              = (res, o1, w1)
              /\ queued_filenames o1 = queued_filenames o ++ added
              /\ added `sublist_of` valid_names (set_playback p1 o)
              /\ (Qle_bool (min_buffer_seconds (config o)) t = true ->
                  added = [])).
  { destruct (Qle_bool (min_buffer_seconds (config o)) t); cbn [negb when].
    - exists []. eexists _, _, _. split; [done|]. cbn. rewrite app_nil_r.
      split_and!; try done. apply sublist_nil_l.
    - unfold bind, print, emit.
      destruct (fill_buffer_spec (set_playback p1 o))
        as (added & Hqueue & Hsub & _).
      destruct (_fill_buffer (set_playback p1 o)) as [[res o1] w1].
      exists added. eexists _, _, _. split; [done|]. by split_and!. }
  destruct Hwhen as (added & res & o1 & w1 & Hw & Hqueue & Hsub & Hlow).
  rewrite Hw in Hrun. exists added.
  assert (Hfacts : forall t0 p0, (Value t, p1) = (Value t0, p0) ->
            added `sublist_of` valid_names (set_playback p0 o)
            /\ (Qle_bool (min_buffer_seconds (config o)) t0 = true ->
                added = []))
    by (by intros t0 p0 [= <- <-]).
  destruct res as [u|e]; [|by subst run].
  unfold bind at 1 in Hrun. unfold get at 1 in Hrun.
  unfold bind at 1 in Hrun. unfold modify at 1 in Hrun.
  destruct (for_each_feedback_keeps (_feedback_queue o1) (set_feedback_queue [] o1))
    as (o2 & w2 & Hloop & _ & _ & Hq2).
  rewrite Hloop in Hrun. subst run. cbn in *. split; [congruence|done].
Qed.

(** C5.  Take a scheduler state whose queue holds exactly [A] and [B], both
    known to the manifest, and a poll cycle from it that gets as far as
    reading the playback status and reads a status that reports [A] as the
    current file.  After that cycle the queue holds [B], followed by the
    names that the fill cycle of the same poll cycle enqueued (none when
    the buffer estimate was not below the low-water mark); the last entry
    of [recently_played] is the one of [A]; [clips_played] has grown by
    exactly one; and the cycle returns normally. *)
Theorem poll_cycle_reconciles_current o o1 w (A B : string) :
  queued_filenames o ≡ₚ [A; B] ->
  is_Some (get_clip (manifest (selector o)) A) ->
  is_Some (get_clip (manifest (selector o)) B) ->
  check_buffer_and_feedback o = (Returned tt, o1, w) ->
  Playback.filename (get_status (playback o1)).1 = PStr A ->
  A <> "" ->
  let run := buffer_loop_body o in
  exists added,
    queued_filenames o1 = queued_filenames o ++ added
    /\ (forall t p1,
          get_queue_duration (playback o) = (Value t, p1) ->
          added `sublist_of` valid_names (set_playback p1 o)
          /\ (Qle_bool (min_buffer_seconds (config o)) t = true -> added = []))
    /\ outcome_of run = Returned tt
    /\ queued_filenames (state_of run) = B :: added
    /\ (exists entry,
          last (recently_played (state (selector (state_of run)))) = Some entry
          /\ pe_filename entry = A)
    /\ clips_played (state_of run) = (clips_played o + 1)%Z.
Proof.
  intros Hq HA _ Hcheck Hfile Hne run. subst run.
  destruct (check_buffer_and_feedback_keeps o) as [Hman Hcp].
  destruct (check_buffer_and_feedback_queue o) as (added & Hqueue & Hadded).
  rewrite Hcheck in Hman, Hcp, Hqueue. cbn in Hman, Hcp, Hqueue.
  rewrite <- Hman in HA.
  assert (HinA : A ∈ queued_filenames o1).
  { rewrite Hqueue, Hq. apply elem_of_app. left. by left. }
  destruct (tracking_moves_current_to_history o1 A HinA HA Hfile Hne)
    as (Hret & Hafter & Hlast & Hplayed).
  exists added. split; [done|]. split; [done|].
  unfold buffer_loop_body, try_except, bind. rewrite Hcheck.
  destruct (update_played_tracking o1) as [[res o2] w2].
  cbn in Hret, Hafter, Hlast, Hplayed. subst res. cbn.
  split; [done|]. split; [|split; [done|by rewrite <- Hcp]].
  rewrite Hafter, Hqueue. by apply list_remove_pair.
Qed.

(** When the buffer estimate is not below the low-water mark and no
    feedback is waiting, a poll cycle is the played-clips tracking alone. *)
Lemma buffer_loop_body_without_fill o t p1 :
  get_queue_duration (playback o) = (Value t, p1) ->
  Qle_bool (min_buffer_seconds (config o)) t = true ->
  _feedback_queue o = [] ->
  outcome_of (buffer_loop_body o) = Returned tt
  /\ state_of (buffer_loop_body o)
     = state_of (update_played_tracking (set_playback p1 o)).
Proof.
  intros Hq Hlow Hfb.
  assert (Hsame : set_feedback_queue [] (set_playback p1 o) = set_playback p1 o).
  { destruct o. cbn in *. by subst. }
  pose proof (update_played_tracking_returns (set_playback p1 o)) as Hret.
  remember (buffer_loop_body o) as run eqn:Hrun.
  unfold buffer_loop_body, try_except, check_buffer_and_feedback in Hrun.
  unfold bind at 1 in Hrun.
  unfold bind at 1 in Hrun. unfold call at 1 in Hrun. rewrite Hq in Hrun.
  unfold bind at 1 in Hrun. unfold get at 1 in Hrun.
  cbn [config set_playback] in Hrun. rewrite Hlow in Hrun.
  cbn [negb when] in Hrun.
  unfold bind at 1 in Hrun. unfold ret at 1 in Hrun.
  unfold bind at 1 in Hrun. unfold get at 1 in Hrun.
  cbn [_feedback_queue set_playback] in Hrun. rewrite Hfb in Hrun.
  unfold bind at 1 in Hrun. unfold modify at 1 in Hrun.
  rewrite Hsame in Hrun. cbn [for_each] in Hrun. unfold ret at 1 in Hrun.
  destruct (update_played_tracking (set_playback p1 o)) as [[res o2] w2].
  cbn in Hret. subst res run. done.
Qed.

(** *** Start *)




(** A fill cycle never touches [current_queue], the list whose length
    [to_context] reports as the queued count. *)
Lemma fill_buffer_context_queued_count o :
  cx_queued_count (to_context (state (selector (state_of (_fill_buffer o)))))
  = length (current_queue (state (selector o))).
Proof.
  destruct (fill_buffer_spec o) as (_ & _ & _ & -> & _). done.
Qed.

End WithCollaborators.

(** *** Runs of a dummy-playback session *)

(** A session whose first fill cycle has queued [a.mp4] and [b.mp4]; the
    dummy client reports [a.mp4] as current and a buffer of 8 seconds, below
    the low-water mark of 15, so the pass runs a fill cycle, which queues
    [c.mp4]. *)
Lemma poll_cycle_reconciles_current_witness :
  let o := state_of (_fill_buffer
                       (example_session [reply_with ["a.mp4"; "b.mp4"];
                                         reply_with ["c.mp4"]])) in
  let run := buffer_loop_body o in
  exists added,
    queued_filenames (state_of (check_buffer_and_feedback o))
    = queued_filenames o ++ added
    /\ (forall t p1,
          get_queue_duration (playback o) = (Value t, p1) ->
          added `sublist_of` valid_names (set_playback p1 o)
          /\ (Qle_bool (min_buffer_seconds (config o)) t = true -> added = []))
    /\ outcome_of run = Returned tt
    /\ queued_filenames (state_of run) = "b.mp4" :: added
    /\ (exists entry,
          last (recently_played (state (selector (state_of run)))) = Some entry
          /\ pe_filename entry = "a.mp4")
    /\ clips_played (state_of run) = (clips_played o + 1)%Z.
Proof.
  set (o := state_of (_fill_buffer
                        (example_session [reply_with ["a.mp4"; "b.mp4"];
                                          reply_with ["c.mp4"]]))).
  apply (poll_cycle_reconciles_current o
           (state_of (check_buffer_and_feedback o))
           (events_of (check_buffer_and_feedback o)) "a.mp4" "b.mp4").
  - vm_compute. reflexivity.
  - vm_compute. by eexists.
  - vm_compute. by eexists.
  - vm_compute. reflexivity.
  - vm_compute. reflexivity.
  - discriminate.
Defined.

(** C5, as stated, fails: from a queue holding exactly [a.mp4] and [b.mp4],
    with the playback status reporting [a.mp4] before and after the fill
    step, the pass ends with [b.mp4] and [c.mp4] queued, not [b.mp4] alone:
    the buffer was low, so the pass ran a fill cycle before it read the
    status. *)
Lemma poll_cycle_fill_extends_queue :
  let o := state_of (_fill_buffer
                       (example_session [reply_with ["a.mp4"; "b.mp4"];
                                         reply_with ["c.mp4"]])) in
  let run := buffer_loop_body o in
  queued_filenames o = ["a.mp4"; "b.mp4"]
  /\ known (manifest (selector o)) "a.mp4" = true
  /\ known (manifest (selector o)) "b.mp4" = true
  /\ Playback.filename (get_status (playback o)).1 = PStr "a.mp4"
  /\ Playback.filename
       (get_status (playback (state_of (check_buffer_and_feedback o)))).1
     = PStr "a.mp4"
  /\ outcome_of run = Returned tt
  /\ queued_filenames (state_of run) = ["b.mp4"; "c.mp4"]
  /\ ~ queued_filenames (state_of run) ≡ₚ ["b.mp4"].
Proof.
  vm_compute. split_and!; try reflexivity.
  intros Hperm. apply Permutation_length in Hperm. discriminate Hperm.
Qed.

Lemma fill_cycle_one_valid_one_unknown_witness :
  let o := example_session [reply_with ["a.mp4"; "zz.mp4"]] in
  let run := _fill_buffer o in
  outcome_of run = Returned tt
  /\ List.filter is_enqueue (events_of run) = [Enqueue "a.mp4" true]
  /\ List.filter is_dropped_warning (events_of run)
     = [Printed (WarnNonexistentClip "zz.mp4")]
  /\ queued_filenames (state_of run) = ["a.mp4"]
  /\ selections_made (state_of run) = 1%Z.
Proof.
  assert (Hreply : fill_reply (example_session [reply_with ["a.mp4"; "zz.mp4"]])
                   = Some (reply_with ["a.mp4"; "zz.mp4"]))
    by (vm_compute; reflexivity).
  assert (Hknown : known (manifest (selector
                     (example_session [reply_with ["a.mp4"; "zz.mp4"]])))
                     "a.mp4" = true)
    by (vm_compute; reflexivity).
  assert (Hunknown : known (manifest (selector
                       (example_session [reply_with ["a.mp4"; "zz.mp4"]])))
                       "zz.mp4" = false)
    by (vm_compute; reflexivity).
  exact (fill_cycle_one_valid_one_unknown
           (example_session [reply_with ["a.mp4"; "zz.mp4"]])
           {| error := None; raw := None;
              selections := [pick_clip "a.mp4"; pick_clip "zz.mp4"];
              narrative_note := None; suggested_direction := None |}
           (pick_clip "a.mp4") (pick_clip "zz.mp4")
           Hreply eq_refl (or_introl eq_refl) Hknown Hunknown).
Defined.

(** C10, as stated, fails: a response that lists [a.mp4], which the manifest
    knows, and [zz.mp4], which it does not, and that also carries an
    ["error"] entry, is reported as a selection error; [zz.mp4] is logged as
    dropped and no enqueue call is made at all. *)
Lemma fill_cycle_with_error_entry_enqueues_nothing :
  let r := {| error := Some "low confidence"; raw := None;
              selections := [pick_clip "a.mp4"; pick_clip "zz.mp4"];
              narrative_note := None; suggested_direction := None |} in
  let o := example_session [ReplyJson r] in
  let run := _fill_buffer o in
  known (manifest (selector o)) "a.mp4" = true
  /\ known (manifest (selector o)) "zz.mp4" = false
  /\ outcome_of run = Returned tt
  /\ List.filter is_enqueue (events_of run) = []
  /\ List.filter is_enqueue (events_of run) <> [Enqueue "a.mp4" true]
  /\ List.filter is_dropped_warning (events_of run)
     = [Printed (WarnNonexistentClip "zz.mp4")]
  /\ In (Printed (SelectionError "low confidence")) (events_of run)
  /\ queued_filenames (state_of run) = [].
Proof.
  vm_compute. split_and!; try reflexivity; [discriminate|].
  right. left. reflexivity.
Qed.

(** C7.  The queue can hold a name twice.  A reply that lists [a.mp4] twice
    puts it in the queue twice, and when the playback client then reports
    [a.mp4] as the current file the tracking step removes one occurrence
    and leaves the other.  Likewise a reply that names [a.mp4] while it is
    queued, and so on the exclusion list handed to [select], queues it a
    second time: the reply is checked against the manifest only. *)
Theorem repeated_selection_is_queued_twice :
  let o1 := state_of (_fill_buffer
                        (example_session [reply_with ["a.mp4"; "a.mp4"]])) in
  let o2 := state_of (_fill_buffer
                        (example_session [reply_with ["a.mp4"];
                                          reply_with ["a.mp4"]])) in
  let o3 := state_of (_fill_buffer o2) in
  (queued_filenames o1 = ["a.mp4"; "a.mp4"]
   /\ ~ NoDup (queued_filenames o1)
   /\ Playback.filename (get_status (playback o1)).1 = PStr "a.mp4"
   /\ queued_filenames (state_of (update_played_tracking o1)) = ["a.mp4"]
   /\ "a.mp4" ∈ queued_filenames (state_of (update_played_tracking o1)))
  /\ (queued_filenames o2 = ["a.mp4"]
      /\ "a.mp4" ∈ exclusion o2
      /\ queued_filenames o3 = ["a.mp4"; "a.mp4"]
      /\ ~ NoDup (queued_filenames o3)).
Proof.
  vm_compute. split_and!; try reflexivity.
  - intros Hnd. apply NoDup_cons in Hnd as [Hnot _]. apply Hnot. by left.
  - by left.
  - by left.
  - intros Hnd. apply NoDup_cons in Hnd as [Hnot _]. apply Hnot. by left.
Qed.


(** With a playback client whose engine does not start, [start] returns
    [False] before any selection is made. *)
Lemma start_fails_without_engine :
  let run := start (new_orchestrator default_config example_manifest
                      {| replies := [reply_with ["a.mp4"]] |} no_engine) in
  outcome_of run = Returned false
  /\ running (state_of run) = false
  /\ events_of run = [Printed StartingOrchestrator; Printed FailedToStartMpv].
Proof. vm_compute. done. Qed.

(** C8.  After a fill cycle that queued [a.mp4], the scheduler's queue holds
    one name while the context snapshot built for the next selection reports
    a queued count of 0: [to_context] counts
    [NarrativeState.current_queue], which the orchestrator never writes. *)
Theorem context_queued_count_ignores_queue :
  let o1 := state_of (_fill_buffer (example_session [reply_with ["a.mp4"]])) in
  queued_filenames o1 = ["a.mp4"]
  /\ length (queued_filenames o1) = 1
  /\ cx_queued_count (to_context (state (selector o1))) = 0.
Proof. vm_compute. done. Qed.

End OrchestratorFacts.

(** ** Manifest queries *)

Module ManifestQueriesFacts.
Import Manifest ManifestQueries Selector.

(** *** Strings *)

Lemma append_cons c (a b : string) :
  String.append (String c a) b = String c (String.append a b).
Proof. reflexivity. Qed.

Lemma str_len_append (a b : string) :
  str_len (String.append a b) = str_len a + str_len b.
Proof.
  induction a as [|c a IH]; [done|]. rewrite append_cons. cbn [str_len].
  destruct (is_continuation c); [done|]. by rewrite IH.
Qed.

(** A prefix of [n] characters has [n] characters, or all of them when the
    string has fewer. *)
Lemma str_len_prefix n (s : string) :
  str_len (str_prefix n s) = Nat.min n (str_len s).
Proof.
  revert n. induction s as [|c s IH]; intros n; cbn [str_prefix str_len].
  - by rewrite Nat.min_0_r.
  - destruct (is_continuation c) eqn:Hc.
    + cbn [str_len]. rewrite Hc. apply IH.
    + destruct n as [|n]; [done|]. cbn [str_len]. rewrite Hc, IH. done.
Qed.

(** The prefix is an initial part of the string, and what follows it starts
    a new character. *)
Lemma str_prefix_split n (s : string) :
  n < str_len s ->
  exists ch rest,
    s = String.append (str_prefix n s) (String ch rest)
    /\ is_continuation ch = false.
Proof.
  revert n. induction s as [|c s IH]; intros n; cbn [str_prefix str_len].
  - lia.
  - destruct (is_continuation c) eqn:Hc.
    + intros Hlt. destruct (IH n Hlt) as (ch & rest & Heq & Hch).
      exists ch, rest. split; [|done]. rewrite append_cons. by rewrite <- Heq.
    + destruct n as [|n].
      * intros _. by exists c, s.
      * intros Hlt. destruct (IH n) as (ch & rest & Heq & Hch); [lia|].
        exists ch, rest. split; [|done]. rewrite append_cons. by rewrite <- Heq.
Qed.

(** On ASCII text characters are bytes. *)
Lemma str_len_ascii (s : string) :
  ascii_only s = true -> str_len s = String.length s.
Proof.
  induction s as [|c s IH]; cbn [ascii_only str_len String.length]; [done|].
  intros [Hc Hs]%andb_true_iff. unfold is_continuation.
  apply Nat.ltb_lt in Hc.
  replace (128 <=? nat_of_ascii c)%nat with false
    by (symmetry; apply Nat.leb_gt; lia).
  cbn [andb]. by rewrite IH.
Qed.

(** [String.prefix] and [contains] decide what their names say. *)
Lemma prefix_spec (k s : string) :
  String.prefix k s = true <-> exists after, s = String.append k after.
Proof.
  revert s. induction k as [|a k IH]; intros s.
  - destruct s; cbn; (split; [intros _; by eexists|done]).
  - destruct s as [|b s]; rewrite ?append_cons; cbn [String.prefix].
    + split; [done|]. by intros [after Heq].
    + destruct (Ascii.ascii_dec a b) as [->|Hne].
      * rewrite IH.
        split; intros [after Heq]; exists after; rewrite append_cons in *;
          congruence.
      * split; [done|]. intros [after Heq]. rewrite append_cons in Heq.
        congruence.
Qed.

Lemma contains_spec (k s : string) :
  Selector.contains k s = true <-> occurs_in k s.
Proof.
  unfold occurs_in. induction s as [|c s IH]; cbn [Selector.contains];
    rewrite orb_true_iff, prefix_spec.
  - split.
    + intros [[after Heq]|]; [|done]. by exists EmptyString, after.
    + intros ([|b before] & after & Heq); [left; by exists after|done].
  - rewrite IH. split.
    + intros [[after Heq]|(before & after & Heq)].
      * by exists EmptyString, after.
      * exists (String c before), after. rewrite append_cons. by rewrite Heq.
    + intros ([|b before] & after & Heq).
      * left. by exists after.
      * right. exists before, after. rewrite append_cons in Heq. congruence.
Qed.

Lemma contains_false (k s : string) :
  Selector.contains k s = false <-> ~ occurs_in k s.
Proof.
  rewrite <- contains_spec. by destruct (Selector.contains k s).
Qed.

Lemma lower_ascii_idemp c : lower_ascii (lower_ascii c) = lower_ascii c.
Proof.
  destruct c as [[] [] [] [] [] [] [] []]; reflexivity.
Qed.

Lemma lower_idemp (s : string) : lower (lower s) = lower s.
Proof.
  induction s as [|c s IH]; simpl; [done|]. by rewrite lower_ascii_idemp, IH.
Qed.

(** *** Lookup by filename *)

Lemma index_clips_lookup cs name (acc : gmap string Clip) :
  foldl (fun m c => <[filename c := c]> m) acc cs !! name
  = match last (List.filter (fun c => String.eqb (filename c) name) cs) with
    | Some c => Some c
    | None => acc !! name
    end.
Proof.
  revert acc. induction cs as [|c cs IH]; intros acc; [done|].
  cbn [foldl List.filter]. rewrite IH.
  destruct (String.eqb_spec (filename c) name) as [Heq|Hne].
  - destruct (List.filter _ cs) as [|c' l] eqn:Hf.
    + cbn. by rewrite Heq, lookup_insert_eq.
    + rewrite last_cons_cons. destruct (last (c' :: l)) eqn:Hl; [done|].
      by apply last_None in Hl.
  - destruct (last (List.filter _ cs)); [done|].
    by rewrite lookup_insert_ne.
Qed.

(** X1.  [get_clip] returns the last clip of the manifest list that carries
    the name, and [None] exactly when no clip carries it: of clips sharing
    a filename only the last can be looked up. *)
Theorem get_clip_is_last_with_name (m : ManifestLoader) (name : string) :
  get_clip m name
  = last (List.filter (fun c => String.eqb (filename c) name) (clips m))
  /\ (get_clip m name = None <-> name ∉ map filename (clips m)).
Proof.
  assert (Hlast : get_clip m name
    = last (List.filter (fun c => String.eqb (filename c) name) (clips m))).
  { unfold get_clip, clips_by_filename, index_clips.
    rewrite index_clips_lookup, lookup_empty. by destruct (last _). }
  split; [done|]. rewrite Hlast, last_None. split.
  - intros Hnil (c & Hc & Hin)%list_elem_of_fmap.
    assert (Hc' : In c (List.filter (fun c => String.eqb (filename c) name) (clips m))).
    { apply filter_In. split; [by apply list_elem_of_In|].
      by apply String.eqb_eq. }
    by rewrite Hnil in Hc'.
  - intros Hnot.
    destruct (List.filter _ (clips m)) as [|c l] eqn:Hf; [done|].
    exfalso. apply Hnot.
    assert (Hc : In c (List.filter (fun c => String.eqb (filename c) name) (clips m)))
      by (rewrite Hf; by left).
    apply filter_In in Hc as [Hin Heq%String.eqb_eq].
    apply list_elem_of_fmap. exists c. split; [done|]. by apply list_elem_of_In.
Qed.

(** X2.  The context handed to the selector carries the first 5 subjects,
    the first 8 tags and the first 4 colours of the clip, all of them when
    there are fewer.  A missing transcript stays missing and a transcript
    of at most 100 characters is passed on unchanged; a longer one is cut
    after its first 100 characters, three dots taking the place of the
    rest.  The other fields are those of the clip. *)
Theorem selector_context_is_bounded (c : Clip) :
  let ctx := to_selector_context c in
  (ctx_subjects ctx `prefix_of` subjects c
   /\ length (ctx_subjects ctx) = Nat.min 5 (length (subjects c)))
  /\ (ctx_tags ctx `prefix_of` suggested_tags c
      /\ length (ctx_tags ctx) = Nat.min 8 (length (suggested_tags c)))
  /\ (ctx_colors ctx `prefix_of` dominant_colors c
      /\ length (ctx_colors ctx) = Nat.min 4 (length (dominant_colors c)))
  /\ (speech_transcript c = None -> ctx_speech_preview ctx = None)
  /\ (forall t, speech_transcript c = Some t -> str_len t <= 100 ->
                ctx_speech_preview ctx = Some t)
  /\ (forall t, speech_transcript c = Some t -> 100 < str_len t ->
        exists head ch rest,
          t = String.append head (String ch rest)
          /\ is_continuation ch = false
          /\ str_len head = 100
          /\ ctx_speech_preview ctx = Some (String.append head "..."))
  /\ ctx_filename ctx = filename c
  /\ ctx_duration ctx = duration c
  /\ ctx_description ctx = description c
  /\ ctx_mood ctx = mood c
  /\ ctx_setting ctx = setting c
  /\ ctx_has_speech ctx = has_speech c
  /\ ctx_motion ctx = motion_intensity c.
Proof.
  intros ctx. subst ctx. unfold to_selector_context.
  cbn [ctx_subjects ctx_tags ctx_colors ctx_speech_preview ctx_filename
       ctx_duration ctx_description ctx_mood ctx_setting ctx_has_speech
       ctx_motion].
  rewrite !length_take. split_and!; try done; try apply prefix_take.
  - by intros ->.
  - intros t -> Hlen.
    replace (100 <? str_len t)%nat with false
      by (symmetry; apply Nat.ltb_ge; lia).
    by rewrite andb_false_r.
  - intros t -> Hlen.
    replace (100 <? str_len t)%nat with true
      by (symmetry; apply Nat.ltb_lt; lia).
    replace (str_truthy t) with true by (destruct t; [cbn in Hlen; lia|done]).
    cbn [andb].
    destruct (str_prefix_split 100 t Hlen) as (ch & rest & Heq & Hch).
    exists (str_prefix 100 t), ch, rest. split_and!; [done|done| |done].
    rewrite str_len_prefix. lia.
Qed.

(** *** Tag filter *)

Lemma filter_sublist_impl {A} (f g : A -> bool) (l : list A) :
  (forall x, f x = true -> g x = true) ->
  List.filter f l `sublist_of` List.filter g l.
Proof.
  intros Himpl. induction l as [|x l IH]; [done|]. simpl.
  destruct (f x) eqn:Hf.
  - rewrite (Himpl x Hf). by apply sublist_skip.
  - destruct (g x); [by apply sublist_cons|done].
Qed.

(** X3.  With an empty tag list [filter_by_tags] returns every clip when
    all tags must match and no clip when any tag may match; with a
    non-empty list the clips matching all tags are among the clips matching
    any, in manifest order; and the case of the given tags does not
    matter. *)
Theorem filter_by_tags_edges (m : ManifestLoader) (tags : list string) :
  filter_by_tags m [] true = clips m
  /\ filter_by_tags m [] false = []
  /\ (tags <> [] ->
      filter_by_tags m tags true `sublist_of` filter_by_tags m tags false)
  /\ (forall match_all,
        filter_by_tags m (map lower tags) match_all
        = filter_by_tags m tags match_all).
Proof.
  unfold filter_by_tags. split_and!.
  - apply SamplerFacts.filter_all. done.
  - apply SamplerFacts.filter_none. done.
  - intros Hne. apply filter_sublist_impl. intros c. unfold clip_matches.
    destruct tags as [|t tags]; [done|]. cbn [map forallb existsb].
    intros [-> _]%andb_true_iff. done.
  - intros match_all. rewrite map_map.
    f_equal. f_equal. apply map_ext. intros t. apply lower_idemp.
Qed.

(** *** Motion buckets *)

Lemma motion_key_cases c :
  motion_key c = "low" \/ motion_key c = "medium" \/ motion_key c = "high".
Proof.
  unfold motion_key. cbn [existsb].
  destruct (String.eqb_spec (lower (motion_intensity c)) "low") as [->|];
    [by left|].
  destruct (String.eqb_spec (lower (motion_intensity c)) "medium") as [->|];
    [by (right; left)|].
  destruct (String.eqb_spec (lower (motion_intensity c)) "high") as [->|];
    [by (right; right)|].
  by (right; left).
Qed.

Lemma motion_key_recognised c key :
  key = "low" \/ key = "high" ->
  String.eqb (motion_key c) key
  = String.eqb (lower (motion_intensity c)) key.
Proof.
  unfold motion_key. cbn [existsb].
  intros Hkey.
  destruct (String.eqb_spec (lower (motion_intensity c)) "low") as [->|Hl];
    [done|].
  destruct (String.eqb_spec (lower (motion_intensity c)) "medium") as [->|Hm];
    [done|].
  destruct (String.eqb_spec (lower (motion_intensity c)) "high") as [->|Hh];
    [done|]. cbn.
  destruct Hkey as [-> | ->].
  - by rewrite (proj2 (String.eqb_neq _ _) Hl).
  - by rewrite (proj2 (String.eqb_neq _ _) Hh).
Qed.

(** X4.  The three motion buckets of the sampler split the pool: every clip
    falls in exactly one of them, so their sizes add up to the size of the
    pool.  The low and high buckets are what [filter_by_motion] returns for
    that intensity in any letter case, while the medium bucket also takes
    the clips whose intensity is not recognised. *)
Theorem motion_buckets_partition (m : ManifestLoader) (intensity : string) :
  length (by_motion "low" (clips m)) + length (by_motion "medium" (clips m))
  + length (by_motion "high" (clips m)) = length (clips m)
  /\ (lower intensity = "low" \/ lower intensity = "high" ->
      filter_by_motion m intensity = by_motion (lower intensity) (clips m))
  /\ filter_by_motion m "medium" `sublist_of` by_motion "medium" (clips m).
Proof.
  split_and!.
  - unfold by_motion. induction (clips m) as [|c cs IH]; [done|].
    cbn [List.filter length].
    destruct (motion_key_cases c) as [-> | [-> | ->]]; cbn; lia.
  - intros Hkey. unfold filter_by_motion, by_motion.
    apply filter_ext. intros c. by rewrite motion_key_recognised.
  - unfold filter_by_motion, by_motion. apply filter_sublist_impl.
    intros c Hc%String.eqb_eq. apply String.eqb_eq.
    unfold motion_key. cbn [existsb]. cbn in Hc. rewrite Hc. done.
Qed.

(** *** Counting moods and tags *)

Lemma count_get_set d k n k' :
  count_get (count_set d k n) k'
  = if String.eqb k k' then n else count_get d k'.
Proof.
  induction d as [|[a v] d IH]; cbn [count_set count_get]; [done|].
  destruct (String.eqb_spec a k) as [->|Hak]; cbn [count_get].
  - by destruct (String.eqb k k').
  - rewrite IH. destruct (String.eqb_spec a k') as [->|]; [|done].
    by rewrite (proj2 (String.eqb_neq _ _)) by congruence.
Qed.

Lemma count_set_keys d k n :
  map fst (count_set d k n)
  = if str_in k (map fst d) then map fst d else map fst d ++ [k].
Proof.
  induction d as [|[a v] d IH]; cbn [count_set map fst str_in existsb]; [done|].
  rewrite (String.eqb_sym k a).
  destruct (String.eqb_spec a k) as [->|Hak]; cbn [map fst orb]; [done|].
  rewrite IH. unfold str_in. by destruct (existsb _ _).
Qed.

Lemma str_in_true k l : str_in k l = true <-> k ∈ l.
Proof.
  unfold str_in. rewrite existsb_exists. split.
  - intros (x & Hx%list_elem_of_In & ->%String.eqb_eq). done.
  - intros Hin. exists k. by rewrite <- list_elem_of_In, String.eqb_refl.
Qed.

Lemma tally_spec keys :
  (forall k, count_get (tally keys) k = occurrences k keys)
  /\ NoDup (map fst (tally keys)).
Proof.
  unfold tally, occurrences.
  enough (Hgen : forall d,
            NoDup (map fst d) ->
            (forall k, count_get (foldl (fun d key => count_set d key (count_get d key + 1)) d keys) k
                       = (count_get d k + Z.of_nat (length (List.filter (String.eqb k) keys)))%Z)
            /\ NoDup (map fst (foldl (fun d key => count_set d key (count_get d key + 1)) d keys))).
  { destruct (Hgen []) as [Hc Hn]; [constructor|]. split; [|done].
    intros k. by rewrite Hc. }
  induction keys as [|key keys IH]; intros d Hnd; cbn [foldl List.filter].
  - split; [intros k; cbn; lia|done].
  - destruct (IH (count_set d key (count_get d key + 1))) as [Hc Hn].
    { rewrite count_set_keys. destruct (str_in key (map fst d)) eqn:Hin; [done|].
      apply NoDup_app. split_and!; [done| |apply NoDup_singleton].
      intros x Hx ->%list_elem_of_singleton.
      apply str_in_true in Hx. congruence. }
    split; [|done]. intros k. rewrite Hc, count_get_set.
    rewrite (String.eqb_sym k key).
    destruct (String.eqb_spec key k) as [->|]; cbn [length]; lia.
Qed.

Lemma insert_by_count_perm x l : insert_by_count x l ≡ₚ x :: l.
Proof.
  induction l as [|y l IH]; cbn [insert_by_count]; [done|].
  destruct (x.2 <? y.2)%Z; [|done]. rewrite IH. apply Permutation_swap.
Qed.

Lemma sort_by_count_perm d : sort_by_count d ≡ₚ d.
Proof.
  induction d as [|x d IH]; [done|]. cbn [sort_by_count foldr].
  rewrite insert_by_count_perm. by constructor.
Qed.

Lemma insert_by_count_sorted x l :
  Sorted count_ge l -> Sorted count_ge (insert_by_count x l).
Proof.
  induction 1 as [|y l Hs IH Hhd]; cbn [insert_by_count].
  - by repeat constructor.
  - destruct (Z.ltb_spec x.2 y.2) as [Hlt|Hge].
    + constructor; [done|].
      destruct l as [|z l]; cbn [insert_by_count].
      * constructor. unfold count_ge. lia.
      * destruct (x.2 <? z.2)%Z.
        -- constructor. by inversion Hhd.
        -- constructor. unfold count_ge. lia.
    + constructor; [by constructor|]. constructor. unfold count_ge. lia.
Qed.

Lemma sort_by_count_sorted d : Sorted count_ge (sort_by_count d).
Proof.
  induction d as [|x d IH]; [constructor|]. by apply insert_by_count_sorted.
Qed.

(** With distinct keys, a lookup finds the entry of the key wherever it is. *)
Lemma count_get_elem d k n :
  NoDup (map fst d) -> (k, n) ∈ d -> count_get d k = n.
Proof.
  induction d as [|[a v] d IH]; cbn [map fst count_get]; [by intros _ ?%elem_of_nil|].
  intros [Ha Hnd]%NoDup_cons [[= -> ->]|Hin]%elem_of_cons.
  - by rewrite String.eqb_refl.
  - destruct (String.eqb_spec a k) as [->|]; [|by apply IH].
    exfalso. apply Ha. apply list_elem_of_fmap. by exists (k, n).
Qed.

Lemma count_get_absent d k : k ∉ map fst d -> count_get d k = 0%Z.
Proof.
  induction d as [|[a v] d IH]; cbn [map fst count_get]; [done|].
  intros Hnot. destruct (String.eqb_spec a k) as [->|].
  - exfalso. apply Hnot. by left.
  - apply IH. intros Hin. apply Hnot. by right.
Qed.

Lemma count_get_perm d d' k :
  NoDup (map fst d) -> d ≡ₚ d' -> count_get d k = count_get d' k.
Proof.
  intros Hnd Hperm.
  assert (Hnd' : NoDup (map fst d')) by (by rewrite <- Hperm).
  destruct (decide (k ∈ map fst d)) as [Hin|Hnot].
  - apply list_elem_of_fmap in Hin as ([k' n] & -> & Hin). cbn.
    rewrite (count_get_elem d k' n) by done.
    symmetry. apply count_get_elem; [done|]. by rewrite <- Hperm.
  - rewrite (count_get_absent d) by done.
    symmetry. apply count_get_absent. by rewrite <- Hperm.
Qed.

Lemma tally_keys keys k : k ∈ map fst (tally keys) <-> k ∈ keys.
Proof.
  unfold tally.
  enough (Hgen : forall d,
            k ∈ map fst (foldl (fun d key => count_set d key (count_get d key + 1)) d keys)
            <-> k ∈ map fst d \/ k ∈ keys).
  { rewrite Hgen. cbn. split; [intros [[]%elem_of_nil|]; done|by right]. }
  induction keys as [|key keys IH]; intros d; cbn [foldl].
  - split; [by left|]. by intros [|[]%elem_of_nil].
  - rewrite IH, count_set_keys, elem_of_cons.
    destruct (str_in key (map fst d)) eqn:Hin.
    + apply str_in_true in Hin. split; [tauto|].
      intros [|[->|]]; tauto.
    + rewrite elem_of_app, list_elem_of_singleton. tauto.
Qed.

Lemma sorted_tally keys :
  let r := sort_by_count (tally keys) in
  (forall k, count_get r k = occurrences k keys)
  /\ NoDup (map fst r)
  /\ Sorted count_ge r
  /\ (forall k, k ∈ map fst r <-> k ∈ keys).
Proof.
  intros r. subst r. destruct (tally_spec keys) as [Hc Hn].
  pose proof (sort_by_count_perm (tally keys)) as Hperm.
  split_and!.
  - intros k. rewrite <- Hc. symmetry. by apply count_get_perm.
  - by rewrite Hperm.
  - apply sort_by_count_sorted.
  - intros k. rewrite Hperm. apply tally_keys.
Qed.

(** X5.  [get_all_moods] lists every mood of the manifest once, with the
    number of clips that carry it, larger counts first; [get_all_tags] does
    the same for tags, counting every occurrence in every clip's tag
    list.  A mood or tag that no clip carries is not listed. *)
Theorem mood_and_tag_counts (m : ManifestLoader) :
  let moods := map mood (clips m) in
  let tags := concat (map suggested_tags (clips m)) in
  ((forall k, count_get (get_all_moods m) k = occurrences k moods)
   /\ NoDup (map fst (get_all_moods m))
   /\ Sorted count_ge (get_all_moods m)
   /\ (forall k, k ∈ map fst (get_all_moods m) <-> k ∈ moods))
  /\ ((forall k, count_get (get_all_tags m) k = occurrences k tags)
      /\ NoDup (map fst (get_all_tags m))
      /\ Sorted count_ge (get_all_tags m)
      /\ (forall k, k ∈ map fst (get_all_tags m) <-> k ∈ tags)).
Proof. split; apply sorted_tally. Qed.

(** X26.  The mood filter keeps, in manifest order and as often as they
    are listed, exactly the clips whose lowercased mood has one of the
    lowercased keywords as a substring (for ASCII keywords and moods, on
    which [lower] is [str.lower]): none for an empty keyword list, every
    clip when the empty keyword is among them, and more keywords never
    remove a clip.  The speech filter splits the manifest: each clip is in
    exactly one of its two results, in manifest order.  A selector batch
    is the conversion of the first [max_clips] clips. *)
Theorem mood_speech_and_batch_filters (m : ManifestLoader) :
  filter_by_mood m [] = []
  /\ (forall kws, "" ∈ kws -> filter_by_mood m kws = clips m)
  /\ (forall kws kws',
        filter_by_mood m kws `sublist_of` filter_by_mood m (kws ++ kws')
        /\ filter_by_mood m kws `sublist_of` clips m)
  /\ (forall kws (keep : Clip -> bool),
        Forall (fun kw => ascii_only kw = true) kws ->
        Forall (fun c => ascii_only (mood c) = true) (clips m) ->
        (forall c, keep c = true
                   <-> exists kw, kw ∈ kws
                                  /\ occurs_in (lower kw) (lower (mood c))) ->
        filter_by_mood m kws = List.filter keep (clips m))
  /\ (forall kws c,
        Forall (fun kw => ascii_only kw = true) kws ->
        ascii_only (mood c) = true ->
        (c ∈ filter_by_mood m kws
         <-> c ∈ clips m
             /\ exists kw, kw ∈ kws
                           /\ occurs_in (lower kw) (lower (mood c))))
  /\ (forall b,
        filter_has_speech m b `sublist_of` clips m
        /\ Forall (fun c => has_speech c = b) (filter_has_speech m b))
  /\ length (filter_has_speech m true) + length (filter_has_speech m false)
     = length (clips m)
  /\ (forall cs n,
        get_selector_batch cs n = take n (map to_selector_context cs)
        /\ length (get_selector_batch cs n) = Nat.min n (length cs)).
Proof.
  assert (Hsub : forall (f : Clip -> bool) l, List.filter f l `sublist_of` l).
  { intros f l. induction l as [|x l IH]; [done|]. simpl.
    destruct (f x); [by apply sublist_skip|by apply sublist_cons]. }
  assert (Hmatch : forall kws c,
            existsb (fun kw => Selector.contains kw (lower (mood c)))
                    (map lower kws) = true
            <-> exists kw, kw ∈ kws /\ occurs_in (lower kw) (lower (mood c))).
  { intros kws c. rewrite existsb_exists. split.
    - intros (k & Hin & Hk). apply in_map_iff in Hin as (kw & <- & Hin).
      exists kw. split; [by apply list_elem_of_In|by apply contains_spec].
    - intros (kw & Hin & Hocc). exists (lower kw). split.
      + apply in_map. by apply list_elem_of_In.
      + by apply contains_spec. }
  split_and!.
  - unfold filter_by_mood. by apply SamplerFacts.filter_none.
  - intros kws Hin. unfold filter_by_mood. apply SamplerFacts.filter_all.
    intros c _. apply existsb_exists. exists "". split.
    + apply list_elem_of_In. apply (list_elem_of_fmap_2 lower) in Hin. exact Hin.
    + by destruct (lower (mood c)).
  - intros kws kws'. split; [|apply Hsub].
    unfold filter_by_mood. apply filter_sublist_impl. intros c.
    rewrite map_app, existsb_app. by intros ->.
  - intros kws keep _ _ Hkeep. unfold filter_by_mood.
    apply filter_ext. intros c.
    apply Bool.eq_true_iff_eq. by rewrite Hmatch, Hkeep.
  - intros kws c _ _. unfold filter_by_mood.
    rewrite list_elem_of_In, filter_In, <- list_elem_of_In. by rewrite Hmatch.
  - intros b. split; [apply Hsub|].
    apply Forall_forall. intros c [_ Hc]%list_elem_of_In%filter_In.
    by apply Bool.eqb_prop in Hc.
  - unfold filter_has_speech.
    rewrite <- (filter_length (fun c => Bool.eqb (has_speech c) true) (clips m)).
    f_equal. f_equal. apply filter_ext. intros c. by destruct (has_speech c).
  - intros cs n. unfold get_selector_batch. split.
    + apply fmap_take.
    + rewrite length_map, length_take. done.
Qed.

End ManifestQueriesFacts.

(** ** Selector controls and context *)

Module SelectorControlsFacts.
Import Manifest Narrative Selector SelectorControls SelectorFacts.

Lemma Qle_bool_false x y : Qle_bool x y = false -> (y < x)%Q.
Proof.
  intros Hf. apply Qnot_le_lt. intros Hle%Qle_bool_iff. congruence.
Qed.

Lemma last_n_last_n {A} n k (l : list A) :
  n <= k -> last_n n (last_n k l) = last_n n l.
Proof.
  intros Hnk. unfold last_n. rewrite length_drop, drop_drop. f_equal. lia.
Qed.

(** X7.  After any sequence of [add_played] and [add_feedback] calls the
    context snapshot shows 5 played entries, 5 moods and the texts of 5
    feedback entries, or all of them when fewer were recorded, and they are
    the end of what was recorded, in call order. *)
Theorem context_shows_last_five (cs : list store_call) :
  let ctx := to_context (run_calls cs initial_state) in
  (cx_recently_played ctx `suffix_of` played_of cs
   /\ length (cx_recently_played ctx) = Nat.min 5 (length (played_of cs)))
  /\ (cx_mood_trajectory ctx `suffix_of` moods_of cs
      /\ length (cx_mood_trajectory ctx) = Nat.min 5 (length (moods_of cs)))
  /\ (cx_recent_feedback ctx `suffix_of` map fe_text (feedback_of cs)
      /\ length (cx_recent_feedback ctx)
         = Nat.min 5 (length (feedback_of cs))).
Proof.
  intros ctx. subst ctx.
  destruct (NarrativeFacts.run_calls_logs cs) as (H1 & H2 & H3).
  cbn zeta in H1, H2, H3. unfold to_context, get_recent_feedback.
  cbn [cx_recently_played cx_mood_trajectory cx_recent_feedback].
  rewrite H1, H2, H3, !last_n_last_n by lia.
  rewrite length_map, !last_n_length.
  split_and!; try done; unfold last_n; rewrite ?fmap_drop, ?length_map;
    apply suffix_drop.
Qed.

Lemma list_filter_sublist {A} (f : A -> bool) (l : list A) :
  List.filter f l `sublist_of` l.
Proof.
  induction l as [|x l IH]; [done|]. simpl.
  destruct (f x); [by apply sublist_skip|by apply sublist_cons].
Qed.

Lemma clamp_cases (level : Q) :
  ((1 <= level)%Q /\ py_max 0 (py_min 1 level) = 1%Q)
  \/ ((level <= 0)%Q /\ py_max 0 (py_min 1 level) = 0%Q)
  \/ ((0 < level)%Q /\ (level < 1)%Q /\ py_max 0 (py_min 1 level) = level).
Proof.
  unfold py_min. destruct (Qle_bool 1 level) eqn:H1; cbn [negb].
  - left. by apply Qle_bool_iff in H1.
  - right. apply Qle_bool_false in H1. unfold py_max.
    destruct (Qle_bool level 0) eqn:H0; cbn [negb].
    + left. by apply Qle_bool_iff in H0.
    + right. by apply Qle_bool_false in H0.
Qed.

Section WithEnvironment.
Context {E : Type} `{Environment E}.

(** X6.  [set_coherence] stores a level between 0 and 1: a level in that
    range is stored as it is, a level at or below 0 is stored as 0, which
    [_coherence_description] describes as pure dream logic, a level at or
    above 1 is stored as 1, described as strict narrative.  Nothing else of
    the selector changes. *)
Theorem set_coherence_clamps (level : Q) (s : Selector E) :
  let s' := (set_coherence level s).1 in
  let stored := coherence_level (state s') in
  ((0 <= stored)%Q /\ (stored <= 1)%Q)
  /\ ((0 <= level)%Q -> (level <= 1)%Q -> (stored == level)%Q)
  /\ ((level <= 0)%Q ->
      stored = 0%Q
      /\ _coherence_description stored
         = "PURE DREAM LOGIC: Connections can be abstract, emotional, symbolic. Visual/thematic rhymes are valid. No need for literal continuity.")
  /\ ((1 <= level)%Q ->
      stored = 1%Q
      /\ _coherence_description stored
         = "STRICT NARRATIVE: Strong continuity required. Clips should clearly relate to and advance the established story.")
  /\ set_state (set_coherence_level (coherence_level (state s)) (state s')) s' = s.
Proof.
  intros s' stored. subst s' stored. unfold set_coherence.
  cbn [fst snd state set_state coherence_level set_coherence_level].
  assert (Hback : forall q,
    set_state (set_coherence_level (coherence_level (state s))
                 (set_coherence_level q (state s)))
      (set_state (set_coherence_level q (state s)) s) = s)
    by (intros q; by destruct s as [m e []]).
  destruct (clamp_cases level) as [[H1 ->]|[(H0 & ->)|(H0 & H1 & ->)]].
  - split_and!; try done; intros; try lra; exfalso; lra.
  - split_and!; try done; intros; try lra; exfalso; lra.
  - split_and!; try done; intros; try lra; exfalso; lra.
Qed.

(** X8.  On ASCII feedback, where [lower] is [str.lower],
    [process_feedback] returns normally and records the feedback as the
    newest entry of the history, which keeps its 10 most recent entries;
    played entries, moods and coherence stay as they are.  The direction
    becomes the one of the first keyword of the table that occurs in the
    lower-cased feedback, which is then printed once; when no keyword
    occurs, the direction stays and nothing is printed. *)
Theorem process_feedback_first_keyword_wins (feedback : string) (s : Selector E) :
  ascii_only feedback = true ->
  let run := process_feedback feedback s in
  let st := state (state_of run) in
  let entry := feedback_entry feedback (now (env s)).1 in
  outcome_of run = Returned tt
  /\ manifest (state_of run) = manifest s
  /\ (feedback_history st `suffix_of` feedback_history (state s) ++ [entry]
      /\ length (feedback_history st)
         = Nat.min 10 (S (length (feedback_history (state s))))
      /\ last (feedback_history st) = Some entry)
  /\ recently_played st = recently_played (state s)
  /\ mood_trajectory st = mood_trajectory (state s)
  /\ coherence_level st = coherence_level (state s)
  /\ (forall earlier keyword d later,
        direction_keywords = earlier ++ (keyword, d) :: later ->
        occurs_in keyword (lower feedback) ->
        (forall k, k ∈ map fst earlier -> ~ occurs_in k (lower feedback)) ->
        direction st = d /\ events_of run = [Printed (DirectionUpdated d)])
  /\ ((forall k, k ∈ map fst direction_keywords ->
                 ~ occurs_in k (lower feedback)) ->
      direction st = direction (state s) /\ events_of run = []).
Proof.
  intros _ run st entry. subst run st entry.
  assert (Hhistory : forall (l : list FeedbackEntry) x,
            last_n 10 (l ++ [x]) `suffix_of` l ++ [x]
            /\ length (last_n 10 (l ++ [x])) = Nat.min 10 (S (length l))
            /\ last (last_n 10 (l ++ [x])) = Some x).
  { intros l x. split_and!.
    - unfold last_n. apply suffix_drop.
    - rewrite last_n_length, length_app. cbn [length]. lia.
    - apply last_n_last. lia. }
  unfold process_feedback, bind, call, modify, print, emit, ret.
  destruct (now (env s)) as [t e']. cbn [fst].
  destruct (List.find _ direction_keywords) as [[k0 d0]|] eqn:Hfind.
  - cbn. split_and!; try done; try apply Hhistory.
    + intros earlier keyword d later Htable Hk Hearlier.
      apply ManifestQueriesFacts.contains_spec in Hk.
      rewrite Htable in Hfind.
      assert (Hfirst : List.find (fun kd => contains kd.1 (lower feedback))
                         (earlier ++ (keyword, d) :: later) = Some (keyword, d)).
      { clear -Hk Hearlier. induction earlier as [|[k' d'] earlier IH]; cbn.
        - by rewrite Hk.
        - rewrite (proj2 (ManifestQueriesFacts.contains_false k' _))
            by (apply Hearlier; by left).
          apply IH. intros k Hin. apply Hearlier. by right. }
      rewrite Hfirst in Hfind. by injection Hfind as <- <-.
    + intros Hnone. apply find_some in Hfind as [Hin Hc]. cbn in Hc.
      apply ManifestQueriesFacts.contains_spec in Hc.
      exfalso. apply (Hnone k0); [|done].
      apply list_elem_of_In.
      exact (in_map fst direction_keywords (k0, d0) Hin).
  - cbn. split_and!; try done; try apply Hhistory.
    intros earlier keyword d later Htable Hk _.
    apply ManifestQueriesFacts.contains_spec in Hk.
    pose proof (find_none _ _ Hfind (keyword, d)) as Hnot. cbn in Hnot.
    rewrite Hnot in Hk; [done|].
    change (In (keyword, d) direction_keywords). rewrite Htable. apply in_elt.
Qed.

(** X9.  What [select] returns is decided by the reply.  From a decoded
    object it returns the object with its selections replaced by those the
    manifest knows, all of them and in the order of the reply, and warns
    once for each of the others; so every selection returned is known to
    the manifest.  A reply with no JSON in it, or no clip left to offer,
    gives a result with an error entry and no selection.  It raises when
    the LLM call or the decoding raises and when the decoded JSON has
    another shape, in that case after the warnings for the selections
    checked before.  It changes neither the manifest nor the narrative
    state. *)
Theorem select_returns_only_known_clips (n : nat) (exclude : list string)
    (s : Selector E) :
  let run := select n exclude s in
  let is_known := fun sel => known (manifest s) (sel_filename sel) in
  let warning := fun sel => Printed (WarnNonexistentClip (sel_filename sel)) in
  manifest (state_of run) = manifest s
  /\ state (state_of run) = state s
  /\ (forall result, outcome_of run = Returned result ->
                     Forall (fun sel => is_known sel = true) (selections result))
  /\ match reply_received n exclude s with
     | Some (ReplyJson r) =>
         exists result,
           outcome_of run = Returned result
           /\ selections result = List.filter is_known (selections r)
           /\ error result = error r
           /\ raw result = raw r
           /\ narrative_note result = narrative_note r
           /\ suggested_direction result = suggested_direction r
           /\ events_of run
              = map warning
                  (List.filter (fun sel => negb (is_known sel)) (selections r))
     | Some (ReplyUnparseable text) =>
         exists result,
           outcome_of run = Returned result
           /\ selections result = []
           /\ error result = Some "Failed to parse LLM response"
           /\ raw result = Some text
           /\ events_of run = []
     | Some (ReplyRaises e) =>
         outcome_of run = Raised e /\ events_of run = []
     | Some (ReplyMisshapen checked e) =>
         outcome_of run = Raised e
         /\ events_of run
            = map warning
                (List.filter (fun sel => negb (is_known sel)) checked)
     | None =>
         exists result,
           outcome_of run = Returned result
           /\ selections result = []
           /\ error result = Some "No available clips"
           /\ events_of run = []
     end.
Proof.
  intros run is_known warning. subst run is_known warning.
  destruct (select_spec n exclude s) as [e' ->].
  destruct (reply_received n exclude s) as [[e|text|r|checked e]|]; cbn.
  - split_and!; try done.
  - split_and!; try done.
    + by intros result [= <-].
    + by eexists.
  - split_and!; try done.
    + intros result [= <-]. cbn.
      apply Forall_forall. intros sel Hin%list_elem_of_In%filter_In. tauto.
    + by eexists.
  - split_and!; try done.
  - split_and!; try done.
    + by intros result [= <-].
    + by eexists.
Qed.

End WithEnvironment.

Lemma process_feedback_first_keyword_wins_witness :
  let run := process_feedback "Make it DARKER"
               (Orchestrator.selector (example_session [])) in
  direction (state (state_of run)) = "exploring darker themes"
  /\ events_of run = [Printed (DirectionUpdated "exploring darker themes")].
Proof.
  pose proof (process_feedback_first_keyword_wins "Make it DARKER"
                (Orchestrator.selector (example_session [])) eq_refl)
    as Hfacts.
  cbn zeta in Hfacts. destruct Hfacts as (_ & _ & _ & _ & _ & _ & Hkw & _).
  apply (Hkw [] "darker" "exploring darker themes" (tail direction_keywords)).
  - reflexivity.
  - exists "make it ", "". reflexivity.
  - intros k Hk. by apply elem_of_nil in Hk.
Defined.

End SelectorControlsFacts.

(** ** The sample of candidates shown to the LLM *)

Module CandidateFacts.
Import Manifest Narrative Selector SelectorControls SamplerFacts.

Lemma list_eqb_refl {A} (eqb : A -> A -> bool) (l : list A) :
  (forall x, eqb x x = true) -> list_eqb eqb l l = true.
Proof. intros Hrefl. induction l as [|x l IH]; [done|]. cbn. by rewrite Hrefl. Qed.

Lemma Clip_eqb_refl c : Clip_eqb c c = true.
Proof.
  unfold Clip_eqb.
  rewrite !String.eqb_refl, !list_eqb_refl by apply String.eqb_refl.
  rewrite Qeq_bool_refl, Bool.eqb_reflx.
  destruct (speech_transcript c); by rewrite ?String.eqb_refl.
Qed.

Lemma Clip_eqb_filename a b : Clip_eqb a b = true -> filename a = filename b.
Proof.
  unfold Clip_eqb. intros H0.
  repeat (apply andb_true_iff in H0 as [H0 _]). by apply String.eqb_eq.
Qed.

(** [c in result] for clips of a pool with distinct names. *)
Lemma clip_in_result clips result c :
  NoDup (map filename clips) -> result ⊆ clips -> c ∈ clips ->
  existsb (Clip_eqb c) result = true <-> c ∈ result.
Proof.
  intros Hnd Hsub Hc. rewrite existsb_exists. split.
  - intros (x & Hx%list_elem_of_In & Heq%Clip_eqb_filename).
    by rewrite (same_name_same_clip clips c x Hnd Hc (Hsub x Hx) Heq).
  - intros Hin. exists c. split; [by apply list_elem_of_In|apply Clip_eqb_refl].
Qed.

Lemma NoDup_map_filter (f : Clip -> bool) clips :
  NoDup (map filename clips) -> NoDup (map filename (List.filter f clips)).
Proof.
  induction clips as [|c clips IH]; [done|].
  simpl. rewrite !NoDup_cons. intros [Hc Hnd].
  destruct (f c); simpl; [|by apply IH].
  rewrite NoDup_cons. split; [|by apply IH].
  intros (y & Hy & Hin)%list_elem_of_fmap. apply Hc.
  apply list_elem_of_fmap. exists y. split; [done|].
  apply list_elem_of_In. apply list_elem_of_In in Hin.
  by apply filter_In in Hin as [? _].
Qed.

(** [unused] holds the clips of the pool that are not in [result]. *)
Lemma unused_length clips result :
  NoDup (map filename clips) -> NoDup (map filename result) -> result ⊆ clips ->
  length (List.filter (fun c => negb (existsb (Clip_eqb c) result)) clips)
  + length result = length clips.
Proof.
  intros Hnd Hres Hsub.
  pose proof (filter_length (fun c => existsb (Clip_eqb c) result) clips) as Hsplit.
  enough (length (List.filter (fun c => existsb (Clip_eqb c) result) clips)
          = length result) by lia.
  rewrite <- (length_map filename), <- (length_map filename result).
  apply Permutation_length, NoDup_Permutation; [by apply NoDup_map_filter|done|].
  intros x. rewrite !list_elem_of_fmap. split.
  - intros (c & -> & [Hc Hex]%list_elem_of_In%filter_In).
    apply list_elem_of_In in Hc.
    apply (clip_in_result clips result c Hnd Hsub Hc) in Hex. by exists c.
  - intros (c & -> & Hc). exists c. split; [done|].
    apply list_elem_of_In, filter_In. split.
    + by apply list_elem_of_In, Hsub.
    + apply (clip_in_result clips result c Hnd Hsub); [by apply Hsub|done].
Qed.

Lemma by_motion_length_le key clips :
  length (by_motion key clips) <= length clips.
Proof. apply filter_length_le. Qed.

Section Sampler.
Context {E : Type} `{Environment E}.
Hypothesis Hsampler : sampler_ok E.

(** The stratified phase of [_smart_sample]: what [result] holds after the
    loop over the three buckets. *)
Lemma bucket_phase clips (k1 k2 k3 : nat) (e : E) :
  NoDup (map filename clips) ->
  k1 <= length (by_motion "low" clips) ->
  k2 <= length (by_motion "medium" clips) ->
  k3 <= length (by_motion "high" clips) ->
  let '(s1, e1) := random_sample (by_motion "low" clips) k1 e in
  let '(s2, e2) := random_sample (by_motion "medium" clips) k2 e1 in
  let '(s3, e3) := random_sample (by_motion "high" clips) k3 e2 in
  (length s1 = k1 /\ length s2 = k2 /\ length s3 = k3)
  /\ (by_motion "low" s1 = s1 /\ by_motion "medium" s2 = s2
      /\ by_motion "high" s3 = s3)
  /\ s1 ++ s2 ++ s3 ⊆ clips
  /\ NoDup (map filename (s1 ++ s2 ++ s3)).
Proof.
  intros Hnd Hk1 Hk2 Hk3.
  pose proof (random_sample_spec Hsampler (by_motion "low" clips) k1 e) as H1.
  destruct (random_sample (by_motion "low" clips) k1 e) as [s1 e1].
  pose proof (random_sample_spec Hsampler (by_motion "medium" clips) k2 e1) as H2.
  destruct (random_sample (by_motion "medium" clips) k2 e1) as [s2 e2].
  pose proof (random_sample_spec Hsampler (by_motion "high" clips) k3 e2) as H3.
  destruct (random_sample (by_motion "high" clips) k3 e2) as [s3 e3].
  cbn [fst] in H1, H2, H3.
  destruct H1 as (L1 & S1 & N1); [done|].
  destruct H2 as (L2 & S2 & N2); [done|].
  destruct H3 as (L3 & S3 & N3); [done|].
  assert (Hin : forall key s, s ⊆ by_motion key clips ->
                  forall c, c ∈ s -> c ∈ clips /\ motion_key c = key)
    by (intros key s Hs c Hc; by apply elem_of_by_motion, Hs).
  assert (Hkeep : forall key s, s ⊆ by_motion key clips -> by_motion key s = s).
  { intros key s Hs. apply filter_all. intros c Hc.
    apply String.eqb_eq. by apply (Hin key s Hs). }
  assert (Hapart : forall key key' s s',
            key <> key' -> s ⊆ by_motion key clips -> s' ⊆ by_motion key' clips ->
            forall x, x ∈ map filename s -> x ∈ map filename s' -> False).
  { intros key key' s s' Hne Hs Hs' x (a & Ha & Hina)%list_elem_of_fmap
           (b & Hb & Hinb)%list_elem_of_fmap.
    destruct (Hin key s Hs a Hina) as [Ca Ka].
    destruct (Hin key' s' Hs' b Hinb) as [Cb Kb].
    assert (a = b) as -> by (apply (same_name_same_clip clips); congruence).
    congruence. }
  split; [done|]. split; [by rewrite !Hkeep|]. split.
  - intros c [Hc|[Hc|Hc]%elem_of_app]%elem_of_app;
      [apply (Hin _ _ S1) in Hc|apply (Hin _ _ S2) in Hc
      |apply (Hin _ _ S3) in Hc]; tauto.
  - rewrite !map_app. apply NoDup_app. split; [|split].
    + apply N1. by apply NoDup_map_by_motion.
    + intros x Hx [Hx'|Hx']%elem_of_app.
      * by apply (Hapart "low" "medium" s1 s2 ltac:(done) S1 S2 x).
      * by apply (Hapart "low" "high" s1 s3 ltac:(done) S1 S3 x).
    + apply NoDup_app. split; [|split].
      * apply N2. by apply NoDup_map_by_motion.
      * intros x Hx Hx'.
        by apply (Hapart "medium" "high" s2 s3 ltac:(done) S2 S3 x).
      * apply N3. by apply NoDup_map_by_motion.
Qed.

(** The clips [_smart_sample] picks from a pool with distinct names. *)
Lemma smart_sample_clips_exact (clips : list Clip) (n : nat) (e : E) :
  NoDup (map filename clips) ->
  let result := (_smart_sample_clips clips n e).1 in
  length result = Nat.min n (length clips)
  /\ NoDup (map filename result)
  /\ result ⊆ clips
  /\ forall key, key ∈ ["low"; "medium"; "high"] ->
       Nat.min (n / 3) (length (by_motion key clips))
       <= length (by_motion key result).
Proof.
  intros Hnd. unfold _smart_sample_clips.
  set (k1 := Nat.min (n / 3) (length (by_motion "low" clips))).
  set (k2 := Nat.min (n / 3) (length (by_motion "medium" clips))).
  set (k3 := Nat.min (n / 3) (length (by_motion "high" clips))).
  pose proof (bucket_phase clips k1 k2 k3 e Hnd
                ltac:(subst k1; lia) ltac:(subst k2; lia) ltac:(subst k3; lia))
    as Hphase.
  destruct (random_sample (by_motion "low" clips) k1 e) as [s1 e1].
  destruct (random_sample (by_motion "medium" clips) k2 e1) as [s2 e2].
  destruct (random_sample (by_motion "high" clips) k3 e2) as [s3 e3].
  destruct Hphase as ((L1 & L2 & L3) & (B1 & B2 & B3) & Hsub & Hnames).
  pose proof (unused_length clips (s1 ++ s2 ++ s3) Hnd Hnames Hsub) as Hunused.
  pose proof (Nat.Div0.mul_div_le n 3) as Hdiv.
  assert (Hlen0 : length (s1 ++ s2 ++ s3) = k1 + k2 + k3)
    by (rewrite !length_app; lia).
  assert (Hbuckets : forall extra key, key ∈ ["low"; "medium"; "high"] ->
            Nat.min (n / 3) (length (by_motion key clips))
            <= length (by_motion key ((s1 ++ s2 ++ s3) ++ extra))).
  { intros extra key Hkey. rewrite !by_motion_app, !length_app.
    apply elem_of_cons in Hkey as [->|Hkey];
      [rewrite B1; fold k1; lia|].
    apply elem_of_cons in Hkey as [->|Hkey];
      [rewrite B2; fold k2; lia|].
    apply elem_of_cons in Hkey as [->|Hkey];
      [rewrite B3; fold k3; lia|].
    by apply elem_of_nil in Hkey. }
  destruct (0 <? n - length (s1 ++ s2 ++ s3))%nat eqn:Hrem.
  - apply Nat.ltb_lt in Hrem.
    set (unused := List.filter
           (fun c => negb (existsb (Clip_eqb c) (s1 ++ s2 ++ s3))) clips) in *.
    set (k := Nat.min (n - length (s1 ++ s2 ++ s3)) (length unused)).
    pose proof (random_sample_spec Hsampler unused k e3) as H4.
    destruct (random_sample unused k e3) as [extra e4]. cbn [fst] in H4 |- *.
    destruct H4 as (L4 & S4 & N4); [subst k; lia|].
    assert (Hunused_in : forall c, c ∈ unused ->
              c ∈ clips /\ existsb (Clip_eqb c) (s1 ++ s2 ++ s3) = false).
    { intros c [Hc Hex]%list_elem_of_In%filter_In.
      split; [by apply list_elem_of_In|by apply negb_true_iff]. }
    split; [rewrite length_app; subst k; lia|]. split; [|split].
    + rewrite map_app. apply NoDup_app. split; [done|]. split.
      * intros x (a & Ha & Hina)%list_elem_of_fmap
                 (b & Hb & Hinb)%list_elem_of_fmap.
        destruct (Hunused_in b (S4 b Hinb)) as [Cb Hnot].
        assert (a = b) as ->
          by (apply (same_name_same_clip clips);
              [done|by apply Hsub|done|congruence]).
        apply (clip_in_result clips _ b Hnd Hsub Cb) in Hina. congruence.
      * apply N4. by apply NoDup_map_filter.
    + intros c [Hc|Hc]%elem_of_app; [by apply Hsub|].
      by apply (Hunused_in c (S4 c Hc)).
    + apply Hbuckets.
  - apply Nat.ltb_ge in Hrem. cbn [fst].
    split; [lia|]. split; [done|]. split; [done|].
    intros key Hkey. specialize (Hbuckets [] key Hkey).
    by rewrite app_nil_r in Hbuckets.
Qed.

(** X10.  For a pool of clips with distinct names and any cap [n],
    [_smart_sample] returns exactly [min(n, len(clips))] contexts, no two of
    them equal, all of clips of the pool; and each motion bucket of the pool
    contributes at least [min(n // 3, size of the bucket)] of them. *)
Theorem smart_sample_fills_to_cap (clips : list Clip) (n : nat) (e : E) :
  NoDup (map filename clips) ->
  let result := (_smart_sample_clips clips n e).1 in
  let sample := (_smart_sample clips n e).1 in
  sample = map to_selector_context result
  /\ length sample = Nat.min n (length clips)
  /\ NoDup sample
  /\ result ⊆ clips
  /\ forall key, key ∈ ["low"; "medium"; "high"] ->
       Nat.min (n / 3) (length (by_motion key clips))
       <= length (by_motion key result).
Proof.
  intros Hnd.
  destruct (smart_sample_clips_exact clips n e Hnd)
    as (Hlen & Hnames & Hsub & Hbuckets).
  cbn zeta in *. unfold _smart_sample.
  destruct (_smart_sample_clips clips n e) as [result e']. cbn [fst] in *.
  split; [done|]. split; [by rewrite length_map|]. split; [|done].
  apply (NoDup_fmap_1 ctx_filename).
  change (NoDup (map ctx_filename (map to_selector_context result))).
  by rewrite map_map.
Qed.

(** Without any assumption on the names the sample still has at most [n]
    elements, all of the pool. *)
Lemma smart_sample_at_most clips (n : nat) (e : E) :
  length (_smart_sample_clips clips n e).1 <= n
  /\ (_smart_sample_clips clips n e).1 ⊆ clips.
Proof.
  unfold _smart_sample_clips.
  set (k1 := Nat.min (n / 3) (length (by_motion "low" clips))).
  set (k2 := Nat.min (n / 3) (length (by_motion "medium" clips))).
  set (k3 := Nat.min (n / 3) (length (by_motion "high" clips))).
  pose proof (random_sample_spec Hsampler (by_motion "low" clips) k1 e) as H1.
  destruct (random_sample (by_motion "low" clips) k1 e) as [s1 e1].
  pose proof (random_sample_spec Hsampler (by_motion "medium" clips) k2 e1) as H2.
  destruct (random_sample (by_motion "medium" clips) k2 e1) as [s2 e2].
  pose proof (random_sample_spec Hsampler (by_motion "high" clips) k3 e2) as H3.
  destruct (random_sample (by_motion "high" clips) k3 e2) as [s3 e3].
  cbn [fst] in H1, H2, H3.
  destruct H1 as (L1 & S1 & _); [subst k1; lia|].
  destruct H2 as (L2 & S2 & _); [subst k2; lia|].
  destruct H3 as (L3 & S3 & _); [subst k3; lia|].
  pose proof (Nat.Div0.mul_div_le n 3) as Hdiv.
  assert (Hsub : s1 ++ s2 ++ s3 ⊆ clips).
  { intros c [Hc|[Hc|Hc]%elem_of_app]%elem_of_app;
      [apply S1 in Hc|apply S2 in Hc|apply S3 in Hc];
      by apply elem_of_by_motion in Hc as [? _]. }
  assert (Hlen0 : length (s1 ++ s2 ++ s3) = k1 + k2 + k3)
    by (rewrite !length_app; lia).
  destruct (0 <? n - length (s1 ++ s2 ++ s3))%nat eqn:Hrem.
  - set (unused := List.filter
           (fun c => negb (existsb (Clip_eqb c) (s1 ++ s2 ++ s3))) clips) in *.
    set (k := Nat.min (n - length (s1 ++ s2 ++ s3)) (length unused)).
    pose proof (random_sample_spec Hsampler unused k e3) as H4.
    destruct (random_sample unused k e3) as [extra e4]. cbn [fst] in H4 |- *.
    destruct H4 as (L4 & S4 & _); [subst k; lia|].
    split; [rewrite length_app; subst k; lia|].
    intros c [Hc|Hc]%elem_of_app; [by apply Hsub|].
    apply S4 in Hc. by apply list_elem_of_In, filter_In in Hc as [?%list_elem_of_In _].
  - cbn [fst]. split; [subst k1 k2 k3; lia|done].
Qed.

(** X11.  [select] asks the LLM exactly when some clip is not excluded.
    The prompt then offers at most 50 candidates, each the context of a
    manifest clip that is not excluded, with the requested number of
    selections and the coherence, direction and windows of the narrative
    state: all the clips that are not excluded when there are at most 50 of
    them, and exactly 50 different ones when there are more and the manifest
    names are distinct. *)
Theorem prompt_offers_at_most_50_candidates (n : nat) (exclude : list string)
    (s : Selector E) :
  let available := available_clips s exclude in
  (prompt_sent n exclude s = None <-> available = [])
  /\ forall prompt, prompt_sent n exclude s = Some prompt ->
       prompt = build_prompt (state s) (p_available_clips prompt) n
       /\ length (p_available_clips prompt) <= 50
       /\ (forall ctx, ctx ∈ p_available_clips prompt ->
             exists c, c ∈ clips (manifest s)
                       /\ ~ filename c ∈ exclude
                       /\ ctx = to_selector_context c)
       /\ (length available <= 50 ->
           p_available_clips prompt = map to_selector_context available)
       /\ (50 < length available -> NoDup (map filename (clips (manifest s))) ->
           length (p_available_clips prompt) = 50
           /\ NoDup (p_available_clips prompt)).
Proof.
  intros available. subst available. unfold prompt_sent.
  assert (Havail : forall c, c ∈ available_clips s exclude ->
            c ∈ clips (manifest s) /\ ~ filename c ∈ exclude).
  { intros c [Hc Hex]%list_elem_of_In%filter_In.
    split; [by apply list_elem_of_In|].
    intros Hin. apply negb_true_iff in Hex.
    assert (existsb (String.eqb (filename c)) exclude = true); [|congruence].
    apply existsb_exists. exists (filename c).
    split; [by apply list_elem_of_In|apply String.eqb_refl]. }
  assert (Hnames : NoDup (map filename (clips (manifest s))) ->
                   NoDup (map filename (available_clips s exclude)))
    by apply NoDup_map_filter.
  destruct (available_clips s exclude) as [|c0 rest] eqn:Hav; [done|].
  set (available := c0 :: rest) in *.
  unfold prepare_prompt, bind, get, call, ret.
  destruct (50 <? length available)%nat eqn:Hbig.
  - apply Nat.ltb_lt in Hbig.
    pose proof (smart_sample_clips_exact available 50 (env s)) as Hsample.
    pose proof (smart_sample_at_most available 50 (env s)) as [Hle Hsub].
    cbn zeta in Hsample. unfold _smart_sample in *.
    destruct (_smart_sample_clips available 50 (env s)) as [result e'].
    cbn [fst] in *. split; [done|].
    intros prompt [= <-].
    change (p_available_clips (build_prompt ?st ?l ?k)) with l.
    split; [done|]. split; [by rewrite length_map|]. split; [|split].
    + intros ctx (c & -> & Hc)%list_elem_of_fmap. exists c.
      destruct (Havail c (Hsub c Hc)) as [? ?]. done.
    + lia.
    + intros _ Hnd. destruct (Hsample (Hnames Hnd)) as (Hlen & Hnodup & _).
      split; [rewrite length_map; lia|].
      apply (NoDup_fmap_1 ctx_filename).
      change (NoDup (map ctx_filename (map to_selector_context result))).
      by rewrite map_map.
  - apply Nat.ltb_ge in Hbig. split; [done|].
    intros prompt [= <-].
    change (p_available_clips (build_prompt ?st ?l ?k)) with l.
    change (to_selector_context c0 :: map to_selector_context rest)
      with (map to_selector_context available).
    split; [done|]. split; [by rewrite length_map|]. split; [|split].
    + intros ctx (c & -> & Hc)%list_elem_of_fmap. exists c.
      destruct (Havail c Hc) as [? ?]. done.
    + done.
    + lia.
Qed.

End Sampler.

Lemma smart_sample_fills_to_cap_witness :
  let result := (_smart_sample_clips pool_100 50 {| replies := [] |}).1 in
  let sample := (_smart_sample pool_100 50 {| replies := [] |}).1 in
  sample = map to_selector_context result
  /\ length sample = Nat.min 50 (length pool_100)
  /\ NoDup sample
  /\ result ⊆ pool_100
  /\ forall key, key ∈ ["low"; "medium"; "high"] ->
       Nat.min (50 / 3) (length (by_motion key pool_100))
       <= length (by_motion key result).
Proof.
  apply (smart_sample_fills_to_cap script_sampler_ok pool_100 50
           {| replies := [] |}).
  apply (bool_decide_unpack _). vm_compute. reflexivity.
Defined.

Lemma prompt_offers_at_most_50_candidates_witness :
  let s := new_selector (load pool_100) {| replies := [] |} in
  let available := available_clips s ["!.mp4"] in
  (prompt_sent 3 ["!.mp4"] s = None <-> available = [])
  /\ forall prompt, prompt_sent 3 ["!.mp4"] s = Some prompt ->
       prompt = build_prompt (state s) (p_available_clips prompt) 3
       /\ length (p_available_clips prompt) <= 50
       /\ (forall ctx, ctx ∈ p_available_clips prompt ->
             exists c, c ∈ clips (manifest s)
                       /\ ~ filename c ∈ ["!.mp4"]
                       /\ ctx = to_selector_context c)
       /\ (length available <= 50 ->
           p_available_clips prompt = map to_selector_context available)
       /\ (50 < length available -> NoDup (map filename (clips (manifest s))) ->
           length (p_available_clips prompt) = 50
           /\ NoDup (p_available_clips prompt)).
Proof.
  exact (prompt_offers_at_most_50_candidates script_sampler_ok 3 ["!.mp4"]
           (new_selector (load pool_100) {| replies := [] |})).
Defined.

End CandidateFacts.

(** ** Orchestrator: fill cycles, feedback and counters *)

Module SessionFacts.
Import Manifest Narrative Selector Orchestrator SelectorControls
  OrchestratorControls SelectorFacts OrchestratorFacts.

Lemma last_n_app_trim {A} n (l l' : list A) :
  last_n n (last_n n l ++ l') = last_n n (l ++ l').
Proof.
  destruct (decide (length l <= n)) as [Hle|Hgt].
  - by rewrite (last_n_all n l).
  - unfold last_n. rewrite !length_app, length_drop.
    destruct (decide (length l' <= n)) as [Hle'|Hgt'].
    + rewrite !drop_app_le by (rewrite ?length_drop; lia).
      rewrite drop_drop. f_equal. f_equal. lia.
    + rewrite !drop_app_ge by (rewrite ?length_drop; lia).
      rewrite length_drop. f_equal. lia.
Qed.

Lemma map_last_n {A B} (f : A -> B) n (l : list A) :
  map f (last_n n l) = last_n n (map f l).
Proof. unfold last_n. by rewrite length_map, <- fmap_drop. Qed.

Lemma list_remove_length name l :
  name ∈ l -> S (length (list_remove name l)) = length l.
Proof.
  induction l as [|y l IH]; [by intros ?%elem_of_nil|]. simpl.
  destruct (String.eqb_spec y name) as [->|Hne]; [done|].
  intros [?|Hin]%elem_of_cons; [congruence|]. simpl. by rewrite IH.
Qed.

Lemma list_remove_subseteq name l : list_remove name l ⊆ l.
Proof.
  induction l as [|y l IH]; [done|]. simpl.
  destruct (String.eqb y name).
  - intros x Hx. by right.
  - intros x [->|Hx]%elem_of_cons; [by left|right; by apply IH].
Qed.

Lemma process_feedback_history {E : Type} `{Environment E} fb (s : Selector E) :
  outcome_of (process_feedback fb s) = Returned tt
  /\ feedback_history (state (state_of (process_feedback fb s)))
     = last_n 10 (feedback_history (state s)
                  ++ [feedback_entry fb (now (env s)).1]).
Proof.
  unfold process_feedback, bind, call, modify, print, emit, ret.
  destruct (now (env s)) as [t e'].
  by destruct (List.find _ direction_keywords) as [[k d]|].
Qed.

Section WithCollaborators.
Context {E : Type} `{Environment E} {P : Type} `{PlaybackEngine P}.
Implicit Types (o : Orchestrator E P).

(** What a fill cycle does, case by case on the reply. *)
Lemma fill_buffer_cases o :
  exists e',
    let o0 := set_selector (set_env e' (selector o)) o in
    match fill_reply o with
    | None =>
        _fill_buffer o
        = (Returned tt, o0, [Printed (SelectionError "No available clips")])
    | Some (ReplyRaises e) => _fill_buffer o = (Raised e, o0, [])
    | Some (ReplyMisshapen checked e) =>
        _fill_buffer o
        = (Raised e, o0,
           map (fun sel => Printed (WarnNonexistentClip (sel_filename sel)))
             (List.filter
                (fun sel => negb (known (manifest (selector o)) (sel_filename sel)))
                checked))
    | Some (ReplyUnparseable text) =>
        _fill_buffer o
        = (Returned tt, o0,
           [Printed (SelectionError "Failed to parse LLM response")])
    | Some (ReplyJson r) =>
        let valid :=
          List.filter (fun sel => known (manifest (selector o)) (sel_filename sel))
                      (selections r) in
        let warnings :=
          map (fun sel => Printed (WarnNonexistentClip (sel_filename sel)))
            (List.filter
               (fun sel => negb (known (manifest (selector o)) (sel_filename sel)))
               (selections r)) in
        match error r with
        | Some msg =>
            _fill_buffer o
            = (Returned tt, o0, warnings ++ [Printed (SelectionError msg)])
        | None =>
            match valid with
            | [] =>
                _fill_buffer o
                = (Returned tt, o0, warnings ++ [Printed NoClipsSelected])
            | _ =>
                let loop := for_each valid queue_selection o0 in
                _fill_buffer o
                = (Returned tt,
                   set_selections_made (selections_made o + 1) (state_of loop),
                   warnings ++ events_of loop ++ fill_notes r)
            end
        end
    end.
Proof.
  unfold fill_reply.
  destruct (select_spec (clips_per_selection (config o)) (exclusion o)
                        (selector o)) as [e' Hsel].
  exists e'. cbn zeta.
  remember (_fill_buffer o) as run eqn:Hrun.
  unfold _fill_buffer in Hrun.
  unfold bind at 1 in Hrun. unfold get at 1 in Hrun.
  unfold bind at 1 in Hrun. unfold zoom at 1 in Hrun.
  rewrite Hsel in Hrun. clear Hsel.
  destruct (reply_received _ _ _) as [[e|text|r|checked e]|];
    try (by subst run).
  cbn [with_selections error selections narrative_note suggested_direction]
    in Hrun.
  destruct (error r) as [msg|]; [by subst run|].
  destruct (List.filter _ (selections r)) as [|sel sels] eqn:Hvalid;
    [by subst run|].
  set (o1 := set_selector _ o) in *.
  destruct (for_each_queue_selection (sel :: sels) o1)
    as (added & p' & evs & Hloop & _).
  unfold bind at 1 in Hrun. rewrite Hloop in Hrun. rewrite Hloop.
  unfold bind, modify, when, print, emit, ret in Hrun. unfold fill_notes.
  destruct (text_truthy (narrative_note r)),
           (text_truthy (suggested_direction r)); subst run; cbn;
    rewrite ?app_nil_r; done.
Qed.

(** A fill cycle leaves the feedback inbox alone and counts at most one
    selection round. *)
Lemma fill_buffer_frame o :
  _feedback_queue (state_of (_fill_buffer o)) = _feedback_queue o
  /\ (selections_made o <= selections_made (state_of (_fill_buffer o))
      <= selections_made o + 1)%Z.
Proof.
  destruct (fill_buffer_cases o) as [e' Hc]. cbn zeta in Hc.
  destruct (fill_reply o) as [[e|text|r|checked e]|];
    try (rewrite Hc; cbn; split; [done|lia]).
  destruct (error r) as [msg|]; [rewrite Hc; cbn; split; [done|lia]|].
  destruct (List.filter _ (selections r)) as [|sel sels];
    [rewrite Hc; cbn; split; [done|lia]|].
  destruct (for_each_queue_selection (sel :: sels)
              (set_selector (set_env e' (selector o)) o))
    as (added & p' & evs & Hloop & _).
  rewrite Hc, Hloop. cbn. split; [done|lia].
Qed.

(** X12.  When every clip of the manifest is recently played or queued, a
    fill cycle does not ask the LLM: it prints the error of an empty pool,
    offers nothing to the playback client and leaves the orchestrator as it
    was. *)
Theorem fill_cycle_with_every_clip_excluded o :
  Forall (fun c => filename c ∈ exclusion o) (clips (manifest (selector o))) ->
  fill_reply o = None
  /\ _fill_buffer o
     = (Returned tt, o, [Printed (SelectionError "No available clips")]).
Proof.
  intros Hall.
  assert (Havail : available_clips (selector o) (exclusion o) = []).
  { apply SamplerFacts.filter_none. intros c Hc. apply negb_false_iff.
    rewrite Forall_forall in Hall. apply (list_in_true _ _), Hall, Hc. }
  split.
  - unfold fill_reply, reply_received. by rewrite Havail.
  - unfold _fill_buffer, bind, get, zoom, select, bind, get.
    rewrite Havail. cbn. by destruct o as [? [] ? ? ? ? ? ?].
Qed.

(** X13.  Take a fill cycle whose reply is a JSON object of the expected
    shape without an ["error"] key.  Once the playback client's calls have
    returned, it returns normally, having called [add_to_playlist] once for
    each name of the reply that the manifest knows, in the order of the
    reply, and printed one warning for each name it does not know.  The
    selection round is counted exactly when some name was known; with no
    known name the cycle reports that no clips were selected and the queue
    stays as it was. *)
Theorem fill_cycle_offers_known_names_in_order o r :
  fill_reply o = Some (ReplyJson r) ->
  error r = None ->
  let run := _fill_buffer o in
  outcome_of run = Returned tt
  /\ enqueue_attempts (events_of run) = valid_names o
  /\ List.filter is_dropped_warning (events_of run)
     = map (fun name => Printed (WarnNonexistentClip name))
         (List.filter (fun name => negb (known (manifest (selector o)) name))
                      (proposed_names o))
  /\ selections_made (state_of run)
     = (selections_made o + (if valid_names o is [] then 0 else 1))%Z
  /\ (valid_names o = [] ->
      queued_filenames (state_of run) = queued_filenames o
      /\ last (events_of run) = Some (Printed NoClipsSelected)).
Proof.
  intros Hreply Herr run. subst run.
  destruct (fill_buffer_cases o) as [e' Hc]. cbn zeta in Hc.
  unfold valid_names, proposed_names. rewrite Hreply in Hc |- *.
  rewrite Herr in Hc. rewrite <- map_filter_known.
  set (warnings := map _ (List.filter (fun sel => negb _) (selections r))) in *.
  assert (Hw1 : List.filter is_enqueue warnings = []).
  { subst warnings. clear.
    by induction (List.filter _ (selections r)) as [|sel sels IH]. }
  assert (Hw2 : List.filter is_dropped_warning warnings
                = map (fun name => Printed (WarnNonexistentClip name))
                    (List.filter
                       (fun name => negb (known (manifest (selector o)) name))
                       (map sel_filename (selections r)))).
  { subst warnings. clear. induction (selections r) as [|sel sels IH]; [done|].
    cbn [List.filter map].
    destruct (known (manifest (selector o)) (sel_filename sel));
      cbn [negb map List.filter is_dropped_warning]; by rewrite IH. }
  assert (Hnotes : List.filter is_enqueue (fill_notes r) = []
                   /\ List.filter is_dropped_warning (fill_notes r) = []).
  { unfold fill_notes.
    by destruct (text_truthy (narrative_note r)),
                (text_truthy (suggested_direction r)). }
  destruct Hnotes as [Hn1 Hn2].
  remember (List.filter
              (fun sel => known (manifest (selector o)) (sel_filename sel))
              (selections r)) as valid eqn:Hvalid.
  destruct valid as [|sel sels].
  - rewrite Hc. unfold enqueue_attempts. cbn [outcome_of state_of events_of fst snd].
    rewrite !List.filter_app, Hw1, Hw2. cbn. rewrite app_nil_r.
    split_and!; try done; try lia.
    intros _. split; [done|]. by rewrite last_snoc.
  - destruct (for_each_queue_selection (sel :: sels)
                (set_selector (set_env e' (selector o)) o))
      as (added & p' & evs & Hloop & _ & Hwarn & Henq).
    rewrite Hc, Hloop. unfold enqueue_attempts.
    cbn [outcome_of state_of events_of fst snd].
    rewrite !List.filter_app, Hw1, Hw2, Hn1, Hn2, Hwarn, !app_nil_r.
    cbn [app]. split_and!; try done.
Qed.

(** One tracking step: the played counter grows by what the queue loses. *)
Lemma mark_current_as_played_step name o :
  let o' := state_of (_mark_current_as_played name o) in
  manifest (selector o') = manifest (selector o)
  /\ selections_made o' = selections_made o
  /\ _feedback_queue o' = _feedback_queue o
  /\ feedback_history (state (selector o'))
     = feedback_history (state (selector o))
  /\ (clips_played o' + Z.of_nat (length (queued_filenames o'))
      = clips_played o + Z.of_nat (length (queued_filenames o)))%Z
  /\ (clips_played o <= clips_played o')%Z.
Proof.
  cbn zeta. destruct (decide (name ∈ queued_filenames o)) as [Hin|Hnot].
  - rewrite mark_current_as_played_queued by done.
    pose proof (list_remove_length name _ Hin) as Hlen.
    destruct (get_clip (manifest (selector o)) name) as [clip|] eqn:Hclip.
    + rewrite (mark_played_known name clip) by done. cbn.
      split_and!; try done; lia.
    + rewrite mark_played_unknown by done. cbn.
      split_and!; try done; lia.
  - rewrite mark_current_as_played_not_queued by done. cbn.
    split_and!; try done; lia.
Qed.

Lemma update_played_tracking_step o :
  let o' := state_of (update_played_tracking o) in
  manifest (selector o') = manifest (selector o)
  /\ selections_made o' = selections_made o
  /\ _feedback_queue o' = _feedback_queue o
  /\ feedback_history (state (selector o'))
     = feedback_history (state (selector o))
  /\ (clips_played o' + Z.of_nat (length (queued_filenames o'))
      = clips_played o + Z.of_nat (length (queued_filenames o)))%Z
  /\ (clips_played o <= clips_played o')%Z.
Proof.
  cbn zeta. unfold update_played_tracking, bind, call.
  destruct (get_status (playback o)) as [status p'].
  destruct (truthy (Playback.filename status));
    [|cbn; split_and!; try done; lia].
  destruct (Playback.filename status) as [| | | |name| |];
    try (cbn; split_and!; try done; lia).
  pose proof (mark_current_as_played_step name (set_playback p' o)) as Hstep.
  cbn zeta in Hstep.
  destruct (_mark_current_as_played name (set_playback p' o)) as [[res o2] w].
  cbn in *. done.
Qed.

(** X14.  Along any run of fill cycles and tracking steps that starts
    with a queue of names the manifest knows, the manifest stays the same,
    the queue holds only names the manifest knows, and the played counter
    never decreases.  Every name that leaves the queue is counted as
    played: without fill cycles the played counter plus the queue length
    is constant, and fill cycles can only add to it.  The count of
    selection rounds grows by at most one per fill cycle. *)
Theorem queue_names_known_and_counted (l : list activity) o :
  Forall (fun name => known (manifest (selector o)) name = true)
         (queued_filenames o) ->
  let o' := run_activities l o in
  manifest (selector o') = manifest (selector o)
  /\ Forall (fun name => known (manifest (selector o)) name = true)
            (queued_filenames o')
  /\ (clips_played o <= clips_played o')%Z
  /\ (clips_played o + Z.of_nat (length (queued_filenames o))
      <= clips_played o' + Z.of_nat (length (queued_filenames o')))%Z
  /\ (count_fill_cycles l = 0 ->
      (clips_played o' + Z.of_nat (length (queued_filenames o'))
       = clips_played o + Z.of_nat (length (queued_filenames o)))%Z)
  /\ (selections_made o <= selections_made o'
      <= selections_made o + Z.of_nat (count_fill_cycles l))%Z.
Proof.
  cbn zeta. revert o. induction l as [|a l IH]; intros o Hknown.
  { cbn. split_and!; try done; lia. }
  cbn [run_activities].
  assert (Hstep :
    let o1 := state_of (perform a o) in
    manifest (selector o1) = manifest (selector o)
    /\ Forall (fun name => known (manifest (selector o)) name = true)
              (queued_filenames o1)
    /\ (clips_played o <= clips_played o1)%Z
    /\ (clips_played o + Z.of_nat (length (queued_filenames o))
        <= clips_played o1 + Z.of_nat (length (queued_filenames o1)))%Z
    /\ (a = TrackPlayed ->
        (clips_played o1 + Z.of_nat (length (queued_filenames o1))
         = clips_played o + Z.of_nat (length (queued_filenames o)))%Z)
    /\ (selections_made o <= selections_made o1
        <= selections_made o
           + (match a with FillCycle => 1 | TrackPlayed => 0 end))%Z).
  { destruct a; cbn [perform]; cbn zeta.
    - destruct (fill_buffer_spec o)
        as (added & Hq & Hsub & _ & Hman & _ & Hcp & _).
      destruct (fill_buffer_frame o) as [_ Hsel].
      rewrite Hq, Hcp, length_app. split_and!; try done; try lia.
      apply Forall_app. split; [done|].
      apply Forall_forall. intros name Hin.
      apply (fun Hx => elem_of_sublist _ _ name Hx Hsub) in Hin.
      unfold valid_names in Hin.
      by apply list_elem_of_In, filter_In in Hin as [_ ?].
    - destruct (update_played_tracking_step o)
        as (Hman & Hsel & _ & _ & Hcons & Hmono).
      split_and!; try done; try lia.
      destruct (update_played_tracking_queue o) as [-> | [name ->]]; [done|].
      apply Forall_forall. intros x Hx%list_remove_subseteq.
      by apply (proj1 (Forall_forall _ _) Hknown). }
  cbn zeta in Hstep.
  destruct Hstep as (Hman & Hk & Hmono & Hge & Heq & Hsel).
  specialize (IH (state_of (perform a o))). rewrite Hman in IH.
  destruct (IH Hk) as (IHman & IHk & IHmono & IHge & IHeq & IHsel).
  split_and!; try done; try lia.
  - intros Hnofill. destruct a; [done|].
    rewrite IHeq by done. by apply Heq.
  - destruct a; unfold count_fill_cycles in *; cbn [List.filter length] in *; lia.
Qed.

Lemma add_feedbacks_spec fbs o :
  add_feedbacks fbs o = set_feedback_queue (_feedback_queue o ++ fbs) o.
Proof.
  revert o. induction fbs as [|fb fbs IH]; intros o.
  - cbn. rewrite app_nil_r. by destruct o.
  - change (add_feedbacks (fb :: fbs) o)
      with (add_feedbacks fbs (add_feedback fb o).1).
    rewrite IH. cbn. by rewrite <- app_assoc.
Qed.

(** Processing the drained feedback appends its texts, in order, to the
    feedback history, which keeps its last 10 entries. *)
Lemma for_each_feedback_texts fbs o :
  exists o' w,
    for_each fbs (fun fb => zoom selector set_selector (process_feedback fb)) o
    = (Returned tt, o', w)
    /\ _feedback_queue o' = _feedback_queue o
    /\ feedback_texts o'
       = match fbs with
         | [] => feedback_texts o
         | _ => last_n 10 (feedback_texts o ++ fbs)
         end.
Proof.
  revert o. induction fbs as [|fb fbs IH]; intros o; [by eexists _, _|].
  cbn [for_each]. unfold bind. unfold zoom at 1.
  destruct (process_feedback_history fb (selector o)) as (Hret & Hhist).
  destruct (process_feedback fb (selector o)) as [[res s1] w1].
  cbn in Hret, Hhist. subst res.
  destruct (IH (set_selector s1 o)) as (o' & w' & -> & Hq & Htexts).
  eexists _, _. split; [done|]. split; [done|].
  rewrite Htexts. unfold feedback_texts. cbn [selector set_selector].
  rewrite Hhist, map_last_n, map_app. cbn [map feedback_entry fe_text].
  destruct fbs as [|fb' fbs]; [done|].
  by rewrite last_n_app_trim, <- app_assoc.
Qed.

(** The first part of a poll cycle either drains the inbox into the
    feedback history or raises before touching it. *)
Lemma check_buffer_and_feedback_inbox o :
  let run := check_buffer_and_feedback o in
  match outcome_of run with
  | Returned _ =>
      _feedback_queue (state_of run) = []
      /\ feedback_texts (state_of run)
         = match _feedback_queue o with
           | [] => feedback_texts o
           | fbs => last_n 10 (feedback_texts o ++ fbs)
           end
  | Raised _ =>
      _feedback_queue (state_of run) = _feedback_queue o
      /\ feedback_texts (state_of run) = feedback_texts o
  end.
Proof.
  cbn zeta. remember (check_buffer_and_feedback o) as run eqn:Hrun.
  unfold check_buffer_and_feedback in Hrun.
  unfold bind at 1 in Hrun. unfold call at 1 in Hrun.
  destruct (get_queue_duration (playback o)) as [[t|] p1]; [|by subst run].
  unfold bind at 1 in Hrun. unfold get at 1 in Hrun.
  unfold bind at 1 in Hrun.
  assert (Hwhen : forall b,
            exists res o1 w1,
              when b (print BufferLow ;; _fill_buffer) (set_playback p1 o)
              = (res, o1, w1)
              /\ _feedback_queue o1 = _feedback_queue o
              /\ feedback_texts o1 = feedback_texts o).
  { intros [|]; cbn [when]; [|by eexists _, _, _].
    unfold bind, print, emit.
    destruct (fill_buffer_spec (set_playback p1 o))
      as (_ & _ & _ & Hst & _).
    destruct (fill_buffer_frame (set_playback p1 o)) as [Hinbox _].
    destruct (_fill_buffer (set_playback p1 o)) as [[res o1] w1].
    eexists _, _, _. split; [done|]. cbn in *. unfold feedback_texts.
    by rewrite Hst. }
  destruct (Hwhen (negb (Qle_bool (min_buffer_seconds (config (set_playback p1 o))) t)))
    as (res & o1 & w1 & Hw & Hinbox & Htexts).
  rewrite Hw in Hrun. destruct res as [u|e]; [|by subst run].
  unfold bind at 1 in Hrun. unfold get at 1 in Hrun.
  unfold bind at 1 in Hrun. unfold modify at 1 in Hrun.
  destruct (for_each_feedback_texts (_feedback_queue o1) (set_feedback_queue [] o1))
    as (o2 & w2 & Hloop & Hq2 & Ht2).
  rewrite Hloop in Hrun. subst run. cbn [outcome_of state_of fst snd].
  split; [done|]. rewrite Ht2, Hinbox.
  change (feedback_texts (set_feedback_queue [] o1)) with (feedback_texts o1).
  rewrite Htexts. by destruct (_feedback_queue o).
Qed.

(** With a buffer that is not low the first part of a poll cycle returns. *)
Lemma check_buffer_and_feedback_returns o t p1 :
  get_queue_duration (playback o) = (Value t, p1) ->
  Qle_bool (min_buffer_seconds (config o)) t = true ->
  outcome_of (check_buffer_and_feedback o) = Returned tt.
Proof.
  intros Hq Hlow.
  remember (check_buffer_and_feedback o) as run eqn:Hrun.
  unfold check_buffer_and_feedback in Hrun.
  unfold bind at 1 in Hrun. unfold call at 1 in Hrun. rewrite Hq in Hrun.
  unfold bind at 1 in Hrun. unfold get at 1 in Hrun.
  cbn [config set_playback] in Hrun. rewrite Hlow in Hrun.
  cbn [negb when] in Hrun.
  unfold bind at 1 in Hrun. unfold ret at 1 in Hrun.
  unfold bind at 1 in Hrun. unfold get at 1 in Hrun.
  unfold bind at 1 in Hrun. unfold modify at 1 in Hrun.
  destruct (for_each_feedback_keeps (_feedback_queue (set_playback p1 o))
              (set_feedback_queue [] (set_playback p1 o)))
    as (o2 & w2 & Hloop & _).
  rewrite Hloop in Hrun. by subst run.
Qed.

(** X15.  Feedback handed to [add_feedback] waits in the inbox, in order
    of arrival, behind what is already there.  A poll cycle never raises.
    It either empties the inbox, adding the waiting texts in that order to
    the selector's feedback history (of which the last 10 are kept), or it
    fails before reaching the inbox, prints the error last and leaves inbox
    and history as they were, so no feedback is lost or handled twice.  When
    the buffer estimate is not below the low-water mark the inbox is
    emptied. *)
Theorem feedback_is_handled_once_or_kept (fbs : list string) o :
  let o1 := add_feedbacks fbs o in
  let run := buffer_loop_body o1 in
  let inbox := _feedback_queue o ++ fbs in
  _feedback_queue o1 = inbox
  /\ outcome_of run = Returned tt
  /\ ((_feedback_queue (state_of run) = []
       /\ feedback_texts (state_of run)
          = match inbox with
            | [] => feedback_texts o
            | _ => last_n 10 (feedback_texts o ++ inbox)
            end)
      \/ (_feedback_queue (state_of run) = inbox
          /\ feedback_texts (state_of run) = feedback_texts o
          /\ exists e, last (events_of run) = Some (Printed (BufferLoopError e))))
  /\ (forall t p1,
        get_queue_duration (playback o) = (Value t, p1) ->
        Qle_bool (min_buffer_seconds (config o)) t = true ->
        _feedback_queue (state_of run) = []).
Proof.
  cbn zeta. rewrite add_feedbacks_spec.
  set (o1 := set_feedback_queue (_feedback_queue o ++ fbs) o).
  split; [done|].
  pose proof (check_buffer_and_feedback_inbox o1) as Hcheck.
  pose proof (check_buffer_and_feedback_returns o1) as Hreturns.
  cbn zeta in Hcheck.
  change (_feedback_queue o1) with (_feedback_queue o ++ fbs) in Hcheck.
  change (feedback_texts o1) with (feedback_texts o) in Hcheck.
  change (playback o1) with (playback o) in Hreturns.
  change (config o1) with (config o) in Hreturns.
  remember (buffer_loop_body o1) as run eqn:Hrun.
  unfold buffer_loop_body, try_except in Hrun. unfold bind at 1 in Hrun.
  destruct (check_buffer_and_feedback o1) as [[[u|e] o2] w].
  - cbn [outcome_of state_of fst snd] in Hcheck. destruct Hcheck as [Hq Ht].
    pose proof (update_played_tracking_returns o2) as Hret.
    destruct (update_played_tracking_step o2) as (_ & _ & Hq' & Hh' & _).
    destruct (update_played_tracking o2) as [[res o3] w3].
    cbn in Hret, Hq', Hh'. subst res run.
    cbn [outcome_of state_of events_of fst snd].
    assert (Hdrained : _feedback_queue o3 = []) by congruence.
    split; [done|]. split; [|done].
    left. split; [done|].
    replace (feedback_texts o3) with (feedback_texts o2)
      by (unfold feedback_texts; by rewrite Hh').
    rewrite Ht. by destruct (_feedback_queue o ++ fbs).
  - cbn [outcome_of state_of fst snd] in Hcheck. destruct Hcheck as [Hq Ht].
    subst run. cbn. split; [done|]. split.
    + right. split; [done|]. split; [done|]. exists e. by rewrite last_snoc.
    + intros t p1 Hdur Hlow. by specialize (Hreturns t p1 Hdur Hlow).
Qed.

(** The narrative state enters the prompt only through [build_prompt]. *)
Lemma prompt_sent_set_state n exclude st' (s : Selector E) :
  prompt_sent n exclude (set_state st' s)
  = option_map (fun p => build_prompt st' (p_available_clips p) n)
               (prompt_sent n exclude s).
Proof.
  destruct s as [m e st]. unfold prompt_sent, available_clips.
  cbn [manifest set_state].
  destruct (List.filter _ (clips m)) as [|c0 rest]; [done|].
  unfold prepare_prompt, bind, get, call, ret.
  destruct (50 <? length (c0 :: rest))%nat; [|done].
  simpl env. by destruct (_smart_sample (c0 :: rest) 50 e) as [ctxs e'].
Qed.

Lemma prompt_sent_build n exclude (s : Selector E) prompt :
  prompt_sent n exclude s = Some prompt ->
  prompt = build_prompt (state s) (p_available_clips prompt) n.
Proof.
  unfold prompt_sent.
  destruct (available_clips s exclude) as [|c0 rest]; [done|].
  unfold prepare_prompt, bind, get, call, ret.
  destruct (50 <? length (c0 :: rest))%nat.
  - destruct (_smart_sample (c0 :: rest) 50 (env s)) as [ctxs e'].
    by intros [= <-].
  - by intros [= <-].
Qed.

(** X16.  [set_coherence] and [set_direction] on the orchestrator change
    the selector's narrative state only: queue, inbox, playback client,
    counters and exclusion list stay.  The next fill cycle asks the LLM in
    the same cases as before and about the same candidates, with the new
    direction and with the new coherence level, which lies between 0 and 1
    and is described by its own band. *)
Theorem controls_reach_the_next_prompt (level : Q) (d : string) o :
  let o' := (set_direction d (set_coherence level o).1).1 in
  (queued_filenames o' = queued_filenames o
   /\ _feedback_queue o' = _feedback_queue o
   /\ playback o' = playback o
   /\ clips_played o' = clips_played o
   /\ selections_made o' = selections_made o
   /\ exclusion o' = exclusion o)
  /\ (fill_prompt o' = None <-> fill_prompt o = None)
  /\ forall prompt,
       fill_prompt o' = Some prompt ->
       p_direction prompt = d
       /\ ((0 <= p_coherence_level prompt)%Q /\ (p_coherence_level prompt <= 1)%Q)
       /\ ((0 <= level)%Q -> (level <= 1)%Q ->
           (p_coherence_level prompt == level)%Q)
       /\ p_coherence_desc prompt
          = _coherence_description (p_coherence_level prompt)
       /\ exists before,
            fill_prompt o = Some before
            /\ p_available_clips prompt = p_available_clips before
            /\ p_recently_played prompt = p_recently_played before
            /\ p_recent_feedback prompt = p_recent_feedback before.
Proof.
  cbn zeta. split; [done|].
  unfold fill_prompt.
  set (st' := set_direction_field d
                (set_coherence_level (py_max 0 (py_min 1 level))
                                     (state (selector o)))).
  change (prompt_sent _ _ (selector (set_direction d (set_coherence level o).1).1))
    with (prompt_sent (clips_per_selection (config o)) (exclusion o)
            (set_state st' (selector o))).
  rewrite prompt_sent_set_state.
  pose proof (SelectorControlsFacts.clamp_cases level) as Hclamp.
  destruct (prompt_sent _ _ (selector o)) as [before|] eqn:Hbefore; [|done].
  apply prompt_sent_build in Hbefore.
  cbn [option_map]. split; [done|]. intros prompt [= <-].
  change (p_coherence_level (build_prompt st' _ _))
    with (py_max 0 (py_min 1 level)).
  split; [done|]. split; [|split; [|split; [done|]]].
  3: { exists before. split; [done|]. by rewrite Hbefore. }
  - destruct Hclamp as [[? ->]|[[? ->]|(? & ? & ->)]]; lra.
  - intros. destruct Hclamp as [[? ->]|[[? ->]|(? & ? & ->)]]; lra.
Qed.

End WithCollaborators.

(** A session over the three example clips with all of them queued. *)
Lemma fill_cycle_with_every_clip_excluded_witness :
  let o := set_queued_filenames ["a.mp4"; "b.mp4"; "c.mp4"]
             (example_session [reply_with ["a.mp4"]]) in
  fill_reply o = None
  /\ _fill_buffer o
     = (Returned tt, o, [Printed (SelectionError "No available clips")]).
Proof.
  apply (fill_cycle_with_every_clip_excluded
           (set_queued_filenames ["a.mp4"; "b.mp4"; "c.mp4"]
              (example_session [reply_with ["a.mp4"]]))).
  apply (bool_decide_unpack _). vm_compute. reflexivity.
Defined.

Lemma fill_cycle_offers_known_names_in_order_witness :
  let o := example_session [reply_with ["b.mp4"; "zz.mp4"; "a.mp4"]] in
  let run := _fill_buffer o in
  outcome_of run = Returned tt
  /\ enqueue_attempts (events_of run) = valid_names o
  /\ List.filter is_dropped_warning (events_of run)
     = map (fun name => Printed (WarnNonexistentClip name))
         (List.filter (fun name => negb (known (manifest (selector o)) name))
                      (proposed_names o))
  /\ selections_made (state_of run)
     = (selections_made o + (if valid_names o is [] then 0 else 1))%Z
  /\ (valid_names o = [] ->
      queued_filenames (state_of run) = queued_filenames o
      /\ last (events_of run) = Some (Printed NoClipsSelected)).
Proof.
  assert (Hreply :
            fill_reply (example_session [reply_with ["b.mp4"; "zz.mp4"; "a.mp4"]])
            = Some (reply_with ["b.mp4"; "zz.mp4"; "a.mp4"]))
    by (vm_compute; reflexivity).
  exact (fill_cycle_offers_known_names_in_order
           (example_session [reply_with ["b.mp4"; "zz.mp4"; "a.mp4"]])
           {| error := None; raw := None;
              selections := map pick_clip ["b.mp4"; "zz.mp4"; "a.mp4"];
              narrative_note := None; suggested_direction := None |}
           Hreply eq_refl).
Defined.

Lemma queue_names_known_and_counted_witness :
  let l := [FillCycle; TrackPlayed; FillCycle; TrackPlayed] in
  let o := example_session [reply_with ["a.mp4"; "b.mp4"]; reply_with ["c.mp4"]] in
  let o' := run_activities l o in
  manifest (selector o') = manifest (selector o)
  /\ Forall (fun name => known (manifest (selector o)) name = true)
            (queued_filenames o')
  /\ (clips_played o <= clips_played o')%Z
  /\ (clips_played o + Z.of_nat (length (queued_filenames o))
      <= clips_played o' + Z.of_nat (length (queued_filenames o')))%Z
  /\ (count_fill_cycles l = 0 ->
      (clips_played o' + Z.of_nat (length (queued_filenames o'))
       = clips_played o + Z.of_nat (length (queued_filenames o)))%Z)
  /\ (selections_made o <= selections_made o'
      <= selections_made o + Z.of_nat (count_fill_cycles l))%Z.
Proof.
  apply (queue_names_known_and_counted
           [FillCycle; TrackPlayed; FillCycle; TrackPlayed]
           (example_session [reply_with ["a.mp4"; "b.mp4"]; reply_with ["c.mp4"]])).
  vm_compute. constructor.
Defined.

End SessionFacts.

(** ** Playback: the command exchange, status reads and the dummy *)

Module PlaybackControlsFacts.
Import Playback PlaybackControls.

Lemma has_newline_app a b :
  has_newline (a ++ b) = has_newline a || has_newline b.
Proof. unfold has_newline. apply existsb_app. Qed.

(** Chunks without a newline followed by one with a newline: the loop
    exits with everything received so far. *)
Lemma read_response_line chunks last_chunk fuel rcv i response :
  (forall j chunk, chunks !! j = Some chunk ->
                   rcv (i + j) = Chunk chunk /\ has_newline chunk = false) ->
  rcv (i + length chunks) = Chunk last_chunk ->
  has_newline last_chunk = true ->
  has_newline response = false ->
  length chunks < fuel ->
  read_response fuel rcv i response
  = Line (response ++ concat chunks ++ last_chunk).
Proof.
  revert fuel i response.
  induction chunks as [|chunk chunks IH];
    intros fuel i response Hchunks Hlast Hnl Hresp Hfuel.
  - destruct fuel as [|fuel]; [simpl in Hfuel; lia|]. simpl in *.
    rewrite Nat.add_0_r in Hlast. rewrite Hlast.
    by rewrite has_newline_app, Hnl, orb_true_r.
  - destruct fuel as [|fuel]; [simpl in Hfuel; lia|]. simpl in *.
    destruct (Hchunks 0 chunk eq_refl) as [Hc Hcnl].
    rewrite Nat.add_0_r in Hc. rewrite Hc.
    rewrite has_newline_app, Hresp, Hcnl. cbn [orb].
    rewrite (IH fuel (S i) (response ++ chunk)).
    + by rewrite <- !app_assoc.
    + intros j c Hj. destruct (Hchunks (S j) c Hj) as [Hr ?].
      split; [|done]. rewrite <- Hr. f_equal. lia.
    + rewrite <- Hlast. f_equal. lia.
    + done.
    + by rewrite has_newline_app, Hresp, Hcnl.
    + lia.
Qed.

Section Controller.
Variable json_loads : list byte -> option (list (string * pyval)).
Variable peer : nat -> list pyval -> exchange.
Variable fuel : nat.

(** X17.  When the connection is up (or can be made), the request goes
    out and the reply arrives in several reads, none with a newline but the
    last, [_send_command] returns after the last read, having put together
    all bytes received, in order.  If they are the text of a JSON object,
    it returns the object and keeps the connection; if [json.loads] rejects
    them with [JSONDecodeError], it returns no response and drops the
    socket. *)
Theorem send_command_reassembles_reply (command : list pyval) (c : controller)
    (chunks : list (list byte)) (last_chunk : list byte) :
  let x := peer (issued c) command in
  let line := concat chunks ++ last_chunk in
  (_socket c = true \/ connect_ok x = true) ->
  send_ok x = true ->
  (forall j chunk, chunks !! j = Some chunk ->
                   recv x j = Chunk chunk /\ has_newline chunk = false) ->
  recv x (length chunks) = Chunk last_chunk ->
  has_newline last_chunk = true ->
  length chunks < fuel ->
  (forall result,
     json_loads line = Some result ->
     _send_command json_loads peer fuel command c
     = Some (Some result, set_socket true (next_command c)))
  /\ (json_loads line = None ->
      _send_command json_loads peer fuel command c
      = Some (None, set_socket false (next_command c))).
Proof.
  intros x line Hconn Hsend Hchunks Hlast Hnl Hfuel.
  assert (Hread : read_response fuel (recv x) 0 [] = Line line)
    by (by apply (read_response_line chunks last_chunk)).
  unfold _send_command, connect. fold x.
  cbn [next_command _socket].
  destruct (_socket c) eqn:Hs.
  - cbn [negb]. rewrite Hsend. cbn [negb]. rewrite Hread.
    split; [intros result ->|intros ->]; [|done].
    do 2 f_equal. destruct c. cbn in *. by subst.
  - destruct Hconn as [|Hc]; [done|]. rewrite Hc. cbn [negb].
    rewrite Hsend. cbn [negb]. rewrite Hread.
    split; [intros result ->|intros ->]; done.
Qed.

(** Whenever [_send_command] returns, it has issued one command and holds
    the socket exactly if it returns a response. *)
Lemma send_command_returns command c result c' :
  _send_command json_loads peer fuel command c = Some (result, c') ->
  issued c' = S (issued c)
  /\ clips_base_path c' = clips_base_path c
  /\ (_socket c' = true <-> is_Some result).
Proof.
  unfold _send_command, connect. cbn [next_command _socket].
  set (x := peer (issued c) command).
  assert (Hnone : ~ is_Some (@None (list (string * pyval))))
    by (by intros [? ?]).
  destruct (_socket c) eqn:Hs; cbn [negb].
  - destruct (send_ok x); cbn [negb].
    + destruct (read_response fuel (recv x) 0 []) as [response| |]; [| |done].
      * destruct (json_loads response); intros [= <- <-]; cbn;
          split_and!; done.
      * intros [= <- <-]. cbn. split_and!; done.
    + intros [= <- <-]. cbn. split_and!; done.
  - destruct (connect_ok x); cbn [negb].
    + destruct (send_ok x); cbn [negb].
      * destruct (read_response fuel (recv x) 0 []) as [response| |]; [| |done].
        -- destruct (json_loads response); intros [= <- <-]; cbn;
             split_and!; done.
        -- intros [= <- <-]. cbn. split_and!; done.
      * intros [= <- <-]. cbn. split_and!; done.
    + intros [= <- <-]. cbn. split_and!; done.
Qed.


(** A property query the peer answers returns the value carried, on a
    connected controller. *)
Lemma get_property_answers (name : string) (v : pyval) (c : controller) :
  answers json_loads peer fuel (issued c) name v ->
  _get_property json_loads peer fuel name c = Some (v, after 1 c).
Proof.
  intros (Hconn & Hsend & response & d & Hread & Hloads & Hd & Hok & Hdata).
  unfold _get_property, ipc_bind, ipc_ret, _send_command, connect.
  cbn [next_command _socket].
  destruct (_socket c) eqn:Hs.
  - cbn [negb]. rewrite Hsend. cbn [negb]. rewrite Hread, Hloads, Hd, Hok, Hdata.
    cbn [andb]. do 2 f_equal. destruct c. cbn in *. by subst.
  - rewrite Hconn. cbn [negb]. rewrite Hsend. cbn [negb].
    rewrite Hread, Hloads, Hd, Hok, Hdata. done.
Qed.

(** X19.  When the peer answers every property query with a success
    envelope and the engine's values do not change between the queries,
    [get_status] returns the status assembled from the seven values after 7
    commands, [get_playlist] the playlist after 1, and [get_queue_duration]
    returns after 15 commands the estimate computed from that one status
    and playlist; the connection is held throughout. *)
Theorem status_and_estimate_on_stable_engine (values : string -> pyval)
    (c : controller) :
  (forall k name, name ∈ engine_properties ->
                  answers json_loads peer fuel k name (values name)) ->
  get_status json_loads peer fuel c = Some (status_from values, after 7 c)
  /\ get_playlist json_loads peer fuel c
     = Some (py_or (values "playlist") (PList []), after 1 c)
  /\ get_remaining_time json_loads peer fuel c
     = Some (remaining_time_of (status_from values), after 7 c)
  /\ get_queue_duration json_loads peer fuel c
     = Some (queue_estimate (status_from values)
                            (py_or (values "playlist") (PList [])),
             after 15 c).
Proof.
  intros Hpeer.
  assert (Hget : forall name c0,
            name ∈ engine_properties ->
            _get_property json_loads peer fuel name c0
            = Some (values name, after 1 c0)).
  { intros name c0 Hin. apply get_property_answers. by apply Hpeer. }
  assert (Hin : forall name, bool_decide (name ∈ engine_properties) = true ->
                             name ∈ engine_properties)
    by (intros name Hb; by apply bool_decide_eq_true in Hb).
  assert (Hstatus : forall c0,
            get_status json_loads peer fuel c0
            = Some (status_from values, after 7 c0)).
  { intros c0. unfold get_status.
    do 7 (unfold ipc_bind at 1; rewrite Hget by (by apply Hin)).
    done. }
  assert (Hplaylist : forall c0,
            get_playlist json_loads peer fuel c0
            = Some (py_or (values "playlist") (PList []), after 1 c0)).
  { intros c0. unfold get_playlist, ipc_bind.
    by rewrite Hget by (by apply Hin). }
  assert (Hremaining : forall c0,
            get_remaining_time json_loads peer fuel c0
            = Some (remaining_time_of (status_from values), after 7 c0)).
  { intros c0. unfold get_remaining_time, ipc_bind. by rewrite Hstatus. }
  split; [done|]. split; [done|]. split; [done|].
  unfold get_queue_duration, ipc_bind.
  by rewrite Hstatus, Hplaylist, Hremaining.
Qed.

(** The loop of [add_multiple] issues one command per file and counts at
    most one success for each. *)
Lemma add_multiple_from_returns filenames added c n c' :
  add_multiple_from json_loads peer fuel filenames added c = Some (n, c') ->
  added <= n <= added + length filenames
  /\ issued c' = length filenames + issued c
  /\ clips_base_path c' = clips_base_path c.
Proof.
  revert added c. induction filenames as [|fn rest IH]; intros added c.
  - intros [= <- <-]. cbn. split_and!; try done; lia.
  - cbn [add_multiple_from]. unfold ipc_bind at 1.
    unfold add_to_playlist at 1. unfold ipc_bind at 1.
    destruct (_send_command _ _ _ _ c) as [[result c1]|] eqn:Hsend; [|done].
    destruct (send_command_returns _ c result c1 Hsend) as (Hi & Hb & _).
    unfold ipc_ret at 1. intros Hrest. apply IH in Hrest as (Hn & Hi' & Hb').
    rewrite Hi', Hb', Hi, Hb. cbn [length].
    destruct (match result with Some d => _ | None => false end);
      split_and!; try done; lia.
Qed.

(** X20.  Whenever [add_multiple] returns, it has issued exactly one
    command for each file, going on after a file that was not accepted, and
    the count it returns is at most the number of files. *)
Theorem add_multiple_counts_accepted_files (filenames : list string)
    (c c' : controller) (n : nat) :
  add_multiple json_loads peer fuel filenames c = Some (n, c') ->
  n <= length filenames
  /\ issued c' = length filenames + issued c
  /\ clips_base_path c' = clips_base_path c.
Proof.
  intros Hrun. apply add_multiple_from_returns in Hrun.
  destruct Hrun as (Hn & Hi & Hb). split_and!; try done. lia.
Qed.

End Controller.

Lemma send_command_reassembles_reply_witness :
  let c := fresh_controller None in
  let command := [PStr "get_property"; PStr "duration"] in
  let line := concat [list_byte_of_string "duration"] ++ [x0a] in
  (forall result,
     example_loads line = Some result ->
     _send_command example_loads example_peer 2 command c
     = Some (Some result, set_socket true (next_command c)))
  /\ (example_loads line = None ->
      _send_command example_loads example_peer 2 command c
      = Some (None, set_socket false (next_command c))).
Proof.
  apply (send_command_reassembles_reply example_loads example_peer 2
           [PStr "get_property"; PStr "duration"] (fresh_controller None)
           [list_byte_of_string "duration"] [x0a]).
  - right. reflexivity.
  - reflexivity.
  - intros [|j] chunk; [|done]. intros [= <-]. split; reflexivity.
  - reflexivity.
  - reflexivity.
  - simpl. lia.
Defined.


Lemma example_peer_answers k name :
  name ∈ engine_properties ->
  answers example_loads example_peer 2 k name (example_values name).
Proof.
  intros Hin.
  repeat (apply elem_of_cons in Hin as [->|Hin];
          [split; [reflexivity|split; [reflexivity|]];
           eexists _, _; split; [vm_compute; reflexivity|];
           split; [reflexivity|]; vm_compute; by repeat split|]).
  by apply elem_of_nil in Hin.
Defined.

Lemma status_and_estimate_on_stable_engine_witness :
  get_status example_loads example_peer 2 (fresh_controller None)
  = Some (status_from example_values, after 7 (fresh_controller None))
  /\ get_playlist example_loads example_peer 2 (fresh_controller None)
     = Some (py_or (example_values "playlist") (PList []),
             after 1 (fresh_controller None))
  /\ get_remaining_time example_loads example_peer 2 (fresh_controller None)
     = Some (remaining_time_of (status_from example_values),
             after 7 (fresh_controller None))
  /\ get_queue_duration example_loads example_peer 2 (fresh_controller None)
     = Some (queue_estimate (status_from example_values)
                            (py_or (example_values "playlist") (PList [])),
             after 15 (fresh_controller None)).
Proof.
  exact (status_and_estimate_on_stable_engine example_loads example_peer 2
           example_values (fresh_controller None) example_peer_answers).
Defined.

Lemma add_multiple_counts_accepted_files_witness :
  2 <= length ["a.mp4"; "b.mp4"]
  /\ issued (after 2 (fresh_controller None))
     = length ["a.mp4"; "b.mp4"] + issued (fresh_controller None)
  /\ clips_base_path (after 2 (fresh_controller None))
     = clips_base_path (fresh_controller None).
Proof.
  apply (add_multiple_counts_accepted_files example_loads example_peer 2
           ["a.mp4"; "b.mp4"] (fresh_controller None)
           (after 2 (fresh_controller None)) 2).
  vm_compute. reflexivity.
Defined.

End PlaybackControlsFacts.

(** ** The dummy playback controller *)

Module DummyFacts.
Import Playback PlaybackControls.

(** [x % m] lies in [[0, m)] for positive [m]. *)
Lemma Qmod_bounds (x m : Q) :
  (0 < m)%Q -> (0 <= Qmod x m)%Q /\ (Qmod x m < m)%Q.
Proof.
  intros Hm. unfold Qmod.
  pose proof (Qfloor_le (x / m)) as Hlo.
  pose proof (Qlt_floor (x / m)) as Hhi.
  assert (Hx : (x == x / m * m)%Q) by (field; lra).
  set (f := inject_Z (Qfloor (x / m))) in *.
  assert (Hhi' : (x / m < f + 1)%Q).
  { subst f. rewrite <- (inject_Z_plus _ 1). exact Hhi. }
  assert (H1 : (f * m <= x / m * m)%Q) by (apply Qmult_le_compat_r; lra).
  assert (H2 : (x / m * m < (f + 1) * m)%Q) by (apply Qmult_lt_compat_r; lra).
  split.
  - rewrite <- Hx in H1. lra.
  - rewrite <- Hx in H2. lra.
Qed.

Lemma dummy_add_multiple_playlist filenames d :
  let d' := (dummy_add_multiple filenames d).2 in
  d_playlist d' = d_playlist d ++ filenames
  /\ d_current_pos d' = d_current_pos d
  /\ d_playing d' = d_playing d
  /\ d_start_time d' = d_start_time d
  /\ d_clip_duration d' = d_clip_duration d
  /\ d_now d' = d_now d.
Proof.
  cbn zeta. unfold dummy_add_multiple. cbn [snd].
  revert d. induction filenames as [|fn rest IH]; intros d.
  - cbn. by rewrite app_nil_r.
  - cbn [foldl]. destruct (IH (dummy_add_to_playlist fn false d).2)
      as (-> & -> & -> & -> & -> & ->).
    cbn. by rewrite <- app_assoc.
Qed.

Lemma dummy_do_keeps (call : dummy_call) (d : Dummy) :
  position_in_playlist d ->
  position_in_playlist (dummy_do call d)
  /\ d_clip_duration (dummy_do call d) = d_clip_duration d.
Proof.
  unfold position_in_playlist. intros Hpos.
  destruct call as [fn [|]|fns| | | | |now]; cbn [dummy_do].
  - cbn. split; [lia|done].
  - cbn. rewrite length_app. cbn. split; [lia|done].
  - destruct (dummy_add_multiple_playlist fns d) as (-> & -> & _ & _ & -> & _).
    rewrite length_app. split; [lia|done].
  - cbn. split; [lia|done].
  - cbn. done.
  - cbn. done.
  - unfold dummy_next.
    destruct (Z.ltb_spec (Z.of_nat (d_current_pos d))
                (Z.of_nat (length (d_playlist d)) - 1)); cbn; split; try done.
    lia.
  - cbn. done.
Qed.

(** X21.  Starting from a dummy whose position is an index of its
    playlist (or 0 on an empty playlist, as after construction), every
    sequence of calls and clock readings leaves it so.  Hence [get_status]
    never reads outside the playlist: it reports no file on an empty
    playlist and the entry at the current position otherwise.  The assumed
    clip duration never changes. *)
Theorem dummy_position_stays_in_playlist (calls : list dummy_call) (d : Dummy) :
  position_in_playlist d ->
  let d' := dummy_run calls d in
  position_in_playlist d'
  /\ d_clip_duration d' = d_clip_duration d
  /\ ((d_playlist d' = [] /\ filename (dummy_get_status d') = PNone)
      \/ exists f, d_playlist d' !! d_current_pos d' = Some f
                   /\ filename (dummy_get_status d') = PStr f).
Proof.
  intros Hpos. cbn zeta.
  assert (Hrun : position_in_playlist (dummy_run calls d)
                 /\ d_clip_duration (dummy_run calls d) = d_clip_duration d).
  { revert d Hpos. induction calls as [|call calls IH]; intros d Hpos; [done|].
    change (dummy_run (call :: calls) d)
      with (dummy_run calls (dummy_do call d)).
    destruct (dummy_do_keeps call d Hpos) as [Hpos' Hdur].
    destruct (IH _ Hpos') as [? ?]. split; [done|congruence]. }
  destruct Hrun as [Hpos' Hdur]. split; [done|]. split; [done|].
  unfold position_in_playlist in Hpos'. unfold dummy_get_status.
  cbn [filename].
  destruct (d_playlist (dummy_run calls d)) as [|f0 rest] eqn:Hpl; [by left|].
  right.
  destruct (lookup_lt_is_Some_2 (f0 :: rest) (d_current_pos (dummy_run calls d)))
    as [f Hf]; [cbn in *; lia|].
  exists f. by rewrite Hf.
Qed.

(** X22.  For a dummy with a positive assumed clip duration whose
    position is an index of its playlist: the remaining time of the current
    clip lies between 0 and the clip duration, so that the clamp of
    [get_remaining_time] never takes effect; the buffer estimate is never
    negative; while paused it is the duration of the later entries, and
    while playing it exceeds that by at most one clip. *)
Theorem dummy_estimate_bounds (d : Dummy) :
  (0 < d_clip_duration d)%Q ->
  d_current_pos d < length (d_playlist d) ->
  let later :=
    inject_Z (Z.of_nat (length (d_playlist d) - d_current_pos d - 1)) in
  let remaining := dummy_get_remaining_time d in
  let estimate := dummy_get_queue_duration d in
  ((0 <= remaining)%Q /\ (remaining <= d_clip_duration d)%Q)
  /\ (estimate == remaining + later * d_clip_duration d)%Q
  /\ (0 <= estimate)%Q
  /\ (d_playing d = false -> (estimate == later * d_clip_duration d)%Q)
  /\ (d_playing d = true ->
      (remaining
       == d_clip_duration d
          - Qmod (d_now d - d_start_time d) (d_clip_duration d))%Q
      /\ (later * d_clip_duration d < estimate)%Q
      /\ (estimate <= (later + 1) * d_clip_duration d)%Q).
Proof.
  intros Hdur Hpos. cbn zeta.
  set (later := inject_Z (Z.of_nat (length (d_playlist d) - d_current_pos d - 1))).
  assert (Hlater : (inject_Z (Z.of_nat (length (d_playlist d)))
                    - inject_Z (Z.of_nat (d_current_pos d)) - 1 == later)%Q).
  { subst later. rewrite !Nat2Z.inj_sub by lia.
    unfold Z.sub. rewrite !inject_Z_plus, !inject_Z_opp. cbn. ring. }
  assert (Hlater0 : (0 <= later)%Q).
  { subst later. change 0%Q with (inject_Z 0). rewrite <- Zle_Qle. lia. }
  assert (Hest : (dummy_get_queue_duration d
                  == dummy_get_remaining_time d + later * d_clip_duration d)%Q).
  { unfold dummy_get_queue_duration. cbn zeta. by rewrite Hlater. }
  destruct (Qmod_bounds (d_now d - d_start_time d) (d_clip_duration d) Hdur)
    as [Hm0 Hm1].
  assert (Hprod : (0 <= later * d_clip_duration d)%Q)
    by (apply Qmult_le_0_compat; lra).
  assert (Hrem : dummy_get_remaining_time d
                 = if d_playing d
                   then (d_clip_duration d
                         - Qmod (d_now d - d_start_time d) (d_clip_duration d))%Q
                   else 0%Q).
  { unfold dummy_get_remaining_time. destruct (d_playing d); [|done].
    cbn [negb]. unfold Qmax.
    destruct (Qle_bool 0 _) eqn:Hle; [done|].
    exfalso. apply not_true_iff_false in Hle. apply Hle, Qle_bool_iff. lra. }
  rewrite Hest, Hrem.
  destruct (d_playing d); split_and!; try done; try lra.
Qed.

(** X24.  On the dummy's own status and playlist, the estimate of the
    real controller ([get_queue_duration] of [PlaybackController]) is
    defined, and with the assumed clip duration of 8 seconds it agrees with
    the dummy's estimate while the dummy is playing; while it is paused the
    controller's formula counts the whole current clip and so exceeds the
    dummy's estimate by 8 seconds. *)
Theorem dummy_and_controller_estimates (d : Dummy) :
  d_clip_duration d = 8%Q ->
  exists q,
    queue_estimate (dummy_get_status d) (dummy_get_playlist d) = Value q
    /\ (d_playing d = true -> (q == dummy_get_queue_duration d)%Q)
    /\ (d_playing d = false -> (q == dummy_get_queue_duration d + 8)%Q).
Proof.
  intros Hdur.
  destruct (Qmod_bounds (d_now d - d_start_time d) 8 ltac:(lra)) as [Hm0 Hm1].
  unfold queue_estimate, queue_duration_of, remaining_time_of,
    dummy_get_status, dummy_get_playlist.
  cbn [duration position playlist_pos py_num py_len pyres_bind].
  rewrite Hdur. change (Qpositive 8) with true. cbn [pyres_bind].
  rewrite length_map. eexists. split; [done|].
  unfold dummy_get_queue_duration, dummy_get_remaining_time. rewrite Hdur.
  split; intros ->; cbn [negb].
  - unfold Qmax. destruct (Qle_bool 0 _) eqn:Hle; [ring|].
    exfalso. apply not_true_iff_false in Hle. apply Hle, Qle_bool_iff. lra.
  - change (Qmod 0 8) with 0%Q. ring.
Qed.

Lemma dummy_and_controller_estimates_witness :
  exists q,
    queue_estimate
      (dummy_get_status
         (dummy_run [AddMultiple ["a.mp4"; "b.mp4"]; Play; Tick 5] (fresh_dummy 0)))
      (dummy_get_playlist
         (dummy_run [AddMultiple ["a.mp4"; "b.mp4"]; Play; Tick 5] (fresh_dummy 0)))
    = Value q
    /\ (d_playing
          (dummy_run [AddMultiple ["a.mp4"; "b.mp4"]; Play; Tick 5] (fresh_dummy 0))
        = true ->
        (q == dummy_get_queue_duration
                (dummy_run [AddMultiple ["a.mp4"; "b.mp4"]; Play; Tick 5]
                   (fresh_dummy 0)))%Q)
    /\ (d_playing
          (dummy_run [AddMultiple ["a.mp4"; "b.mp4"]; Play; Tick 5] (fresh_dummy 0))
        = false ->
        (q == dummy_get_queue_duration
                (dummy_run [AddMultiple ["a.mp4"; "b.mp4"]; Play; Tick 5]
                   (fresh_dummy 0)) + 8)%Q).
Proof.
  apply (dummy_and_controller_estimates
           (dummy_run [AddMultiple ["a.mp4"; "b.mp4"]; Play; Tick 5]
              (fresh_dummy 0))).
  reflexivity.
Defined.

Lemma dummy_position_stays_in_playlist_witness :
  let d' := dummy_run [AddMultiple ["a.mp4"; "b.mp4"]; Play; Tick 5; Next;
                       Next; ClearPlaylist; AddToPlaylist "c.mp4" false]
              (fresh_dummy 0) in
  position_in_playlist d'
  /\ d_clip_duration d' = d_clip_duration (fresh_dummy 0)
  /\ ((d_playlist d' = [] /\ filename (dummy_get_status d') = PNone)
      \/ exists f, d_playlist d' !! d_current_pos d' = Some f
                   /\ filename (dummy_get_status d') = PStr f).
Proof.
  apply (dummy_position_stays_in_playlist
           [AddMultiple ["a.mp4"; "b.mp4"]; Play; Tick 5; Next;
            Next; ClearPlaylist; AddToPlaylist "c.mp4" false]
           (fresh_dummy 0)).
  unfold position_in_playlist. simpl. lia.
Defined.

Lemma dummy_estimate_bounds_witness :
  let d := dummy_run [AddMultiple ["a.mp4"; "b.mp4"; "c.mp4"]; Play; Tick 19]
             (fresh_dummy 0) in
  let later :=
    inject_Z (Z.of_nat (length (d_playlist d) - d_current_pos d - 1)) in
  let remaining := dummy_get_remaining_time d in
  let estimate := dummy_get_queue_duration d in
  ((0 <= remaining)%Q /\ (remaining <= d_clip_duration d)%Q)
  /\ (estimate == remaining + later * d_clip_duration d)%Q
  /\ (0 <= estimate)%Q
  /\ (d_playing d = false -> (estimate == later * d_clip_duration d)%Q)
  /\ (d_playing d = true ->
      (remaining
       == d_clip_duration d
          - Qmod (d_now d - d_start_time d) (d_clip_duration d))%Q
      /\ (later * d_clip_duration d < estimate)%Q
      /\ (estimate <= (later + 1) * d_clip_duration d)%Q).
Proof.
  apply (dummy_estimate_bounds
           (dummy_run [AddMultiple ["a.mp4"; "b.mp4"; "c.mp4"]; Play; Tick 19]
              (fresh_dummy 0))).
  - reflexivity.
  - simpl. lia.
Defined.

End DummyFacts.

(** ** A session on the dummy playback controller *)

Module DummySessionFacts.
Import Manifest Narrative Selector Orchestrator Playback PlaybackControls
  OrchestratorControls DummySession SelectorFacts OrchestratorFacts.

Lemma dummy_remaining_nonneg (d : Dummy) : (0 <= dummy_get_remaining_time d)%Q.
Proof.
  unfold dummy_get_remaining_time. destruct (d_playing d); cbn [negb]; [|lra].
  unfold Qmax. destruct (Qle_bool 0 _) eqn:Hle; [|lra].
  by apply Qle_bool_iff.
Qed.

Lemma dummy_estimate_later (d : Dummy) :
  (later_seconds d <= dummy_get_queue_duration d)%Q.
Proof.
  pose proof (dummy_remaining_nonneg d).
  unfold dummy_get_queue_duration, later_seconds. cbn zeta. lra.
Qed.

Section WithEnvironment.
Context {E : Type} `{Environment E}.
Implicit Types (o : Orchestrator E Dummy).

Lemma process_feedback_quiet fb (s : Selector E) :
  exists s' w, process_feedback fb s = (Returned tt, s', w)
               /\ forallb quiet w = true.
Proof.
  unfold process_feedback, bind, call, modify, print, emit, ret.
  destruct (now (env s)) as [t e'].
  destruct (List.find _ direction_keywords) as [[k d]|]; by eexists _, _.
Qed.

Lemma for_each_feedback_frame fbs o :
  exists s' w,
    for_each fbs (fun fb => zoom selector set_selector (process_feedback fb)) o
    = (Returned tt, set_selector s' o, w)
    /\ forallb quiet w = true.
Proof.
  revert o. induction fbs as [|fb fbs IH]; intros o.
  - exists (selector o), []. by destruct o.
  - cbn [for_each]. unfold bind. unfold zoom at 1.
    destruct (process_feedback_quiet fb (selector o)) as (s1 & w1 & -> & Hw1).
    destruct (IH (set_selector s1 o)) as (s2 & w2 & -> & Hw2).
    exists s2, (w1 ++ w2). split; [done|]. by rewrite forallb_app, Hw1, Hw2.
Qed.

Lemma mark_current_as_played_frame name o :
  exists q s n,
    _mark_current_as_played name o
    = (Returned tt,
       set_clips_played n (set_selector s (set_queued_filenames q o)), []).
Proof.
  destruct (decide (name ∈ queued_filenames o)) as [Hin|Hnot].
  - rewrite mark_current_as_played_queued by done.
    destruct (get_clip (manifest (selector o)) name) as [clip|] eqn:Hclip.
    + rewrite (mark_played_known name clip) by done. by eexists _, _, _.
    + rewrite mark_played_unknown by done. by eexists _, _, _.
  - rewrite mark_current_as_played_not_queued by done.
    exists (queued_filenames o), (selector o), (clips_played o).
    by destruct o.
Qed.

(** A poll cycle on a dummy whose later entries alone cover the
    low-water mark. *)
Lemma poll_with_covered_buffer o :
  (min_buffer_seconds (config o) <= later_seconds (playback o))%Q ->
  exists q s n w,
    buffer_loop_body o
    = (Returned tt,
       set_clips_played n
         (set_selector s (set_queued_filenames q (set_feedback_queue [] o))),
       w)
    /\ forallb quiet w = true.
Proof.
  intros Hcover.
  assert (Hlow : Qle_bool (min_buffer_seconds (config o))
                          (dummy_get_queue_duration (playback o)) = true).
  { apply Qle_bool_iff. pose proof (dummy_estimate_later (playback o)). lra. }
  remember (buffer_loop_body o) as run eqn:Hrun.
  unfold buffer_loop_body, try_except, check_buffer_and_feedback in Hrun.
  unfold bind at 1 in Hrun.
  unfold bind at 1 in Hrun. unfold call at 1 in Hrun.
  change (Orchestrator.get_queue_duration (playback o))
    with (Value (dummy_get_queue_duration (playback o)), playback o) in Hrun.
  unfold bind at 1 in Hrun. unfold get at 1 in Hrun.
  change (config (set_playback (playback o) o)) with (config o) in Hrun.
  rewrite Hlow in Hrun. cbn [negb when] in Hrun.
  replace (set_playback (playback o) o) with o in Hrun by (by destruct o).
  unfold bind at 1 in Hrun. unfold ret at 1 in Hrun.
  unfold bind at 1 in Hrun. unfold get at 1 in Hrun.
  unfold bind at 1 in Hrun. unfold modify at 1 in Hrun.
  destruct (for_each_feedback_frame (_feedback_queue o) (set_feedback_queue [] o))
    as (s1 & w1 & Hloop & Hw1).
  rewrite Hloop in Hrun. cbv beta iota zeta in Hrun.
  set (o1 := set_selector s1 (set_feedback_queue [] o)) in *.
  unfold update_played_tracking, bind, call in Hrun.
  cbv beta iota zeta in Hrun.
  change (Orchestrator.get_status (playback o1))
    with (dummy_get_status (playback o1), playback o1) in Hrun.
  cbv beta iota zeta in Hrun.
  replace (set_playback (playback o1) o1) with o1 in Hrun by (by destruct o).
  destruct (truthy (filename (dummy_get_status (playback o1)))).
  - destruct (filename (dummy_get_status (playback o1))) as [| | | |name| |];
      try (subst run; exists (queued_filenames o), s1, (clips_played o), w1;
           split; [|done]; subst o1; unfold ret; cbn; rewrite ?app_nil_r;
           by destruct o).
    destruct (mark_current_as_played_frame name o1) as (q & s & n & Hmark).
    rewrite Hmark in Hrun. subst run. exists q, s, n, w1.
    split; [|done]. subst o1. cbn. rewrite ?app_nil_r. by destruct o.
  - subst run. exists (queued_filenames o), s1, (clips_played o), w1.
    split; [|done]. subst o1. unfold ret. cbn. rewrite ?app_nil_r.
    by destruct o.
Qed.

(** X23.  The dummy moves to the next playlist entry only when [next] is
    called.  So once the entries after the current one alone cover the
    low-water mark (three queued clips of 8 seconds against 15), no poll
    cycle selects again, however far the clock advances: over any number of
    poll cycles nothing is offered to the playback client, no low buffer is
    reported, the count of selection rounds stays, and playlist and position
    stay as they were. *)
Theorem dummy_session_with_covered_buffer_never_refills (clock : list Q) o :
  (min_buffer_seconds (config o) <= later_seconds (playback o))%Q ->
  let o' := (polls clock o).1 in
  let trace := (polls clock o).2 in
  List.filter is_enqueue trace = []
  /\ List.filter is_buffer_low trace = []
  /\ selections_made o' = selections_made o
  /\ d_playlist (playback o') = d_playlist (playback o)
  /\ d_current_pos (playback o') = d_current_pos (playback o)
  /\ (min_buffer_seconds (config o') <= later_seconds (playback o'))%Q.
Proof.
  cbn zeta. revert o. induction clock as [|now rest IH]; intros o Hcover.
  { cbn. split_and!; done. }
  cbn [polls].
  assert (Hcover' : (min_buffer_seconds (config (set_clock now o))
                     <= later_seconds (playback (set_clock now o)))%Q) by done.
  destruct (poll_with_covered_buffer (set_clock now o) Hcover')
    as (q & s & n & w & Hrun & Hw).
  rewrite Hrun. cbn [state_of events_of fst snd].
  set (o1 := set_clips_played n _).
  specialize (IH o1 Hcover).
  destruct (polls rest o1) as [o' evs]. cbn [fst snd] in *.
  destruct IH as (He & Hb & Hs & Hp & Hc & Hcov).
  rewrite !List.filter_app, He, Hb, !app_nil_r.
  assert (Hquiet : List.filter is_enqueue w = []
                   /\ List.filter is_buffer_low w = []).
  { clear -Hw. induction w as [|ev w IHw]; [done|].
    cbn in Hw. apply andb_true_iff in Hw as [Hev Hw].
    unfold quiet in Hev. apply andb_true_iff in Hev as [H1 H2].
    apply negb_true_iff in H1, H2. cbn. rewrite H1, H2. by apply IHw. }
  destruct Hquiet as [-> ->]. split_and!; done.
Qed.

(** The enqueue loop on the dummy: every name is accepted. *)
Lemma for_each_queue_selection_dummy (sels : list Selection) o :
  exists p' evs,
    for_each sels queue_selection o
    = (Returned tt,
       set_queued_filenames (queued_filenames o ++ map sel_filename sels)
         (set_playback p' o),
       evs)
    /\ d_playlist p' = d_playlist (playback o) ++ map sel_filename sels
    /\ d_current_pos p' = d_current_pos (playback o)
    /\ d_playing p' = d_playing (playback o)
    /\ List.filter is_enqueue evs
       = map (fun sel => Enqueue (sel_filename sel) true) sels.
Proof.
  revert o. induction sels as [|sel sels IH]; intros o.
  - exists (playback o), []. rewrite !app_nil_r. split; [by destruct o|done].
  - cbn [for_each]. unfold bind. rewrite queue_selection_spec. cbn zeta.
    change (Orchestrator.add_to_playlist (sel_filename sel) (playback o))
      with (dummy_add_to_playlist (sel_filename sel) false (playback o)).
    cbn [dummy_add_to_playlist fst snd].
    set (o1 := set_queued_filenames _ _).
    destruct (IH o1) as (p' & evs & Hrun & Hpl & Hpos & Hplay & Henq).
    rewrite Hrun. exists p', (queue_events sel true ++ evs).
    subst o1. cbn in *. rewrite <- !app_assoc in *. cbn in *.
    split_and!; try done. by rewrite Henq.
Qed.

(** X25.  The dummy accepts every file.  So a fill cycle on the dummy
    whose reply is a JSON object without an ["error"] key appends exactly
    the names of the reply that the manifest knows, in the order of the
    reply, both to the orchestrator's queue and to the dummy's playlist, and
    leaves the dummy's position and playing flag alone. *)
Theorem dummy_fill_queues_every_known_name o r :
  fill_reply o = Some (ReplyJson r) ->
  error r = None ->
  let o' := state_of (_fill_buffer o) in
  queued_filenames o' = queued_filenames o ++ valid_names o
  /\ d_playlist (playback o') = d_playlist (playback o) ++ valid_names o
  /\ d_current_pos (playback o') = d_current_pos (playback o)
  /\ d_playing (playback o') = d_playing (playback o)
  /\ List.filter is_enqueue (events_of (_fill_buffer o))
     = map (fun name => Enqueue name true) (valid_names o).
Proof.
  intros Hreply Herr. cbn zeta.
  destruct (SessionFacts.fill_buffer_cases o) as [e' Hc]. cbn zeta in Hc.
  unfold valid_names, proposed_names. rewrite Hreply in Hc |- *.
  rewrite Herr in Hc. rewrite <- map_filter_known.
  set (warnings := map _ (List.filter (fun sel => negb _) (selections r))) in *.
  assert (Hw : List.filter is_enqueue warnings = []).
  { subst warnings. clear.
    by induction (List.filter _ (selections r)) as [|sel sels IH]. }
  assert (Hnotes : List.filter is_enqueue (fill_notes r) = []).
  { unfold fill_notes.
    by destruct (text_truthy (narrative_note r)),
                (text_truthy (suggested_direction r)). }
  remember (List.filter
              (fun sel => known (manifest (selector o)) (sel_filename sel))
              (selections r)) as valid eqn:Hvalid.
  destruct valid as [|sel sels].
  - rewrite Hc. cbn [state_of events_of fst snd map].
    rewrite !List.filter_app, Hw, !app_nil_r. by destruct o.
  - destruct (for_each_queue_selection_dummy (sel :: sels)
                (set_selector (set_env e' (selector o)) o))
      as (p' & evs & Hloop & Hpl & Hpos & Hplay & Henq).
    rewrite Hc, Hloop. cbn [state_of events_of fst snd].
    rewrite !List.filter_app, Hw, Hnotes, Henq, !app_nil_r. cbn [app].
    rewrite map_map. split_and!; done.
Qed.

End WithEnvironment.

Lemma dummy_fill_queues_every_known_name_witness :
  let o := example_session [reply_with ["c.mp4"; "zz.mp4"; "a.mp4"]] in
  let o' := state_of (_fill_buffer o) in
  queued_filenames o' = queued_filenames o ++ valid_names o
  /\ d_playlist (playback o') = d_playlist (playback o) ++ valid_names o
  /\ d_current_pos (playback o') = d_current_pos (playback o)
  /\ d_playing (playback o') = d_playing (playback o)
  /\ List.filter is_enqueue (events_of (_fill_buffer o))
     = map (fun name => Enqueue name true) (valid_names o).
Proof.
  assert (Hreply :
            fill_reply (example_session [reply_with ["c.mp4"; "zz.mp4"; "a.mp4"]])
            = Some (reply_with ["c.mp4"; "zz.mp4"; "a.mp4"]))
    by (vm_compute; reflexivity).
  exact (dummy_fill_queues_every_known_name
           (example_session [reply_with ["c.mp4"; "zz.mp4"; "a.mp4"]])
           {| error := None; raw := None;
              selections := map pick_clip ["c.mp4"; "zz.mp4"; "a.mp4"];
              narrative_note := None; suggested_direction := None |}
           Hreply eq_refl).
Defined.

Lemma dummy_session_with_covered_buffer_never_refills_witness :
  let o := state_of (_fill_buffer
                       (example_session [reply_with ["a.mp4"; "b.mp4"; "c.mp4"];
                                         reply_with ["a.mp4"]])) in
  let o' := (polls [1; 9; 17; 40]%Q o).1 in
  let trace := (polls [1; 9; 17; 40]%Q o).2 in
  List.filter is_enqueue trace = []
  /\ List.filter is_buffer_low trace = []
  /\ selections_made o' = selections_made o
  /\ d_playlist (playback o') = d_playlist (playback o)
  /\ d_current_pos (playback o') = d_current_pos (playback o)
  /\ (min_buffer_seconds (config o') <= later_seconds (playback o'))%Q.
Proof.
  apply (dummy_session_with_covered_buffer_never_refills [1; 9; 17; 40]%Q
           (state_of (_fill_buffer
                        (example_session [reply_with ["a.mp4"; "b.mp4"; "c.mp4"];
                                          reply_with ["a.mp4"]])))).
  vm_compute. discriminate.
Defined.

End DummySessionFacts.
